(** * Live-chat relay server: session registry, conversation index and
      broadcast coordinator

    Shallow embedding of the socket.io server (connection handlers
    [customer:join], [agent:join], [message:send], [disconnect], the
    [getConversationMessages] helper and the eviction timer) together with
    the properties of its specification.

    The handlers are [async] functions.  Every [await] on the database
    client is a suspension point: the handler's live variables are kept in a
    [Frame], the request it issued in a [Query], and other handlers may run
    before it is resumed.  The labelled transition function [step] delivers
    inbound events, lets the database answer a pending request, resumes an
    answered handler and fires the eviction timer, in any order.

    The database is the [livechat] table behind the client library.  It is
    modelled as a list of rows with the two requests the server sends: a
    [select] of [live_message] by [live_chat_id], and an [upsert] on conflict
    of [live_chat_id].  A request that fails leaves the table unchanged.
    Payload fields are strings, clock readings are milliseconds. *)

From stdpp Require Import gmap strings list fin_maps.
From Stdlib Require Import ZArith.

Open Scope string_scope.
Open Scope Z_scope.
Open Scope list_scope.

(* ===================================================================== *)
(** ** Data model *)
(* ===================================================================== *)

(** [new Date().toISOString()]: the textual rendering of a clock reading,
    kept as the reading itself (milliseconds since the epoch). *)
Inductive IsoString := toISOString (ms : Z).

(** [{ text, sender, timestamp, convId }] built by [message:send]. *)
Record Message := {
  msg_text : string;
  msg_sender : string;
  msg_timestamp : IsoString;
  msg_convId : string
}.

(** The JSON value of the [live_message] column.  The server writes
    [{ messages: [...] }]; a value read back may also be [null] or an object
    without the [messages] key. *)
Inductive LiveMessage :=
| json_null
| json_obj (messages : option (list Message)).

(** A row of the [livechat] table.  The same shape serves as the argument of
    [upsert]: a column that is [None] there is absent from the payload. *)
Record Row := {
  live_chat_id : string;
  live_message : LiveMessage;
  customer_name : option string;
  chatbot_id : option string;
  user_id : option string;
  created_at : option IsoString
}.

Inductive Error :=
| StoreError (reason : string)   (* the [error] member of a database reply *)
| TypeError (reason : string).   (* property access on null or undefined *)

Inductive Result (A : Type) :=
| Ok (a : A)
| Throw (e : Error).
Arguments Ok {A} a.
Arguments Throw {A} e.

(** Values of [sessions.customers], [sessions.agents] and
    [sessions.conversations]. *)
Record CustomerSession := {
  cs_convId : string;
  cs_chatbotId : string;
  cs_userId : string;
  cs_customerEmail : string
}.

Record AgentSession := { as_convId : string }.

Record Conversation := {
  c_convId : string;
  c_chatbotId : string;
  c_customerEmail : string;
  c_timestamp : Z;                    (* a [Date] *)
  c_lastMessage : option Message      (* [null] or the last message *)
}.

(** Equality of all the data above is decidable. *)
#[global] Instance IsoString_eq_dec : EqDecision IsoString.
Proof. solve_decision. Defined.
#[global] Instance Message_eq_dec : EqDecision Message.
Proof. solve_decision. Defined.
#[global] Instance LiveMessage_eq_dec : EqDecision LiveMessage.
Proof. solve_decision. Defined.
#[global] Instance Row_eq_dec : EqDecision Row.
Proof. solve_decision. Defined.
#[global] Instance Error_eq_dec : EqDecision Error.
Proof. solve_decision. Defined.
#[global] Instance Conversation_eq_dec : EqDecision Conversation.
Proof. solve_decision. Defined.

(* ===================================================================== *)
(** ** The JavaScript [Map] with its insertion order *)
(* ===================================================================== *)

(** [sessions.conversations] is iterated ([values()], [for ... of]), so its
    entries are kept in insertion order.  [set] on a present key replaces the
    value in place, on a fresh key appends. *)
Section JsMap.
Context {V : Type}.

Fixpoint Map_get (k : string) (m : list (string * V)) : option V :=
  match m with
  | [] => None
  | (k', v) :: m' => if decide (k' = k) then Some v else Map_get k m'
  end.

Fixpoint Map_set (k : string) (v : V) (m : list (string * V)) : list (string * V) :=
  match m with
  | [] => [(k, v)]
  | (k', v') :: m' =>
      if decide (k' = k) then (k, v) :: m' else (k', v') :: Map_set k v m'
  end.

Definition Map_delete (k : string) (m : list (string * V)) : list (string * V) :=
  filter (λ e, e.1 ≠ k) m.

Definition Map_keys (m : list (string * V)) : list string := m.*1.
Definition Map_values (m : list (string * V)) : list V := m.*2.

(** A [Map] holds each key once. *)
Definition Map_wf (m : list (string * V)) : Prop := NoDup (Map_keys m).
End JsMap.

(* ===================================================================== *)
(** ** The database table and the two requests the server sends *)
(* ===================================================================== *)

(** [{ data, error }] as returned by the database client.  For
    [select('live_message')] the rows of [data] hold that one column; an
    [upsert] without a trailing [select] answers with [data = null]. *)
Record Response := {
  data : option (list LiveMessage);
  error : option Error
}.

Inductive Query :=
| Select (convId : string)   (* select('live_message').eq('live_chat_id', convId) *)
| Upsert (row : Row).        (* upsert(row, { onConflict: ['live_chat_id'] }) *)

Definition or_else {A} (new old : option A) : option A :=
  match new with Some x => Some x | None => old end.

(** ON CONFLICT DO UPDATE: the columns present in the payload replace those
    of the stored row, the others stay. *)
Definition merge_row (new old : Row) : Row :=
  {| live_chat_id := live_chat_id old;
     live_message := live_message new;
     customer_name := or_else (customer_name new) (customer_name old);
     chatbot_id := or_else (chatbot_id new) (chatbot_id old);
     user_id := or_else (user_id new) (user_id old);
     created_at := or_else (created_at new) (created_at old) |}.

Fixpoint table_upsert (new : Row) (table : list Row) : list Row :=
  match table with
  | [] => [new]
  | r :: rest =>
      if decide (live_chat_id r = live_chat_id new)
      then merge_row new r :: rest
      else r :: table_upsert new rest
  end.

Definition table_select (convId : string) (table : list Row) : list LiveMessage :=
  live_message <$> filter (λ r, live_chat_id r = convId) table.

(** The database performs a request.  [fault] is the failure, if any, that
    strikes this request; a failed request leaves the table as it was. *)
Definition run_query (q : Query) (fault : option Error) (table : list Row)
  : list Row * Response :=
  match fault with
  | Some e => (table, {| data := None; error := Some e |})
  | None =>
      match q with
      | Select convId =>
          (table, {| data := Some (table_select convId table); error := None |})
      | Upsert row =>
          (table_upsert row table, {| data := None; error := None |})
      end
  end.

(** The rows of one conversation and its message log as stored. *)
Definition rows_of (convId : string) (table : list Row) : list Row :=
  filter (λ r, live_chat_id r = convId) table.

Definition stored_log (convId : string) (table : list Row) : option LiveMessage :=
  head (table_select convId table).

(** What a successful read of one conversation hands to the handler: the
    first matching row's log, or [{ messages: [] }] when there is none. *)
Definition read_log (convId : string) (table : list Row) : LiveMessage :=
  default (json_obj (Some [])) (stored_log convId table).

(** No two rows share a [live_chat_id]. *)
Definition table_unique (table : list Row) : Prop :=
  NoDup (live_chat_id <$> table).

(* ===================================================================== *)
(** ** In-process state and outbound events *)
(* ===================================================================== *)

(** [const sessions = { customers, agents, conversations }]. *)
Record Sessions := {
  customers : gmap string CustomerSession;
  agents : gmap string AgentSession;
  conversations : list (string * Conversation)
}.

(** The process state a handler can touch: [sessions], and the rooms each
    socket has joined with [socket.join]. *)
Record State := {
  sessions : Sessions;
  rooms : gmap string (gset string)
}.

Inductive Event :=
| ev_chat_updated (summaries : list Conversation)   (* 'chat:updated' *)
| ev_chat_joined (convId customerEmail : string)    (* 'chat:joined' *)
| ev_message_received (message : Message)           (* 'message:received' *)
| ev_error (reason : string).                       (* 'error' *)

Inductive Emit :=
| io_emit (e : Event)                      (* io.emit: every connected socket *)
| io_to_emit (room : string) (e : Event)   (* io.to(room).emit: the sockets in [room] *)
| socket_emit (socket : string) (e : Event). (* socket.emit: this socket only *)

#[global] Instance Event_eq_dec : EqDecision Event.
Proof. solve_decision. Defined.
#[global] Instance Emit_eq_dec : EqDecision Emit.
Proof. solve_decision. Defined.

(** The room name [`conv-${convId}`]. *)
Definition conv_room (convId : string) : string := String.append "conv-" convId.

Definition customers_set (socket : string) (c : CustomerSession) (st : State) : State :=
  {| sessions := {| customers := <[socket := c]> (customers (sessions st));
                    agents := agents (sessions st);
                    conversations := conversations (sessions st) |};
     rooms := rooms st |}.

Definition agents_set (socket : string) (a : AgentSession) (st : State) : State :=
  {| sessions := {| customers := customers (sessions st);
                    agents := <[socket := a]> (agents (sessions st));
                    conversations := conversations (sessions st) |};
     rooms := rooms st |}.

Definition with_conversations (m : list (string * Conversation)) (st : State) : State :=
  {| sessions := {| customers := customers (sessions st);
                    agents := agents (sessions st);
                    conversations := m |};
     rooms := rooms st |}.

(** [socket.join(room)].  The room is added whether or not the socket is
    still connected; for a handler resumed after its socket has closed this
    counts the socket in a room the transport no longer serves. *)
Definition socket_join (socket room : string) (st : State) : State :=
  {| sessions := sessions st;
     rooms := <[socket := {[room]} ∪ (rooms st !!! socket)]> (rooms st) |}.

(** [Array.from(sessions.conversations.values())]. *)
Definition snapshot (st : State) : list Conversation :=
  Map_values (conversations (sessions st)).

(** The sockets a room broadcast reaches. *)
Definition subscribed (st : State) (socket room : string) : Prop :=
  room ∈ (rooms st !!! socket : gset string).

(* ===================================================================== *)
(** ** Inbound events and suspended handlers *)
(* ===================================================================== *)

Record CustomerJoin := {
  cj_convId : string;
  cj_chatbotId : string;
  cj_userId : string;
  cj_customerEmail : string
}.

(** The payload of [message:send].  [ms_timestamp] is whatever the client
    put in the [timestamp] field, if anything. *)
Record MessageSend := {
  ms_convId : string;
  ms_chatbotId : string;
  ms_userId : string;
  ms_text : string;
  ms_sender : string;
  ms_timestamp : option string
}.

Inductive Inbound :=
| customer_join_ev (p : CustomerJoin)   (* 'customer:join' *)
| agent_join_ev (convId : string)       (* 'agent:join' *)
| message_send_ev (p : MessageSend)     (* 'message:send' *)
| disconnect_ev.                        (* 'disconnect' *)

(** A handler suspended at an [await], with the variables it still uses. *)
Inductive Frame :=
| customer_join_reading (socket convId chatbotId userId customerEmail : string)
| customer_join_creating (socket convId chatbotId customerEmail : string)
| agent_join_reading (socket convId : string)
| message_send_reading (socket convId chatbotId userId : string) (message : Message)
| message_send_writing (socket convId : string) (message : Message).

(** What one synchronous stretch of a handler leaves behind: the new state,
    the events emitted, and the request it awaits (if it has not returned). *)
Definition Outcome : Type := State * list Emit * option (Frame * Query).

(* ===================================================================== *)
(** ** [getConversationMessages] *)
(* ===================================================================== *)

(** The request is [Select convId]; this is the code after the [await]:
    [if (error) throw error;] then
    [data && data.length > 0 ? data[0].live_message : { messages: [] }]. *)
Definition getConversationMessages (r : Response) : Result LiveMessage :=
  match error r with
  | Some e => Throw e
  | None =>
      match data r with
      | Some (row :: _) => Ok row
      | _ => Ok (json_obj (Some []))
      end
  end.

(** [existingMessages.messages.length] *)
Definition messages_length (v : LiveMessage) : Result nat :=
  match v with
  | json_null => Throw (TypeError "Cannot read properties of null (reading 'messages')")
  | json_obj None => Throw (TypeError "Cannot read properties of undefined (reading 'length')")
  | json_obj (Some l) => Ok (length l)
  end.

(** [currentMessages.messages || []] *)
Definition messages_or_empty (v : LiveMessage) : Result (list Message) :=
  match v with
  | json_null => Throw (TypeError "Cannot read properties of null (reading 'messages')")
  | json_obj None => Ok []
  | json_obj (Some l) => Ok l
  end.

(* ===================================================================== *)
(** ** The connection handlers *)
(* ===================================================================== *)

(** *** customer:join *)

Definition customer_join_catch (socket : string) (st : State) : Outcome :=
  (st, [socket_emit socket (ev_error "Failed to join chat session")], None).

(** From [socket.join] to the end of the [try] block. *)
Definition customer_join_finish (socket convId customerEmail : string) (st : State)
  : Outcome :=
  let st := socket_join socket (conv_room convId) st in
  (st,
   [io_emit (ev_chat_updated (snapshot st));
    socket_emit socket (ev_chat_joined convId customerEmail)],
   None).

(** The row sent by the [upsert] of a new conversation. *)
Definition new_conversation_row (convId customerEmail chatbotId : string) (now : Z) : Row :=
  {| live_chat_id := convId;
     customer_name := Some customerEmail;
     chatbot_id := Some chatbotId;
     live_message := json_obj (Some []);
     user_id := None;
     created_at := Some (toISOString now) |}.

Definition customer_join (socket : string) (p : CustomerJoin) (st : State) : Outcome :=
  (st, [],
   Some (customer_join_reading socket (cj_convId p) (cj_chatbotId p) (cj_userId p)
           (cj_customerEmail p),
         Select (cj_convId p))).

(** Resumed with the answer to the read. *)
Definition customer_join_after_read
    (socket convId chatbotId userId customerEmail : string)
    (r : Response) (now : Z) (st : State) : Outcome :=
  match getConversationMessages r with
  | Throw _ => customer_join_catch socket st
  | Ok existingMessages =>
      match messages_length existingMessages with
      | Throw _ => customer_join_catch socket st
      | Ok len =>
          let isNewConversation := Nat.eqb len 0 in
          let st :=
            customers_set socket
              {| cs_convId := convId; cs_chatbotId := chatbotId;
                 cs_userId := userId; cs_customerEmail := customerEmail |} st in
          if isNewConversation
          then (st, [],
                Some (customer_join_creating socket convId chatbotId customerEmail,
                      Upsert (new_conversation_row convId customerEmail chatbotId now)))
          else customer_join_finish socket convId customerEmail st
      end
  end.

(** Resumed with the answer to the [upsert] of the new conversation. *)
Definition customer_join_after_create
    (socket convId chatbotId customerEmail : string)
    (r : Response) (now : Z) (st : State) : Outcome :=
  match error r with
  | Some _ => customer_join_catch socket st
  | None =>
      let st :=
        with_conversations
          (Map_set convId
             {| c_convId := convId; c_chatbotId := chatbotId;
                c_customerEmail := customerEmail; c_timestamp := now;
                c_lastMessage := None |}
             (conversations (sessions st))) st in
      customer_join_finish socket convId customerEmail st
  end.

(** *** agent:join *)

Definition agent_join (socket convId : string) (st : State) : Outcome :=
  (st, [], Some (agent_join_reading socket convId, Select convId)).

Definition agent_join_after_read (socket convId : string)
    (r : Response) (st : State) : Outcome :=
  match getConversationMessages r with
  | Throw _ => (st, [socket_emit socket (ev_error "Failed to join conversation")], None)
  | Ok _ =>
      let st := agents_set socket {| as_convId := convId |} st in
      (socket_join socket (conv_room convId) st, [], None)
  end.

(** *** message:send *)

Definition message_send_catch (socket : string) (st : State) : Outcome :=
  (st, [socket_emit socket (ev_error "Failed to send message")], None).

(** The destructured parameter [timestamp] is shadowed by
    [const timestamp = new Date().toISOString()] inside the [try] block. *)
Definition new_message (p : MessageSend) (now : Z) : Message :=
  let timestamp := toISOString now in
  {| msg_text := ms_text p; msg_sender := ms_sender p;
     msg_timestamp := timestamp; msg_convId := ms_convId p |}.

Definition message_send (socket : string) (p : MessageSend) (now : Z) (st : State)
  : Outcome :=
  let message := new_message p now in
  (st, [],
   Some (message_send_reading socket (ms_convId p) (ms_chatbotId p) (ms_userId p) message,
         Select (ms_convId p))).

(** The row sent by the [upsert] of [message:send]. *)
Definition updated_row (convId chatbotId userId : string) (updatedMessages : LiveMessage)
  : Row :=
  {| live_chat_id := convId;
     live_message := updatedMessages;
     chatbot_id := Some chatbotId;
     user_id := Some userId;
     customer_name := None;
     created_at := None |}.

Definition message_send_after_read
    (socket convId chatbotId userId : string) (message : Message)
    (r : Response) (st : State) : Outcome :=
  match getConversationMessages r with
  | Throw _ => message_send_catch socket st
  | Ok currentMessages =>
      match messages_or_empty currentMessages with
      | Throw _ => message_send_catch socket st
      | Ok current =>
          let updatedMessages := json_obj (Some (current ++ [message])) in
          (st, [],
           Some (message_send_writing socket convId message,
                 Upsert (updated_row convId chatbotId userId updatedMessages)))
      end
  end.

(** [conversation.lastMessage = message; conversation.timestamp = new Date()]
    on the object held by the [Map]: the entry changes in place. *)
Definition touch (convId : string) (message : Message) (now : Z) (conversation : Conversation)
    (m : list (string * Conversation)) : list (string * Conversation) :=
  Map_set convId
    {| c_convId := c_convId conversation;
       c_chatbotId := c_chatbotId conversation;
       c_customerEmail := c_customerEmail conversation;
       c_timestamp := now;
       c_lastMessage := Some message |} m.

Definition message_send_after_write (socket convId : string) (message : Message)
    (r : Response) (now : Z) (st : State) : Outcome :=
  match error r with
  | Some _ => message_send_catch socket st
  | None =>
      let received := io_to_emit (conv_room convId) (ev_message_received message) in
      match Map_get convId (conversations (sessions st)) with
      | Some conversation =>
          let st :=
            with_conversations
              (touch convId message now conversation (conversations (sessions st))) st in
          (st, [received; io_emit (ev_chat_updated (snapshot st))], None)
      | None => (st, [received], None)
      end
  end.

(** *** disconnect *)

Definition disconnect (socket : string) (st : State) : Outcome :=
  let customerData := customers (sessions st) !! socket in
  let agentData := agents (sessions st) !! socket in
  let customers1 :=
    match customerData with
    | Some _ => delete socket (customers (sessions st))
    | None => customers (sessions st)
    end in
  let agents1 :=
    match agentData with
    | Some _ => delete socket (agents (sessions st))
    | None => agents (sessions st)
    end in
  ({| sessions := {| customers := customers1; agents := agents1;
                     conversations := conversations (sessions st) |};
      rooms := rooms st |}, [], None).

(** [lookup(connectionId)]: the two session records of a connection. *)
Definition lookup_sessions (socket : string) (st : State)
  : option CustomerSession * option AgentSession :=
  (customers (sessions st) !! socket, agents (sessions st) !! socket).

(* ===================================================================== *)
(** ** The eviction timer *)
(* ===================================================================== *)

(** The [for ... of] loop over the entries, deleting as it goes. *)
Definition evict_loop (oneHourAgo : Z) (entries m : list (string * Conversation))
  : list (string * Conversation) :=
  foldl (λ m e, if bool_decide (c_timestamp e.2 < oneHourAgo)
                then Map_delete e.1 m else m)
        m entries.

Definition evict_inactive (now : Z) (st : State) : State * list Emit :=
  let oneHourAgo := now - 60 * 60 * 1000 in
  let m := conversations (sessions st) in
  let st := with_conversations (evict_loop oneHourAgo m m) st in
  (st, [io_emit (ev_chat_updated (snapshot st))]).

(* ===================================================================== *)
(** ** The running server *)
(* ===================================================================== *)

(** A handler waiting at an [await]: its frame, the request it sent and, once
    the database has performed it, the reply not yet consumed. *)
Record Pending := {
  frame : Frame;
  query : Query;
  response : option Response
}.

(** What an observer of the process sees, in order. *)
Inductive Action :=
| emitted (e : Emit)                          (* an event left the server *)
| performed (q : Query) (err : option Error). (* the database performed a request *)

Record System := {
  state : State;
  table : list Row;
  pending : list Pending;
  trace : list Action
}.

Inductive Label :=
| Deliver (socket : string) (ev : Inbound) (now : Z)  (* an inbound event reaches its handler *)
| Answer (i : nat) (fault : option Error)             (* the database performs pending request [i] *)
| Resume (i : nat) (now : Z)                          (* the answered handler [i] runs on *)
| Sweep (now : Z).                                    (* the [setInterval] callback fires *)

(** The code following each [await]. *)
Definition resume (f : Frame) (r : Response) (now : Z) (st : State) : Outcome :=
  match f with
  | customer_join_reading socket convId chatbotId userId customerEmail =>
      customer_join_after_read socket convId chatbotId userId customerEmail r now st
  | customer_join_creating socket convId chatbotId customerEmail =>
      customer_join_after_create socket convId chatbotId customerEmail r now st
  | agent_join_reading socket convId =>
      agent_join_after_read socket convId r st
  | message_send_reading socket convId chatbotId userId message =>
      message_send_after_read socket convId chatbotId userId message r st
  | message_send_writing socket convId message =>
      message_send_after_write socket convId message r now st
  end.

(** The listener registered for each inbound event. *)
Definition handler (socket : string) (ev : Inbound) (now : Z) (st : State) : Outcome :=
  match ev with
  | customer_join_ev p => customer_join socket p st
  | agent_join_ev convId => agent_join socket convId st
  | message_send_ev p => message_send socket p now st
  | disconnect_ev => disconnect socket st
  end.

Definition suspend (next : Frame * Query) : Pending :=
  {| frame := next.1; query := next.2; response := None |}.

(** The transport drops a closed socket from every room. *)
Definition leave_rooms (socket : string) (ev : Inbound) (st : State) : State :=
  match ev with
  | disconnect_ev => {| sessions := sessions st; rooms := delete socket (rooms st) |}
  | _ => st
  end.

Definition step (sys : System) (l : Label) : System :=
  match l with
  | Deliver socket ev now =>
      let '(st, out, next) := handler socket ev now (leave_rooms socket ev (state sys)) in
      {| state := st;
         table := table sys;
         pending := pending sys ++ option_list (suspend <$> next);
         trace := trace sys ++ (emitted <$> out) |}
  | Answer i fault =>
      match pending sys !! i with
      | Some {| frame := f; query := q; response := None |} =>
          let '(table', r) := run_query q fault (table sys) in
          {| state := state sys;
             table := table';
             pending := <[i := {| frame := f; query := q; response := Some r |}]> (pending sys);
             trace := trace sys ++ [performed q (error r)] |}
      | _ => sys
      end
  | Resume i now =>
      match pending sys !! i with
      | Some {| frame := f; response := Some r |} =>
          let '(st, out, next) := resume f r now (state sys) in
          {| state := st;
             table := table sys;
             pending := match next with
                        | Some n => <[i := suspend n]> (pending sys)
                        | None => delete i (pending sys)
                        end;
             trace := trace sys ++ (emitted <$> out) |}
      | _ => sys
      end
  | Sweep now =>
      let '(st, out) := evict_inactive now (state sys) in
      {| state := st;
         table := table sys;
         pending := pending sys;
         trace := trace sys ++ (emitted <$> out) |}
  end.

Definition exec (sys : System) (ls : list Label) : System := foldl step sys ls.

(** One event handled from start to finish with nothing else in between:
    the handler is delivered behind the [n] handlers already waiting, and its
    (at most two) requests are answered and resumed at once. *)
Definition handle (n : nat) (socket : string) (ev : Inbound)
    (now0 : Z) (fault1 : option Error) (now1 : Z) (fault2 : option Error) (now2 : Z)
  : list Label :=
  [Deliver socket ev now0; Answer n fault1; Resume n now1; Answer n fault2; Resume n now2].

(** The server as it starts: empty maps, no room joined, nothing pending
    ([loadActiveConversations] is not called). *)
Definition initial_state : State :=
  {| sessions := {| customers := ∅; agents := ∅; conversations := [] |};
     rooms := ∅ |}.

Definition boot (table : list Row) : System :=
  {| state := initial_state; table := table; pending := []; trace := [] |}.

(** The events emitted, and the rows written successfully, along a trace. *)
Definition emits (tr : list Action) : list Emit :=
  omap (λ a, match a with emitted e => Some e | _ => None end) tr.

Definition writes (tr : list Action) : list Row :=
  omap (λ a, match a with performed (Upsert row) None => Some row | _ => None end) tr.

(** A write that creates a conversation: the [upsert] of [customer:join],
    which carries the empty log and [created_at]. *)
Definition is_create (convId : string) (row : Row) : bool :=
  bool_decide (live_chat_id row = convId
               ∧ live_message row = json_obj (Some [])
               ∧ created_at row ≠ None).

Definition creates (convId : string) (tr : list Action) : list Row :=
  filter (λ row, is_create convId row = true) (writes tr).

(* ===================================================================== *)
(** ** Predicates used by the properties *)
(* ===================================================================== *)

(** Every entry of [sessions.conversations] sits under its own [convId], and
    no key occurs twice. *)
Definition index_ok (m : list (string * Conversation)) : Prop :=
  Map_wf m ∧ ∀ k conv, (k, conv) ∈ m → c_convId conv = k.

(** The conversation index of a running server. *)
Definition index (sys : System) : list (string * Conversation) :=
  conversations (sessions (state sys)).

(** Who gets an emitted event. *)
Definition receives (st : State) (socket : string) (e : Emit) : Prop :=
  match e with
  | io_emit _ => True
  | io_to_emit room _ => subscribed st socket room
  | socket_emit s _ => s = socket
  end.

(** One [message:send] of a sequence, with the clock readings of its three
    stretches and the failures (if any) of its read and of its write. *)
Record SendRun := {
  sr_payload : MessageSend;
  sr_now0 : Z;
  sr_fault1 : option Error;
  sr_now1 : Z;
  sr_fault2 : option Error;
  sr_now2 : Z
}.

(** The handling of one such send, start to finish. *)
Definition send_labels (n : nat) (socket : string) (r : SendRun) : list Label :=
  handle n socket (message_send_ev (sr_payload r))
    (sr_now0 r) (sr_fault1 r) (sr_now1 r) (sr_fault2 r) (sr_now2 r).

(** The sends issued one after the other, each after the previous one has
    been handled to its end. *)
Definition send_sequence (n : nat) (socket : string) (runs : list SendRun) : list Label :=
  concat (send_labels n socket <$> runs).

(** The send whose read and write both succeed. *)
Definition stored (r : SendRun) : Prop := sr_fault1 r = None ∧ sr_fault2 r = None.

#[global] Instance stored_dec r : Decision (stored r).
Proof. unfold stored. apply _. Defined.

(** The message that send builds. *)
Definition sent_message (r : SendRun) : Message := new_message (sr_payload r) (sr_now0 r).

(** The payload with another client-supplied [timestamp]. *)
Definition with_timestamp (ts : option string) (p : MessageSend) : MessageSend :=
  {| ms_convId := ms_convId p; ms_chatbotId := ms_chatbotId p; ms_userId := ms_userId p;
     ms_text := ms_text p; ms_sender := ms_sender p; ms_timestamp := ts |}.


(** The reply makes [customer:join] see a new conversation:
    [getConversationMessages] returns a log of length 0. *)
Definition reads_empty (r : Response) : Prop :=
  ∃ v, getConversationMessages r = Ok v ∧ messages_length v = Ok 0%nat.

(** The request each suspended frame has sent. *)
Definition pending_ok (p : Pending) : Prop :=
  match frame p with
  | customer_join_reading _ convId _ _ _ => query p = Select convId
  | agent_join_reading _ convId => query p = Select convId
  | message_send_reading _ convId _ _ _ => query p = Select convId
  | customer_join_creating _ convId chatbotId customerEmail =>
      ∃ now, query p = Upsert (new_conversation_row convId customerEmail chatbotId now)
  | message_send_writing _ convId message =>
      ∃ chatbotId userId current,
        query p = Upsert (updated_row convId chatbotId userId
                            (json_obj (Some (current ++ [message]))))
  end.


(** A [customer:join] for [convId] that has read an empty log and is on its
    way to insert the conversation into the index. *)
Definition about_to_insert (convId : string) (p : Pending) : Prop :=
  match frame p with
  | customer_join_reading _ c _ _ _ => c = convId ∧ ∃ r, response p = Some r ∧ reads_empty r
  | customer_join_creating _ c _ _ => c = convId
  | _ => False
  end.


(* ===================================================================== *)
(** ** Sample payloads and servers *)
(* ===================================================================== *)

Definition join_c1 : CustomerJoin :=
  {| cj_convId := "c1"; cj_chatbotId := "bot"; cj_userId := "u1";
     cj_customerEmail := "e@x" |}.

Definition hello : MessageSend :=
  {| ms_convId := "c1"; ms_chatbotId := "bot"; ms_userId := "u1";
     ms_text := "hello"; ms_sender := "customer"; ms_timestamp := None |}.

Definition hello_again : MessageSend :=
  {| ms_convId := "c1"; ms_chatbotId := "bot"; ms_userId := "u1";
     ms_text := "are you there?"; ms_sender := "customer"; ms_timestamp := None |}.

Definition two_sends : list SendRun :=
  [{| sr_payload := hello; sr_now0 := 30; sr_fault1 := None; sr_now1 := 31;
      sr_fault2 := None; sr_now2 := 32 |};
   {| sr_payload := hello_again; sr_now0 := 40; sr_fault1 := None; sr_now1 := 41;
      sr_fault2 := None; sr_now2 := 42 |}].

(** An index with an entry two hours old and one thirty minutes old at
    clock reading 10000000. *)
Definition stale_and_fresh : System :=
  {| state :=
       with_conversations
         [("old", {| c_convId := "old"; c_chatbotId := "bot"; c_customerEmail := "o@x";
                     c_timestamp := 10000000 - 2 * 3600000; c_lastMessage := None |});
          ("new", {| c_convId := "new"; c_chatbotId := "bot"; c_customerEmail := "n@x";
                     c_timestamp := 10000000 - 30 * 60000; c_lastMessage := None |})]
         initial_state;
     table := []; pending := []; trace := [] |}.

(** Socket ["s"] has joined ["c1"] as customer and as agent. *)
Definition both_roles : System :=
  exec (boot [])
       (handle 0 "s" (customer_join_ev join_c1) 10 None 11 None 12
        ++ handle 0 "s" (agent_join_ev "c1") 20 None 21 None 22).

(** A table in which ["c1"] already has one message. *)
Definition table_with_history : list Row :=
  [{| live_chat_id := "c1";
      live_message := json_obj (Some [new_message hello 30]);
      customer_name := Some "e@x"; chatbot_id := Some "bot"; user_id := Some "u1";
      created_at := Some (toISOString 11) |}].

(* ===================================================================== *)
(** ** [loadActiveConversations] *)
(* ===================================================================== *)

(** [{ data, error }] of [select('*')]: whole rows. *)
Record RowsResponse := {
  rows_data : option (list Row);
  rows_error : option Error
}.

(** The entries [loadActiveConversations] builds: [customerName] instead of
    [customerEmail], and the stored [created_at] as [timestamp]. *)
Record LoadedConversation := {
  lc_convId : string;
  lc_chatbotId : option string;
  lc_customerName : option string;
  lc_timestamp : option IsoString;
  lc_lastMessage : option Message
}.

(** [conv.live_message?.messages?.slice(-1)[0] || null] *)
Definition last_message (v : LiveMessage) : option Message :=
  match v with
  | json_obj (Some l) => last l
  | _ => None
  end.

Definition loaded_of_row (conv : Row) : LoadedConversation :=
  {| lc_convId := live_chat_id conv;
     lc_chatbotId := chatbot_id conv;
     lc_customerName := customer_name conv;
     lc_timestamp := created_at conv;
     lc_lastMessage := last_message (live_message conv) |}.

(** [loadActiveConversations], the code after the [await] of
    [select('*').order('created_at', { ascending: false }).limit(100)], on a
    [Map] of entries of its own making.  An [error], or [data] being [null]
    ([data.forEach] throws), ends in the [catch], which only logs.  The
    server defines this function and does not call it. *)
Definition loadActiveConversations (r : RowsResponse)
    (m : list (string * LoadedConversation)) : list (string * LoadedConversation) :=
  match rows_error r with
  | Some _ => m
  | None =>
      match rows_data r with
      | None => m
      | Some rows =>
          foldl (λ m conv, Map_set (live_chat_id conv) (loaded_of_row conv) m) m rows
      end
  end.

(** The session [customer:join] stores for its payload. *)
Definition session_of (p : CustomerJoin) : CustomerSession :=
  {| cs_convId := cj_convId p; cs_chatbotId := cj_chatbotId p;
     cs_userId := cj_userId p; cs_customerEmail := cj_customerEmail p |}.

(** One turn of a server that handles its events one at a time: an event
    handled from start to finish, or a sweep. *)
Inductive Turn :=
| turn_event (socket : string) (ev : Inbound)
    (now0 : Z) (fault1 : option Error) (now1 : Z) (fault2 : option Error) (now2 : Z)
| turn_sweep (now : Z).

Definition turn_labels (t : Turn) : list Label :=
  match t with
  | turn_event socket ev now0 fault1 now1 fault2 now2 =>
      handle 0 socket ev now0 fault1 now1 fault2 now2
  | turn_sweep now => [Sweep now]
  end.

(** A schedule without interleaving, run on a server with nothing waiting. *)
Definition sequential (ts : list Turn) : list Label := concat (turn_labels <$> ts).

(** The [lastMessage] of every index entry is the last message of the stored
    log of its conversation. *)
Definition last_agrees (idx : list (string * Conversation)) (tb : list Row) : Prop :=
  ∀ convId conv m,
    Map_get convId idx = Some conv →
    c_lastMessage conv = Some m →
    ∃ current, stored_log convId tb = Some (json_obj (Some (current ++ [m]))).

(** Two [message:send] for one conversation whose handlings overlap: the
    first reads, then the second is handled from start to finish, then the
    write of the first is performed and the first runs on. *)
Definition overlapping_sends (n : nat) (socket1 socket2 : string) (p1 p2 : MessageSend)
    (t1 t1' t1'' t2 t2' t2'' : Z) : list Label :=
  [Deliver socket1 (message_send_ev p1) t1; Answer n None; Resume n t1']
  ++ handle (S n) socket2 (message_send_ev p2) t2 None t2' None t2''
  ++ [Answer n None; Resume n t1''].

(** A [customer:join] that has read an empty log, overlapped by a whole
    [message:send] for the same conversation before its [upsert] is
    performed. *)
Definition join_overlapping_send (n : nat) (socketj sockets : string)
    (j : CustomerJoin) (p : MessageSend) (tj tj' tj'' ts ts' ts'' : Z) : list Label :=
  [Deliver socketj (customer_join_ev j) tj; Answer n None; Resume n tj']
  ++ handle (S n) sockets (message_send_ev p) ts None ts' None ts''
  ++ [Answer n None; Resume n tj''].

(** A socket disconnects while its [customer:join] waits for the read; the
    read is then answered and the handler runs on. *)
Definition join_across_disconnect (n : nat) (socket : string) (p : CustomerJoin)
    (t td t' : Z) : list Label :=
  [Deliver socket (customer_join_ev p) t; Deliver socket disconnect_ev td;
   Answer n None; Resume n t'].

(** Every successful write a waiting handler has been answered with is in
    the trace. *)
Definition answered_writes_logged (sys : System) : Prop :=
  ∀ p r row,
    p ∈ pending sys → response p = Some r → error r = None → query p = Upsert row →
    row ∈ writes (trace sys).

(** The message a [message:send] frame carries belongs to the conversation
    of the frame. *)
Definition frame_message_ok (p : Pending) : Prop :=
  match frame p with
  | message_send_reading _ convId _ _ message => msg_convId message = convId
  | message_send_writing _ convId message => msg_convId message = convId
  | _ => True
  end.

(** Every [message:received] in the trace went to the room of the
    conversation of its message, after a successful write of a log that
    ends with that message. *)
Definition received_after_write (tr : list Action) : Prop :=
  ∀ e message,
    e ∈ emits tr →
    (e = io_emit (ev_message_received message)
     ∨ (∃ room, e = io_to_emit room (ev_message_received message))
     ∨ (∃ s, e = socket_emit s (ev_message_received message))) →
    e = io_to_emit (conv_room (msg_convId message)) (ev_message_received message)
    ∧ ∃ row current,
        row ∈ writes tr
        ∧ live_chat_id row = msg_convId message
        ∧ live_message row = json_obj (Some (current ++ [message])).

(** The four facts that hold together along every schedule. *)
Definition logged (sys : System) : Prop :=
  Forall pending_ok (pending sys)
  ∧ Forall frame_message_ok (pending sys)
  ∧ answered_writes_logged sys
  ∧ received_after_write (trace sys).

(** The label delivers a [customer:join] or an [agent:join] of [socket] for
    [convId]. *)
Definition asks_to_join (socket convId : string) (l : Label) : Prop :=
  match l with
  | Deliver s (customer_join_ev p) _ => s = socket ∧ cj_convId p = convId
  | Deliver s (agent_join_ev c) _ => s = socket ∧ c = convId
  | _ => False
  end.

(** The socket has sent a join for the conversation somewhere in [ls]. *)
Definition joined (socket convId : string) (ls : list Label) : Prop :=
  Exists (asks_to_join socket convId) ls.

(** A waiting join handler stems from a join delivered in [ls]. *)
Definition frame_joined (ls : list Label) (p : Pending) : Prop :=
  match frame p with
  | customer_join_reading s c _ _ _ => joined s c ls
  | customer_join_creating s c _ _ => joined s c ls
  | agent_join_reading s c => joined s c ls
  | _ => True
  end.

(** Every room a socket is in is the room of a conversation it asked to
    join, and so will be the rooms the waiting handlers are going to add. *)
Definition rooms_from_joins (ls : list Label) (sys : System) : Prop :=
  (∀ s room, subscribed (state sys) s room → ∃ c, room = conv_room c ∧ joined s c ls)
  ∧ Forall (frame_joined ls) (pending sys).

(** The server with other session records and room memberships. *)
Definition with_registry (cs : gmap string CustomerSession) (ags : gmap string AgentSession)
    (rms : gmap string (gset string)) (sys : System) : System :=
  {| state := {| sessions := {| customers := cs; agents := ags;
                                 conversations := conversations (sessions (state sys)) |};
                 rooms := rms |};
     table := table sys; pending := pending sys; trace := trace sys |}.

(** The events the server sends and whom it addresses them to. *)
Definition well_addressed (e : Emit) : Prop :=
  match e with
  | io_emit (ev_chat_updated _) => True
  | socket_emit _ (ev_chat_joined _ _) => True
  | io_to_emit room (ev_message_received _) => ∃ convId, room = conv_room convId
  | socket_emit _ (ev_error reason) =>
      reason = "Failed to join chat session"
      ∨ reason = "Failed to join conversation"
      ∨ reason = "Failed to send message"
  | _ => False
  end.

(** The socket has sent, somewhere in [ls], a [customer:join] whose payload
    gives the session, resp. an [agent:join] for the conversation. *)
Definition sent_customer_join (socket : string) (sess : CustomerSession) (ls : list Label)
  : Prop :=
  ∃ p now, Deliver socket (customer_join_ev p) now ∈ ls ∧ sess = session_of p.

Definition sent_agent_join (socket convId : string) (ls : list Label) : Prop :=
  ∃ now, Deliver socket (agent_join_ev convId) now ∈ ls.

(** A waiting join handler carries what its socket sent. *)
Definition frame_sent (ls : list Label) (p : Pending) : Prop :=
  match frame p with
  | customer_join_reading s c cb u ce =>
      sent_customer_join s {| cs_convId := c; cs_chatbotId := cb; cs_userId := u;
                              cs_customerEmail := ce |} ls
  | agent_join_reading s c => sent_agent_join s c ls
  | _ => True
  end.

Definition registry_from_joins (ls : list Label) (sys : System) : Prop :=
  (∀ s sess, customers (sessions (state sys)) !! s = Some sess → sent_customer_join s sess ls)
  ∧ (∀ s a, agents (sessions (state sys)) !! s = Some a → sent_agent_join s (as_convId a) ls)
  ∧ Forall (frame_sent ls) (pending sys).

(* ===================================================================== *)
(** ** Schedules and predicates used by the further properties *)
(* ===================================================================== *)

(** The label delivers a [customer:join] for [convId]. *)
Definition delivers_join (convId : string) (l : Label) : bool :=
  match l with
  | Deliver _ (customer_join_ev p) _ => bool_decide (cj_convId p = convId)
  | _ => false
  end.

(** How many [customer:join] for [convId] the schedule delivers. *)
Definition joins_delivered (convId : string) (ls : list Label) : nat :=
  length (filter (λ l, delivers_join convId l = true) ls).

(** 1 for a waiting [customer:join] for [convId] whose creating [upsert] has
    not been performed yet, 0 for any other waiting handler. *)
Definition may_create (convId : string) (p : Pending) : nat :=
  match frame p, response p with
  | customer_join_reading _ c _ _ _, _ => if decide (c = convId) then 1 else 0
  | customer_join_creating _ c _ _, None => if decide (c = convId) then 1 else 0
  | _, _ => 0
  end.

(** The creating writes performed and those that may still come do not
    outnumber the joins delivered. *)
Definition creates_bounded (convId : string) (ls : list Label) (sys : System) : Prop :=
  Forall pending_ok (pending sys)
  ∧ (length (creates convId (trace sys)) + sum_list_with (may_create convId) (pending sys)
     ≤ joins_delivered convId ls)%nat.

(** The creating writes one [customer:join] performs when handled from
    start to finish: one, when its read succeeds with an empty log and its
    [upsert] succeeds; none otherwise. *)
Definition created_by_join (p : CustomerJoin) (fault1 : option Error) (now1 : Z)
    (fault2 : option Error) (tb : list Row) : list Row :=
  match fault1, messages_length (read_log (cj_convId p) tb), fault2 with
  | None, Ok O, None =>
      [new_conversation_row (cj_convId p) (cj_customerEmail p) (cj_chatbotId p) now1]
  | _, _, _ => []
  end.

(** The label delivers an event that writes to the row of [convId]: a
    [customer:join] or a [message:send] carrying that id. *)
Definition writes_to (convId : string) (l : Label) : Prop :=
  match l with
  | Deliver _ (customer_join_ev p) _ => cj_convId p = convId
  | Deliver _ (message_send_ev p) _ => ms_convId p = convId
  | _ => False
  end.

(** A waiting handler that will not write to the row of [convId]: it is not
    a [customer:join] or [message:send] for it, and the request it has sent
    is no [upsert] of it. *)
Definition keeps_off (convId : string) (p : Pending) : Prop :=
  match frame p with
  | customer_join_reading _ c _ _ _ => c ≠ convId
  | customer_join_creating _ c _ _ => c ≠ convId
  | message_send_reading _ c _ _ _ => c ≠ convId
  | message_send_writing _ c _ => c ≠ convId
  | agent_join_reading _ _ => True
  end
  ∧ ∀ row, query p = Upsert row → live_chat_id row ≠ convId.

(* ===================================================================== *)
(** ** Further sample data *)
(* ===================================================================== *)

Definition table_without_messages : list Row :=
  [{| live_chat_id := "c1"; live_message := json_obj None;
      customer_name := None; chatbot_id := None; user_id := None; created_at := None |}].

Definition join_c2 : CustomerJoin :=
  {| cj_convId := "c2"; cj_chatbotId := "bot"; cj_userId := "u1";
     cj_customerEmail := "e@x" |}.

Definition two_rows : list Row :=
  [{| live_chat_id := "c1"; live_message := json_obj (Some [new_message hello 30]);
      customer_name := Some "e@x"; chatbot_id := Some "bot"; user_id := Some "u1";
      created_at := Some (toISOString 11) |};
   {| live_chat_id := "c2"; live_message := json_null;
      customer_name := None; chatbot_id := None; user_id := None; created_at := None |}].

(* ===================================================================== *)
(** ** Facts about the [Map] model *)
(* ===================================================================== *)

Section JsMapFacts.
Context {V : Type}.
Implicit Types (m : list (string * V)) (k : string) (v : V).

Lemma Map_get_set_eq k v m : Map_get k (Map_set k v m) = Some v.
Proof.
  induction m as [|[k' v'] m IH]; simpl.
  - by rewrite decide_True.
  - destruct (decide (k' = k)) as [->|Hne]; simpl.
    + by rewrite decide_True.
    + by rewrite decide_False.
Qed.

Lemma Map_get_set_ne k k' v m : k ≠ k' → Map_get k' (Map_set k v m) = Map_get k' m.
Proof.
  intros Hne. induction m as [|[k0 v0] m IH]; simpl.
  - by rewrite decide_False.
  - destruct (decide (k0 = k)) as [->|Hk]; simpl.
    + by rewrite !decide_False.
    + by rewrite IH.
Qed.

Lemma Map_get_None k m : Map_get k m = None ↔ k ∉ Map_keys m.
Proof.
  unfold Map_keys. induction m as [|[k' v'] m IH]; simpl.
  - split; [intros _; apply not_elem_of_nil | done].
  - rewrite not_elem_of_cons. destruct (decide (k' = k)) as [->|Hne].
    + split; [done | intros [? _]; done].
    + rewrite IH. split; [intros ?; split; [congruence | done] | by intros [_ ?]].
Qed.

Lemma Map_get_is_Some k m : is_Some (Map_get k m) ↔ k ∈ Map_keys m.
Proof.
  destruct (Map_get k m) eqn:E.
  - split; [intros _ | by eauto].
    destruct (decide (k ∈ Map_keys m)) as [|Hn]; [done|].
    apply Map_get_None in Hn. congruence.
  - split; [by intros [? ?] | intros Hin]. by apply Map_get_None in E.
Qed.

Lemma Map_get_elem k v m : Map_get k m = Some v → (k, v) ∈ m.
Proof.
  induction m as [|[k' v'] m IH]; simpl; [done|].
  destruct (decide (k' = k)) as [->|Hne].
  - intros [= ->]. apply list_elem_of_here.
  - intros H. apply list_elem_of_further. by apply IH.
Qed.

Lemma Map_elem_get k v m : Map_wf m → (k, v) ∈ m → Map_get k m = Some v.
Proof.
  unfold Map_wf, Map_keys. induction m as [|[k' v'] m IH]; simpl.
  - intros _ H. by apply elem_of_nil in H.
  - intros Hnd Hin. apply NoDup_cons in Hnd as [Hk Hnd].
    apply elem_of_cons in Hin as [[= -> ->]|Hin].
    + by rewrite decide_True.
    + rewrite decide_False; [by apply IH|].
      intros ->. apply Hk. apply list_elem_of_fmap. by exists (k, v).
Qed.

Lemma Map_keys_set_present k v m :
  k ∈ Map_keys m → Map_keys (Map_set k v m) = Map_keys m.
Proof.
  unfold Map_keys. induction m as [|[k' v'] m IH]; simpl.
  - intros H. by apply elem_of_nil in H.
  - intros Hin. destruct (decide (k' = k)) as [->|Hne]; simpl; [done|].
    f_equal. apply IH. apply elem_of_cons in Hin as [?|?]; [congruence | done].
Qed.

Lemma Map_keys_set_fresh k v m :
  k ∉ Map_keys m → Map_keys (Map_set k v m) = Map_keys m ++ [k].
Proof.
  unfold Map_keys. induction m as [|[k' v'] m IH]; simpl; [done|].
  intros Hin. apply not_elem_of_cons in Hin as [Hne Hin].
  rewrite decide_False by congruence. simpl. f_equal. by apply IH.
Qed.

Lemma Map_keys_set_elem k k' v m :
  k' ∈ Map_keys (Map_set k v m) ↔ k' = k ∨ k' ∈ Map_keys m.
Proof.
  destruct (decide (k ∈ Map_keys m)) as [Hin|Hin].
  - rewrite Map_keys_set_present by done. split; [by right | intros [->|?]; done].
  - rewrite Map_keys_set_fresh by done. rewrite elem_of_app, list_elem_of_singleton.
    tauto.
Qed.

Lemma Map_set_wf k v m : Map_wf m → Map_wf (Map_set k v m).
Proof.
  unfold Map_wf. intros Hwf. destruct (decide (k ∈ Map_keys m)) as [Hin|Hin].
  - by rewrite Map_keys_set_present.
  - rewrite Map_keys_set_fresh by done. apply NoDup_app. split; [done|].
    split; [|apply NoDup_singleton].
    intros x Hx Hx'. apply list_elem_of_singleton in Hx' as ->. done.
Qed.

Lemma Map_set_elem_wf k v e m :
  Map_wf m → e ∈ Map_set k v m → e = (k, v) ∨ (e ∈ m ∧ e.1 ≠ k).
Proof.
  unfold Map_wf, Map_keys. induction m as [|[k' v'] m IH]; simpl.
  - intros _ H. apply list_elem_of_singleton in H. by left.
  - intros Hnd. apply NoDup_cons in Hnd as [Hk Hnd].
    destruct (decide (k' = k)) as [->|Hne].
    + intros H. apply elem_of_cons in H as [->|H]; [by left|].
      right. split; [by apply list_elem_of_further|].
      intros He. apply Hk. apply list_elem_of_fmap. by exists e.
    + intros H. apply elem_of_cons in H as [->|H].
      * right. split; [apply list_elem_of_here | done].
      * destruct (IH Hnd H) as [->|[? ?]]; [by left|].
        right. split; [by apply list_elem_of_further | done].
Qed.

Lemma Map_keys_delete k m : Map_keys (Map_delete k m) = filter (λ x, x ≠ k) (Map_keys m).
Proof.
  unfold Map_keys, Map_delete. induction m as [|[k' v'] m IH]; [done|].
  rewrite fmap_cons, !filter_cons. cbn [fst].
  destruct (decide (k' ≠ k)); [rewrite fmap_cons; cbn [fst]; f_equal|]; exact IH.
Qed.

Lemma Map_keys_filter_sub (P : string * V → Prop) `{!∀ e, Decision (P e)} m k :
  k ∈ Map_keys (filter P m) → k ∈ Map_keys m.
Proof.
  unfold Map_keys. intros Hin. apply list_elem_of_fmap in Hin as [e [-> He]].
  apply list_elem_of_filter in He as [_ He]. apply list_elem_of_fmap. by exists e.
Qed.

Lemma Map_filter_wf (P : string * V → Prop) `{!∀ e, Decision (P e)} m :
  Map_wf m → Map_wf (filter P m).
Proof.
  unfold Map_wf, Map_keys. induction m as [|e m IH]; simpl; [done|].
  intros Hnd. apply NoDup_cons in Hnd as [Hk Hnd]. rewrite filter_cons.
  destruct (decide (P e)); [|by apply IH].
  simpl. apply NoDup_cons. split; [|by apply IH].
  intros Hin. apply Hk. by apply (Map_keys_filter_sub P) in Hin.
Qed.
End JsMapFacts.

(* ===================================================================== *)
(** ** Facts about [filter] *)
(* ===================================================================== *)

Lemma filter_agree {A} (P Q : A → Prop) `{!∀ x, Decision (P x), !∀ x, Decision (Q x)}
    (l : list A) :
  (∀ x, x ∈ l → (P x ↔ Q x)) → filter P l = filter Q l.
Proof.
  induction l as [|a l IH]; intros Hiff; [done|].
  rewrite !filter_cons. rewrite IH.
  - apply decide_ext. apply Hiff, list_elem_of_here.
  - intros x Hx. apply Hiff. by apply list_elem_of_further.
Qed.

Lemma filter_all {A} (P : A → Prop) `{!∀ x, Decision (P x)} (l : list A) :
  (∀ x, x ∈ l → P x) → filter P l = l.
Proof.
  induction l as [|a l IH]; intros Hall; [done|].
  rewrite filter_cons_True by apply Hall, list_elem_of_here.
  f_equal. apply IH. intros x Hx. by apply Hall, list_elem_of_further.
Qed.

Lemma filter_none {A} (P : A → Prop) `{!∀ x, Decision (P x)} (l : list A) :
  (∀ x, x ∈ l → ¬ P x) → filter P l = [].
Proof.
  induction l as [|a l IH]; intros Hall; [done|].
  rewrite filter_cons_False by apply Hall, list_elem_of_here.
  apply IH. intros x Hx. by apply Hall, list_elem_of_further.
Qed.

(** The eviction loop keeps exactly the entries that are not older than the
    threshold. *)
Lemma evict_loop_filter oneHourAgo (entries m : list (string * Conversation)) :
  evict_loop oneHourAgo entries m
  = filter (λ e, e.1 ∉ Map_keys (filter (λ e', c_timestamp e'.2 < oneHourAgo) entries)) m.
Proof.
  unfold evict_loop. revert m. induction entries as [|e entries IH]; intros m; simpl.
  - symmetry. apply filter_all. intros x _. apply not_elem_of_nil.
  - rewrite IH. rewrite filter_cons. case_bool_decide as Hold.
    + rewrite decide_True by done. unfold Map_delete. rewrite list_filter_filter.
      apply list_filter_iff. intros x. unfold Map_keys. rewrite fmap_cons, not_elem_of_cons.
      tauto.
    + by rewrite decide_False.
Qed.

Lemma evict_loop_self oneHourAgo (m : list (string * Conversation)) :
  Map_wf m →
  evict_loop oneHourAgo m m = filter (λ e, oneHourAgo ≤ c_timestamp e.2) m.
Proof.
  intros Hwf. rewrite evict_loop_filter. apply filter_agree.
  intros [k v] Hin. simpl. split.
  - intros Hk. destruct (decide (oneHourAgo ≤ c_timestamp v)) as [|Hlt]; [done|].
    exfalso. apply Hk. unfold Map_keys. apply list_elem_of_fmap. exists (k, v).
    split; [done|]. apply list_elem_of_filter. simpl. split; [lia | done].
  - intros Hge Hk. unfold Map_keys in Hk. apply list_elem_of_fmap in Hk as [[k' v'] [Hkk He]].
    simpl in Hkk. subst k'. apply list_elem_of_filter in He as [Hold He]. simpl in Hold.
    assert (Map_get k m = Some v) as E1 by by apply Map_elem_get.
    assert (Map_get k m = Some v') as E2 by by apply Map_elem_get.
    assert (v = v') by congruence. subst. lia.
Qed.

(* ===================================================================== *)
(** ** Facts about the table *)
(* ===================================================================== *)

Lemma rows_of_upsert_ne row convId table :
  live_chat_id row ≠ convId →
  rows_of convId (table_upsert row table) = rows_of convId table.
Proof.
  intros Hne. unfold rows_of.
  induction table as [|r rest IH]; cbn [table_upsert].
  - by rewrite filter_cons_False.
  - destruct (decide (live_chat_id r = live_chat_id row)) as [E|E].
    + rewrite !filter_cons_False; [done | congruence | simpl; congruence].
    + by rewrite !filter_cons, IH.
Qed.

Lemma table_select_upsert_ne row convId table :
  live_chat_id row ≠ convId →
  table_select convId (table_upsert row table) = table_select convId table.
Proof. intros Hne. unfold table_select. f_equal. by apply rows_of_upsert_ne. Qed.

Lemma stored_log_upsert_eq row table :
  stored_log (live_chat_id row) (table_upsert row table) = Some (live_message row).
Proof.
  unfold stored_log, table_select. induction table as [|r rest IH]; cbn [table_upsert].
  - by rewrite filter_cons_True.
  - destruct (decide (live_chat_id r = live_chat_id row)) as [E|E].
    + by rewrite filter_cons_True.
    + by rewrite filter_cons_False.
Qed.

Lemma stored_log_upsert_ne row convId table :
  live_chat_id row ≠ convId →
  stored_log convId (table_upsert row table) = stored_log convId table.
Proof. intros Hne. unfold stored_log. by rewrite table_select_upsert_ne. Qed.

Lemma table_upsert_keys row table :
  live_chat_id <$> table_upsert row table
  = if decide (live_chat_id row ∈ live_chat_id <$> table)
    then live_chat_id <$> table
    else (live_chat_id <$> table) ++ [live_chat_id row].
Proof.
  induction table as [|r rest IH]; cbn [table_upsert].
  - rewrite decide_False; [done | apply not_elem_of_nil].
  - destruct (decide (live_chat_id r = live_chat_id row)) as [E|E].
    + rewrite decide_True; [done | rewrite fmap_cons, E; apply list_elem_of_here].
    + rewrite !fmap_cons, IH.
      destruct (decide (live_chat_id row ∈ live_chat_id <$> rest)) as [Hin|Hin].
      * rewrite decide_True; [done | by apply list_elem_of_further].
      * rewrite decide_False; [done|]. rewrite not_elem_of_cons. split; [congruence | done].
Qed.

Lemma table_upsert_unique row table :
  table_unique table → table_unique (table_upsert row table).
Proof.
  unfold table_unique. intros Hnd. rewrite table_upsert_keys.
  destruct (decide (live_chat_id row ∈ live_chat_id <$> table)) as [Hin|Hin]; [done|].
  apply NoDup_app. split; [done|]. split; [|apply NoDup_singleton].
  intros x Hx Hx'. apply list_elem_of_singleton in Hx' as ->. done.
Qed.

Lemma rows_of_unique convId table :
  table_unique table → (length (rows_of convId table) ≤ 1)%nat.
Proof.
  unfold table_unique, rows_of. induction table as [|r rest IH]; [simpl; lia|].
  rewrite fmap_cons. intros Hnd. apply NoDup_cons in Hnd as [Hr Hnd].
  rewrite filter_cons. destruct (decide (live_chat_id r = convId)) as [E|E]; [|by apply IH].
  simpl. assert (filter (λ r0, live_chat_id r0 = convId) rest = []) as ->; [|simpl; lia].
  apply filter_none. intros r' Hin Hr'. apply Hr. rewrite E, <- Hr'.
  apply list_elem_of_fmap. by exists r'.
Qed.

(* ===================================================================== *)
(** ** One step of the server on the most recently suspended handler *)
(* ===================================================================== *)

Lemma lookup_snoc {A} (l : list A) (x : A) : (l ++ [x]) !! length l = Some x.
Proof. by apply list_lookup_middle. Qed.

Lemma insert_snoc {A} (l : list A) (x y : A) : <[length l := y]> (l ++ [x]) = l ++ [y].
Proof.
  rewrite insert_app_r_alt by lia. by replace (length l - length l)%nat with 0%nat by lia.
Qed.

Lemma delete_snoc {A} (l : list A) (x : A) : delete (length l) (l ++ [x]) = l.
Proof. induction l as [|a l IH]; simpl; [done | by rewrite IH]. Qed.

Lemma lookup_length {A} (l : list A) : l !! length l = None.
Proof. apply lookup_ge_None. lia. Qed.

Section Steps.
Variables (st : State) (tb : list Row) (ps : list Pending) (tr : list Action).

Lemma step_deliver socket ev now :
  step {| state := st; table := tb; pending := ps; trace := tr |} (Deliver socket ev now)
  = let '(st', out, next) := handler socket ev now (leave_rooms socket ev st) in
    {| state := st'; table := tb;
       pending := ps ++ option_list (suspend <$> next);
       trace := tr ++ (emitted <$> out) |}.
Proof. reflexivity. Qed.

Lemma step_answer_last f q fault :
  step {| state := st; table := tb;
          pending := ps ++ [suspend (f, q)];
          trace := tr |} (Answer (length ps) fault)
  = {| state := st;
       table := (run_query q fault tb).1;
       pending := ps ++ [{| frame := f; query := q;
                            response := Some (run_query q fault tb).2 |}];
       trace := tr ++ [performed q (error (run_query q fault tb).2)] |}.
Proof.
  unfold step. cbn [pending state table trace]. rewrite lookup_snoc.
  unfold suspend. cbn [fst snd].
  destruct (run_query q fault tb) as [tb' r]. cbn [fst snd]. by rewrite insert_snoc.
Qed.

Lemma step_resume_last f q r now :
  step {| state := st; table := tb;
          pending := ps ++ [{| frame := f; query := q; response := Some r |}];
          trace := tr |} (Resume (length ps) now)
  = let '(st', out, next) := resume f r now st in
    {| state := st'; table := tb;
       pending := ps ++ option_list (suspend <$> next);
       trace := tr ++ (emitted <$> out) |}.
Proof.
  unfold step. cbn [pending state table trace]. rewrite lookup_snoc.
  destruct (resume f r now st) as [[st' out] [n|]]; cbv beta iota.
  - by rewrite insert_snoc.
  - rewrite delete_snoc. cbn. by rewrite app_nil_r.
Qed.

Lemma step_answer_idle fault :
  step {| state := st; table := tb; pending := ps; trace := tr |} (Answer (length ps) fault)
  = {| state := st; table := tb; pending := ps; trace := tr |}.
Proof. unfold step. cbn [pending]. by rewrite lookup_length. Qed.

Lemma step_resume_idle now :
  step {| state := st; table := tb; pending := ps; trace := tr |} (Resume (length ps) now)
  = {| state := st; table := tb; pending := ps; trace := tr |}.
Proof. unfold step. cbn [pending]. by rewrite lookup_length. Qed.
End Steps.

Lemma getConversationMessages_read convId tb :
  getConversationMessages (run_query (Select convId) None tb).2 = Ok (read_log convId tb).
Proof.
  unfold getConversationMessages, read_log, stored_log. simpl.
  by destruct (table_select convId tb).
Qed.

Lemma getConversationMessages_fault q e tb :
  getConversationMessages (run_query q (Some e) tb).2 = Throw e.
Proof. reflexivity. Qed.

(** A [message:send] handled from start to finish. *)
Lemma run_message_send st tb ps tr socket p now0 fault1 now1 fault2 now2 :
  exec {| state := st; table := tb; pending := ps; trace := tr |}
       (handle (length ps) socket (message_send_ev p) now0 fault1 now1 fault2 now2)
  = let convId := ms_convId p in
    let message := new_message p now0 in
    let failed := emitted (socket_emit socket (ev_error "Failed to send message")) in
    match fault1 with
    | Some e1 =>
        {| state := st; table := tb; pending := ps;
           trace := tr ++ [performed (Select convId) (Some e1); failed] |}
    | None =>
        match messages_or_empty (read_log convId tb) with
        | Throw _ =>
            {| state := st; table := tb; pending := ps;
               trace := tr ++ [performed (Select convId) None; failed] |}
        | Ok current =>
            let row := updated_row convId (ms_chatbotId p) (ms_userId p)
                         (json_obj (Some (current ++ [message]))) in
            match fault2 with
            | Some e2 =>
                {| state := st; table := tb; pending := ps;
                   trace := tr ++ [performed (Select convId) None;
                                   performed (Upsert row) (Some e2); failed] |}
            | None =>
                let '(st', out, _) :=
                  message_send_after_write socket convId message
                    {| data := None; error := None |} now2 st in
                {| state := st'; table := table_upsert row tb; pending := ps;
                   trace := tr ++ [performed (Select convId) None;
                                   performed (Upsert row) None] ++ (emitted <$> out) |}
            end
        end
    end.
Proof.
  cbv zeta. unfold exec, handle. cbn [foldl]. rewrite step_deliver.
  cbn -[step]. rewrite ?app_nil_r. rewrite step_answer_last, step_resume_last.
  cbn [resume]. unfold message_send_after_read.
  destruct fault1 as [e1|].
  - rewrite getConversationMessages_fault. unfold message_send_catch.
    cbn -[step]. rewrite ?app_nil_r.
    rewrite step_answer_idle, step_resume_idle. by rewrite <- app_assoc.
  - rewrite getConversationMessages_read. cbn [run_query fst snd error].
    destruct (messages_or_empty (read_log (ms_convId p) tb)) as [current|e].
    + cbn -[step]. rewrite ?app_nil_r. 
      rewrite step_answer_last, step_resume_last.
      cbn [resume]. destruct fault2 as [e2|].
      * cbn. rewrite app_nil_r. by rewrite <- !app_assoc.
      * cbn [run_query fst snd error]. unfold message_send_after_write. cbn [error].
        destruct (Map_get _ _); cbn; rewrite app_nil_r; by rewrite <- !app_assoc.
    + unfold message_send_catch. cbn -[step]. rewrite ?app_nil_r.
      rewrite step_answer_idle, step_resume_idle. by rewrite <- app_assoc.
Qed.

(** A [customer:join] handled from start to finish. *)
Lemma run_customer_join st tb ps tr socket p now0 fault1 now1 fault2 now2 :
  exec {| state := st; table := tb; pending := ps; trace := tr |}
       (handle (length ps) socket (customer_join_ev p) now0 fault1 now1 fault2 now2)
  = let convId := cj_convId p in
    let failed := emitted (socket_emit socket (ev_error "Failed to join chat session")) in
    match fault1 with
    | Some e1 =>
        {| state := st; table := tb; pending := ps;
           trace := tr ++ [performed (Select convId) (Some e1); failed] |}
    | None =>
        match messages_length (read_log convId tb) with
        | Throw _ =>
            {| state := st; table := tb; pending := ps;
               trace := tr ++ [performed (Select convId) None; failed] |}
        | Ok len =>
            let st1 :=
              customers_set socket
                {| cs_convId := convId; cs_chatbotId := cj_chatbotId p;
                   cs_userId := cj_userId p;
                   cs_customerEmail := cj_customerEmail p |} st in
            if Nat.eqb len 0 then
              let row :=
                new_conversation_row convId (cj_customerEmail p) (cj_chatbotId p) now1 in
              match fault2 with
              | Some e2 =>
                  {| state := st1; table := tb; pending := ps;
                     trace := tr ++ [performed (Select convId) None;
                                     performed (Upsert row) (Some e2); failed] |}
              | None =>
                  {| state :=
                       (customer_join_after_create socket convId (cj_chatbotId p)
                          (cj_customerEmail p) {| data := None; error := None |}
                          now2 st1).1.1;
                     table := table_upsert row tb; pending := ps;
                     trace :=
                       tr ++ [performed (Select convId) None; performed (Upsert row) None]
                          ++ (emitted <$>
                                (customer_join_after_create socket convId (cj_chatbotId p)
                                   (cj_customerEmail p) {| data := None; error := None |}
                                   now2 st1).1.2) |}
              end
            else
              {| state := (customer_join_finish socket convId (cj_customerEmail p) st1).1.1;
                 table := tb; pending := ps;
                 trace :=
                   tr ++ [performed (Select convId) None]
                      ++ (emitted <$>
                            (customer_join_finish socket convId (cj_customerEmail p) st1).1.2)
              |}
        end
    end.
Proof.
  cbv zeta. unfold exec, handle. cbn [foldl]. rewrite step_deliver.
  cbn -[step]. rewrite ?app_nil_r. rewrite step_answer_last, step_resume_last.
  cbn [resume]. unfold customer_join_after_read.
  destruct fault1 as [e1|].
  - rewrite getConversationMessages_fault. unfold customer_join_catch.
    cbn -[step]. rewrite ?app_nil_r.
    rewrite step_answer_idle, step_resume_idle. by rewrite <- app_assoc.
  - rewrite getConversationMessages_read. cbn [run_query fst snd error].
    destruct (messages_length (read_log (cj_convId p) tb)) as [len|e].
    + destruct (Nat.eqb len 0).
      * cbn -[step]. rewrite ?app_nil_r.
        rewrite step_answer_last, step_resume_last.
        cbn [resume]. destruct fault2 as [e2|].
        -- cbn. rewrite app_nil_r. by rewrite <- !app_assoc.
        -- cbn. rewrite app_nil_r. by rewrite <- !app_assoc.
      * cbn -[step]. rewrite ?app_nil_r.
        rewrite step_answer_idle, step_resume_idle. by rewrite <- !app_assoc.
    + unfold customer_join_catch. cbn -[step]. rewrite ?app_nil_r.
      rewrite step_answer_idle, step_resume_idle. by rewrite <- app_assoc.
Qed.

(* ===================================================================== *)
(** ** Invariants of the conversation index and of the table *)
(* ===================================================================== *)

Lemma index_ok_set k conv m :
  c_convId conv = k → index_ok m → index_ok (Map_set k conv m).
Proof.
  intros Hk [Hwf Hkeys]. split; [by apply Map_set_wf|].
  intros k' conv' Hin. apply Map_set_elem_wf in Hin; [|done].
  destruct Hin as [[= -> ->]|[Hin _]]; [done | by apply Hkeys].
Qed.

Lemma index_ok_filter (P : string * Conversation → Prop) `{!∀ e, Decision (P e)} m :
  index_ok m → index_ok (filter P m).
Proof.
  intros [Hwf Hkeys]. split; [by apply Map_filter_wf|].
  intros k conv Hin. apply list_elem_of_filter in Hin as [_ Hin]. by apply Hkeys.
Qed.

Lemma index_ok_touch convId message now conversation m :
  Map_get convId m = Some conversation →
  index_ok m → index_ok (touch convId message now conversation m).
Proof.
  intros Hget Hok. unfold touch. apply index_ok_set; [|done]. simpl.
  destruct Hok as [_ Hkeys]. apply Hkeys. by apply Map_get_elem.
Qed.

Lemma index_ok_count convId m :
  index_ok m →
  (length (filter (λ conv, c_convId conv = convId) (Map_values m)) ≤ 1)%nat.
Proof.
  unfold Map_values. intros [Hwf Hkeys]. unfold Map_wf, Map_keys in Hwf.
  induction m as [|[k conv] m IH]; [simpl; lia|].
  rewrite fmap_cons in Hwf. apply NoDup_cons in Hwf as [Hk Hwf].
  assert (∀ k' conv', (k', conv') ∈ m → c_convId conv' = k') as Hkeys'.
  { intros k' conv' Hin. apply Hkeys. by apply list_elem_of_further. }
  rewrite fmap_cons, filter_cons. cbn [snd].
  destruct (decide (c_convId conv = convId)) as [E|E]; [|by apply IH].
  rewrite filter_none; [simpl; lia|].
  intros conv' Hin E'. apply list_elem_of_fmap in Hin as [[k' conv''] [-> Hin]].
  cbn [snd] in E'. apply Hk. cbn [fst].
  rewrite (Hkeys k conv) in E by apply list_elem_of_here. subst k.
  apply list_elem_of_fmap. exists (k', conv''). split; [|done].
  cbn [fst]. rewrite <- E'. by apply Hkeys'.
Qed.

(** Inbound events never touch the index before their first [await]. *)
Lemma handler_conversations socket ev now st :
  conversations (sessions (handler socket ev now (leave_rooms socket ev st)).1.1)
  = conversations (sessions st).
Proof. by destruct ev. Qed.

(** The only code that adds a key to the index is the continuation of the
    [upsert] in [customer:join], and only when that [upsert] succeeded. *)
Lemma resume_keys f r now st k :
  k ∈ Map_keys (conversations (sessions (resume f r now st).1.1)) →
  k ∈ Map_keys (conversations (sessions st))
  ∨ ∃ socket chatbotId customerEmail,
      f = customer_join_creating socket k chatbotId customerEmail ∧ error r = None.
Proof.
  destruct f as [socket c cb u ce|socket c cb ce|socket c|socket c cb u m|socket c m];
    cbn [resume].
  - unfold customer_join_after_read.
    destruct (getConversationMessages r) as [lm|]; [|by left].
    destruct (messages_length lm) as [len|]; [|by left].
    destruct (Nat.eqb len 0); by left.
  - unfold customer_join_after_create. destruct (error r) eqn:E; [by left|].
    cbn. intros Hin. apply Map_keys_set_elem in Hin as [->|Hin]; [|by left].
    right. by exists socket, cb, ce.
  - unfold agent_join_after_read. destruct (getConversationMessages r); by left.
  - unfold message_send_after_read.
    destruct (getConversationMessages r) as [lm|]; [|by left].
    destruct (messages_or_empty lm); by left.
  - unfold message_send_after_write. destruct (error r); [by left|].
    destruct (Map_get c (conversations (sessions st))) as [conv|] eqn:E; [|by left].
    cbn. unfold touch. intros Hin. apply Map_keys_set_elem in Hin as [->|Hin]; [|by left].
    left. apply Map_get_is_Some. by eexists.
Qed.

Lemma resume_index_ok f r now st :
  index_ok (conversations (sessions st)) →
  index_ok (conversations (sessions (resume f r now st).1.1)).
Proof.
  intros Hok.
  destruct f as [socket c cb u ce|socket c cb ce|socket c|socket c cb u m|socket c m];
    cbn [resume].
  - unfold customer_join_after_read.
    destruct (getConversationMessages r) as [lm|]; [|done].
    destruct (messages_length lm) as [len|]; [|done].
    by destruct (Nat.eqb len 0).
  - unfold customer_join_after_create. destruct (error r); [done|].
    cbn. by apply index_ok_set.
  - unfold agent_join_after_read. by destruct (getConversationMessages r).
  - unfold message_send_after_read.
    destruct (getConversationMessages r) as [lm|]; [|done].
    by destruct (messages_or_empty lm).
  - unfold message_send_after_write. destruct (error r); [done|].
    destruct (Map_get c (conversations (sessions st))) as [conv|] eqn:E; [|done].
    cbn. by apply index_ok_touch.
Qed.

Lemma evict_inactive_conversations now st :
  Map_wf (conversations (sessions st)) →
  conversations (sessions (evict_inactive now st).1)
  = filter (λ e, now - 60 * 60 * 1000 ≤ c_timestamp e.2) (conversations (sessions st)).
Proof. intros Hwf. cbn. by apply evict_loop_self. Qed.

Lemma step_index_ok sys l : index_ok (index sys) → index_ok (index (step sys l)).
Proof.
  unfold index. intros Hok. destruct l as [socket ev now|i fault|i now|now]; cbn [step].
  - pose proof (handler_conversations socket ev now (state sys)) as Hc.
    destruct (handler socket ev now _) as [[st out] next]. cbn in *. by rewrite Hc.
  - destruct (pending sys !! i) as [[f q [r|]]|]; try done.
    by destruct (run_query q fault (table sys)).
  - destruct (pending sys !! i) as [[f q [r|]]|]; try done.
    pose proof (resume_index_ok f r now (state sys) Hok) as Hr.
    by destruct (resume f r now (state sys)) as [[st out] next].
  - pose proof (evict_inactive_conversations now (state sys) (proj1 Hok)) as Hc.
    destruct (evict_inactive now (state sys)) as [st out]. cbn in *. rewrite Hc.
    by apply index_ok_filter.
Qed.

Lemma step_table_unique sys l : table_unique (table sys) → table_unique (table (step sys l)).
Proof.
  intros Hu. destruct l as [socket ev now|i fault|i now|now]; cbn [step].
  - by destruct (handler socket ev now _) as [[st out] next].
  - destruct (pending sys !! i) as [[f q [r|]]|]; try done.
    destruct fault as [e|]; [done|]. destruct q as [c|row]; cbn; [done|].
    by apply table_upsert_unique.
  - destruct (pending sys !! i) as [[f q [r|]]|]; try done.
    by destruct (resume f r now (state sys)) as [[st out] next].
  - by destruct (evict_inactive now (state sys)) as [st out].
Qed.

Lemma exec_app sys ls1 ls2 : exec sys (ls1 ++ ls2) = exec (exec sys ls1) ls2.
Proof. apply foldl_app. Qed.

Lemma exec_invariant (I : System → Prop) :
  (∀ sys l, I sys → I (step sys l)) → ∀ ls sys, I sys → I (exec sys ls).
Proof.
  intros Hstep ls. induction ls as [|l ls IH]; intros sys HI; [done|].
  cbn. apply IH. by apply Hstep.
Qed.

Lemma emits_app tr1 tr2 : emits (tr1 ++ tr2) = emits tr1 ++ emits tr2.
Proof. apply omap_app. Qed.

Lemma emits_emitted out : emits (emitted <$> out) = out.
Proof. induction out as [|e out IH]; [done|]. cbn. by f_equal. Qed.

Lemma writes_app tr1 tr2 : writes (tr1 ++ tr2) = writes tr1 ++ writes tr2.
Proof. apply omap_app. Qed.

Lemma writes_emitted out : writes (emitted <$> out) = [].
Proof. by induction out as [|e out IH]. Qed.

(* ===================================================================== *)
(** ** No broadcast without persistence *)
(* ===================================================================== *)

(** C1.  Whatever the state of the server and whatever else is waiting, a
    [message:send] whose store write fails changes neither the process state
    nor the table, and the only event that leaves the server is
    [error "Failed to send message"] on the sending socket: no
    [message:received] goes to the room and no [chat:updated] is broadcast.
    The same holds at the level of the resumed handler, in whatever state it
    is resumed: after a failed write it emits the error and nothing else. *)
Theorem message_send_write_failure :
  ∀ (sys : System) (socket : string) (p : MessageSend)
    (now0 : Z) (fault1 : option Error) (now1 : Z) (e : Error) (now2 : Z),
    let sys' :=
      exec sys (handle (length (pending sys)) socket (message_send_ev p)
                  now0 fault1 now1 (Some e) now2) in
    state sys' = state sys
    ∧ table sys' = table sys
    ∧ pending sys' = pending sys
    ∧ writes (trace sys') = writes (trace sys)
    ∧ emits (trace sys')
      = emits (trace sys) ++ [socket_emit socket (ev_error "Failed to send message")]
    ∧ ∀ convId message rows now st,
        resume (message_send_writing socket convId message)
               {| data := rows; error := Some e |} now st
        = (st, [socket_emit socket (ev_error "Failed to send message")], None).
Proof.
  intros [st tb ps tr] socket p now0 fault1 now1 e now2. cbv zeta. cbn [pending].
  rewrite run_message_send. cbv zeta.
  repeat split; try (destruct fault1 as [e1|];
    [|destruct (messages_or_empty (read_log (ms_convId p) tb))]; reflexivity).
  - destruct fault1 as [e1|];
      [|destruct (messages_or_empty (read_log (ms_convId p) tb))];
      cbn [trace]; rewrite writes_app; cbn; by rewrite app_nil_r.
  - destruct fault1 as [e1|];
      [|destruct (messages_or_empty (read_log (ms_convId p) tb))];
      cbn [trace]; by rewrite emits_app.
Qed.

(* ===================================================================== *)
(** ** Store failures and partial state changes *)
(* ===================================================================== *)

(** A [customer:join] whose read fails, or reads an unusable log, leaves the
    process state and the table as they were and emits only the error. *)
Lemma customer_join_read_failure sys socket p now0 e now1 fault2 now2 :
  let sys' :=
    exec sys (handle (length (pending sys)) socket (customer_join_ev p)
                now0 (Some e) now1 fault2 now2) in
  state sys' = state sys ∧ table sys' = table sys
  ∧ emits (trace sys')
    = emits (trace sys) ++ [socket_emit socket (ev_error "Failed to join chat session")].
Proof.
  destruct sys as [st tb ps tr]. cbv zeta. cbn [pending state table trace].
  rewrite run_customer_join. cbv zeta. cbn [state table trace].
  by rewrite emits_app.
Qed.

(** A [customer:join] that reads an empty log and whose creating [upsert]
    fails: the table, the index and the rooms are as before and only the
    error is emitted, but the customer session set before the [upsert] stays
    in [sessions.customers]. *)
Lemma customer_join_create_failure sys socket p now0 now1 e now2 :
  read_log (cj_convId p) (table sys) = json_obj (Some []) →
  let sys' :=
    exec sys (handle (length (pending sys)) socket (customer_join_ev p)
                now0 None now1 (Some e) now2) in
  state sys'
  = customers_set socket
      {| cs_convId := cj_convId p; cs_chatbotId := cj_chatbotId p;
         cs_userId := cj_userId p; cs_customerEmail := cj_customerEmail p |} (state sys)
  ∧ table sys' = table sys
  ∧ emits (trace sys')
    = emits (trace sys) ++ [socket_emit socket (ev_error "Failed to join chat session")].
Proof.
  destruct sys as [st tb ps tr]. cbv zeta. cbn [pending state table trace].
  intros Hread. rewrite run_customer_join. cbv zeta. rewrite Hread.
  cbn [messages_length length Nat.eqb state table trace].
  by rewrite emits_app.
Qed.

(** C2 at its failing input.  On a fresh server, socket ["a"] sends
    [customer:join] for the new conversation ["c1"]; the read succeeds and
    the [upsert] that creates the conversation fails.  The handler emits its
    error to ["a"], the index and the table stay empty and ["a"] joins no
    room, yet [sessions.customers] now holds a record for ["a"]: the registry
    is not what it was before the event. *)
Theorem customer_join_failed_create_leaves_session :
  let sys := boot [] in
  let sys' :=
    exec sys (handle 0 "a" (customer_join_ev join_c1)
                10 None 11 (Some (StoreError "write failed")) 12) in
  emits (trace sys') = [socket_emit "a" (ev_error "Failed to join chat session")]
  ∧ writes (trace sys') = []
  ∧ table sys' = []
  ∧ index sys' = []
  ∧ rooms (state sys') = rooms (state sys)
  ∧ lookup_sessions "a" (state sys) = (None, None)
  ∧ lookup_sessions "a" (state sys')
    = (Some {| cs_convId := "c1"; cs_chatbotId := "bot"; cs_userId := "u1";
               cs_customerEmail := "e@x" |}, None)
  ∧ sessions (state sys') ≠ sessions (state sys).
Proof.
  cbv zeta. repeat split; try reflexivity.
  intros E.
  assert (customers (sessions (state (exec (boot [])
            (handle 0 "a" (customer_join_ev join_c1)
               10 None 11 (Some (StoreError "write failed")) 12)))) !! "a"
          = customers (sessions (state (boot []))) !! "a") as E' by by rewrite E.
  vm_compute in E'. discriminate.
Qed.

(* ===================================================================== *)
(** ** Joining the same conversation twice *)
(* ===================================================================== *)

Lemma creates_app convId tr1 tr2 :
  creates convId (tr1 ++ tr2) = creates convId tr1 ++ creates convId tr2.
Proof. unfold creates. by rewrite writes_app, filter_app. Qed.

Lemma is_create_new_conversation_row convId customerEmail chatbotId now :
  is_create convId (new_conversation_row convId customerEmail chatbotId now) = true.
Proof. unfold is_create. by apply bool_decide_eq_true. Qed.

(** C3 as stated fails: two sockets join the fresh conversation ["c1"] one
    after the other and, no message having been stored in between, the
    second join finds the log empty and runs the creating [upsert] again. *)
Lemma second_join_creates_again :
  let sys' :=
    exec (boot [])
         (handle 0 "a" (customer_join_ev join_c1) 10 None 11 None 12
          ++ handle 0 "b" (customer_join_ev join_c1) 20 None 21 None 22) in
  creates "c1" (trace sys')
  = [new_conversation_row "c1" "e@x" "bot" 11; new_conversation_row "c1" "e@x" "bot" 21]
  ∧ ¬ (length (creates "c1" (trace sys')) ≤ 1)%nat.
Proof.
  cbv zeta. split; [reflexivity|].
  assert (length (creates "c1" (trace (exec (boot [])
            (handle 0 "a" (customer_join_ev join_c1) 10 None 11 None 12
             ++ handle 0 "b" (customer_join_ev join_c1) 20 None 21 None 22)))) = 2%nat)
    as -> by reflexivity.
  lia.
Qed.

(* ===================================================================== *)
(** ** Fan-out of an accepted message *)
(* ===================================================================== *)

(** C4, as the code has it.  When the read of a [message:send] succeeds with a
    usable log [current] and the write succeeds, the table receives the log
    [current ++ [message]], and [message:received] is emitted to the room of
    the conversation, which reaches every socket subscribed to it, the sender
    or not.  Then, only if the conversation is in the index, its entry gets
    [lastMessage] and a new [timestamp] and the snapshot is broadcast as
    [chat:updated]; if it is not in the index, the state is left as it was
    and no [chat:updated] is emitted. *)
Theorem message_send_success :
  ∀ (sys : System) (socket : string) (p : MessageSend) (now0 now1 now2 : Z)
    (current : list Message),
    messages_or_empty (read_log (ms_convId p) (table sys)) = Ok current →
    let convId := ms_convId p in
    let message := new_message p now0 in
    let received := io_to_emit (conv_room convId) (ev_message_received message) in
    let sys' :=
      exec sys (handle (length (pending sys)) socket (message_send_ev p)
                  now0 None now1 None now2) in
    table sys'
    = table_upsert (updated_row convId (ms_chatbotId p) (ms_userId p)
                      (json_obj (Some (current ++ [message])))) (table sys)
    ∧ (∀ s, subscribed (state sys) s (conv_room convId) → receives (state sys) s received)
    ∧ match Map_get convId (index sys) with
      | Some conversation =>
          index sys' = touch convId message now2 conversation (index sys)
          ∧ (∃ conversation',
               Map_get convId (index sys') = Some conversation'
               ∧ c_lastMessage conversation' = Some message
               ∧ c_timestamp conversation' = now2)
          ∧ emits (trace sys')
            = emits (trace sys)
                ++ [received; io_emit (ev_chat_updated (snapshot (state sys')))]
      | None =>
          state sys' = state sys
          ∧ emits (trace sys') = emits (trace sys) ++ [received]
      end.
Proof.
  intros [st tb ps tr] socket p now0 now1 now2 current Hread. cbv zeta.
  cbn [pending table] in *. rewrite run_message_send. cbv zeta. rewrite Hread.
  unfold message_send_after_write, index. cbn [error state].
  split; [|split; [by intros s Hs|]].
  - by destruct (Map_get (ms_convId p) (conversations (sessions st))).
  - destruct (Map_get (ms_convId p) (conversations (sessions st))) as [conv|] eqn:E;
      cbn [state trace].
    + split; [done|]. split.
      * eexists. split; [apply Map_get_set_eq | done].
      * rewrite !emits_app, emits_emitted. done.
    + split; [done|]. by rewrite !emits_app, emits_emitted.
Qed.

Lemma message_send_success_witness :
  messages_or_empty (read_log (ms_convId hello) (table (boot []))) = Ok []
  ∧ table (exec (boot []) (handle 0 "a" (message_send_ev hello) 30 None 31 None 32))
    = [updated_row "c1" "bot" "u1" (json_obj (Some [new_message hello 30]))].
Proof.
  split; [reflexivity|].
  exact (proj1 (message_send_success (boot []) "a" hello 30 31 32 [] eq_refl)).
Defined.

(** C4 as stated fails: on a server whose index does not hold the
    conversation, a [message:send] is stored and sent to the room, yet no
    [chat:updated] follows. *)
Lemma message_send_without_rebroadcast :
  let sys' := exec (boot []) (handle 0 "a" (message_send_ev hello) 30 None 31 None 32) in
  stored_log "c1" (table sys') = Some (json_obj (Some [new_message hello 30]))
  ∧ emits (trace sys')
    = [io_to_emit "conv-c1" (ev_message_received (new_message hello 30))]
  ∧ ¬ ∃ summaries, io_emit (ev_chat_updated summaries) ∈ emits (trace sys').
Proof.
  cbv zeta. split; [reflexivity|]. split; [reflexivity|].
  intros [summaries Hin]. 
  assert (emits (trace (exec (boot []) (handle 0 "a" (message_send_ev hello) 30 None 31 None 32)))
          = [io_to_emit "conv-c1" (ev_message_received (new_message hello 30))]) as E
    by reflexivity.
  rewrite E in Hin. apply list_elem_of_singleton in Hin. discriminate.
Qed.

(* ===================================================================== *)
(** ** Ordering of sequential sends *)
(* ===================================================================== *)

Lemma read_log_after_send tb convId chatbotId userId current message :
  messages_or_empty
    (read_log convId
       (table_upsert (updated_row convId chatbotId userId
                        (json_obj (Some (current ++ [message])))) tb))
  = Ok (current ++ [message]).
Proof.
  unfold read_log.
  pose proof (stored_log_upsert_eq
                (updated_row convId chatbotId userId (json_obj (Some (current ++ [message]))))
                tb) as H.
  cbn [live_chat_id updated_row live_message] in H. by rewrite H.
Qed.

(** C5.  Sends from one socket to one conversation, handled one after the
    other with no other writer in between: if the log of the conversation is
    usable to begin with ([current]), the log read back afterwards is
    [current] followed by the messages of the sends whose read and write both
    succeeded, in the order of issue.  Nothing that was in the log is removed
    or moved; a failed send leaves the log as it was. *)
Theorem sequential_sends_keep_order :
  ∀ (runs : list SendRun) (sys : System) (socket convId : string)
    (current : list Message),
    messages_or_empty (read_log convId (table sys)) = Ok current →
    Forall (λ r, ms_convId (sr_payload r) = convId) runs →
    let sys' := exec sys (send_sequence (length (pending sys)) socket runs) in
    messages_or_empty (read_log convId (table sys'))
    = Ok (current ++ (sent_message <$> filter stored runs))
    ∧ pending sys' = pending sys.
Proof.
  induction runs as [|r runs IH]; intros sys socket convId current Hread Hall; cbv zeta.
  - cbn. by rewrite app_nil_r.
  - apply Forall_cons in Hall as [Hr Hall].
    unfold send_sequence. rewrite fmap_cons. cbn [concat]. rewrite exec_app.
    fold (send_sequence (length (pending sys)) socket runs).
    destruct sys as [st tb ps tr]. cbn [pending table] in *.
    unfold send_labels. rewrite run_message_send. cbv zeta. rewrite Hr, Hread.
    rewrite filter_cons. unfold stored at 2.
    destruct r as [p now0 [e1|] now1 fault2 now2]; cbn [sr_fault1 sr_fault2 sr_payload sr_now0].
    + rewrite decide_False by (intros [? _]; done).
      match goal with |- context [exec ?s _] => specialize (IH s socket convId current) end.
      cbn [pending table] in IH. by apply IH.
    + destruct fault2 as [e2|].
      * rewrite decide_False by (intros [_ ?]; done).
        match goal with |- context [exec ?s _] => specialize (IH s socket convId current) end.
        cbn [pending table] in IH. by apply IH.
      * rewrite decide_True by done. rewrite fmap_cons.
        destruct (message_send_after_write _ _ _ _ _ _) as [[st' out] next].
        match goal with |- context [exec ?s _] =>
          specialize (IH s socket convId (current ++ [new_message p now0])) end.
        cbn [pending table] in IH. rewrite <- app_assoc in IH. apply IH; [|done].
        apply read_log_after_send.
Qed.

Lemma sequential_sends_keep_order_witness :
  messages_or_empty (read_log "c1" (table (boot []))) = Ok []
  ∧ Forall (λ r, ms_convId (sr_payload r) = "c1") two_sends
  ∧ messages_or_empty (read_log "c1" (table (exec (boot []) (send_sequence 0 "a" two_sends))))
    = Ok [new_message hello 30; new_message hello_again 40].
Proof.
  assert (Forall (λ r, ms_convId (sr_payload r) = "c1") two_sends) as Hall.
  { repeat constructor. }
  split; [reflexivity|]. split; [exact Hall|].
  exact (proj1 (sequential_sends_keep_order two_sends (boot []) "a" "c1" [] eq_refl Hall)).
Defined.

(* ===================================================================== *)
(** ** Eviction of inactive conversations *)
(* ===================================================================== *)

(** C6.  A sweep at clock reading [now] keeps exactly the index entries whose
    [timestamp] is not before [now - 1h], in their order: an entry that is
    two hours old is gone, one that is thirty minutes old stays.  The sweep
    then broadcasts the resulting snapshot, and leaves the table, the
    sessions, the rooms and the waiting handlers alone. *)
Theorem sweep_evicts_older_than_one_hour :
  ∀ (sys : System) (now : Z),
    Map_wf (index sys) →
    let sys' := step sys (Sweep now) in
    (∀ convId conv,
        Map_get convId (index sys') = Some conv
        ↔ Map_get convId (index sys) = Some conv ∧ now - 3600000 ≤ c_timestamp conv)
    ∧ (∀ convId conv,
        Map_get convId (index sys) = Some conv →
        c_timestamp conv = now - 2 * 3600000 → Map_get convId (index sys') = None)
    ∧ (∀ convId conv,
        Map_get convId (index sys) = Some conv →
        c_timestamp conv = now - 30 * 60000 → Map_get convId (index sys') = Some conv)
    ∧ index sys' = filter (λ e, now - 3600000 ≤ c_timestamp e.2) (index sys)
    ∧ table sys' = table sys
    ∧ pending sys' = pending sys
    ∧ customers (sessions (state sys')) = customers (sessions (state sys))
    ∧ agents (sessions (state sys')) = agents (sessions (state sys))
    ∧ rooms (state sys') = rooms (state sys)
    ∧ trace sys' = trace sys ++ [emitted (io_emit (ev_chat_updated (snapshot (state sys'))))].
Proof.
  intros sys now Hwf. cbv zeta.
  assert (index (step sys (Sweep now))
          = filter (λ e, now - 3600000 ≤ c_timestamp e.2) (index sys)) as Hidx.
  { unfold index in *. cbn. by rewrite evict_loop_self. }
  assert (∀ convId conv,
            Map_get convId (index (step sys (Sweep now))) = Some conv
            ↔ Map_get convId (index sys) = Some conv ∧ now - 3600000 ≤ c_timestamp conv)
    as Hget.
  { intros convId conv. rewrite Hidx. split.
    - intros Hg. apply Map_get_elem in Hg. apply list_elem_of_filter in Hg as [Hts Hin].
      split; [by apply Map_elem_get | done].
    - intros [Hg Hts]. apply Map_elem_get; [by apply Map_filter_wf|].
      apply list_elem_of_filter. split; [done | by apply Map_get_elem]. }
  split; [exact Hget|]. split; [|split; [|done]].
  - intros convId conv Hg Hts.
    destruct (Map_get convId (index (step sys (Sweep now)))) as [conv'|] eqn:E; [|done].
    apply Hget in E as [E Hts']. assert (conv' = conv) as -> by congruence. lia.
  - intros convId conv Hg Hts. apply Hget. split; [done | lia].
Qed.

Lemma sweep_evicts_older_than_one_hour_witness :
  Map_wf (index stale_and_fresh)
  ∧ Map_keys (index (step stale_and_fresh (Sweep 10000000))) = ["new"].
Proof.
  assert (Map_wf (index stale_and_fresh)) as Hwf.
  { unfold Map_wf. cbn. apply (bool_decide_unpack _). reflexivity. }
  split; [exact Hwf|].
  pose proof (sweep_evicts_older_than_one_hour stale_and_fresh 10000000 Hwf) as H.
  cbv zeta in H. destruct H as (_ & _ & _ & H & _). rewrite H. reflexivity.
Defined.

(* ===================================================================== *)
(** ** The server's clock is the only source of message timestamps *)
(* ===================================================================== *)

(** C7.  The message built by [message:send] carries the server's clock
    reading taken when the event is delivered.  Replacing the client's
    [timestamp] field by anything else changes nothing: the message is the
    same and so is every later state of the server, under any schedule [ls].
    Along the handling of the event, every [message:received] emitted carries
    that message and every row written ends with it. *)
Theorem message_timestamp_is_server_clock :
  ∀ (sys : System) (socket : string) (p : MessageSend) (ts : option string) (now0 : Z),
    msg_timestamp (new_message p now0) = toISOString now0
    ∧ new_message (with_timestamp ts p) now0 = new_message p now0
    ∧ (∀ ls, exec sys (Deliver socket (message_send_ev (with_timestamp ts p)) now0 :: ls)
             = exec sys (Deliver socket (message_send_ev p) now0 :: ls))
    ∧ ∀ fault1 now1 fault2 now2,
        ∃ new,
          trace (exec sys (handle (length (pending sys)) socket (message_send_ev p)
                             now0 fault1 now1 fault2 now2))
          = trace sys ++ new
          ∧ (∀ e m, e ∈ emits new →
                    (∃ room, e = io_to_emit room (ev_message_received m)) →
                    m = new_message p now0)
          ∧ (∀ row, row ∈ writes new →
                    ∃ current,
                      live_message row = json_obj (Some (current ++ [new_message p now0]))).
Proof.
  intros [st tb ps tr] socket p ts now0.
  split; [done|]. split; [done|]. split; [done|].
  intros fault1 now1 fault2 now2. cbn [pending trace].
  rewrite run_message_send. cbv zeta.
  destruct fault1 as [e1|].
  { eexists. split; [done|]. cbn. split.
    - intros e m Hin [room ->]. apply list_elem_of_singleton in Hin. discriminate.
    - intros row Hin. by apply elem_of_nil in Hin. }
  destruct (messages_or_empty (read_log (ms_convId p) tb)) as [current|err].
  2:{ eexists. split; [done|]. cbn. split.
      - intros e m Hin [room ->]. apply list_elem_of_singleton in Hin. discriminate.
      - intros row Hin. by apply elem_of_nil in Hin. }
  destruct fault2 as [e2|].
  { eexists. split; [done|]. cbn. split.
    - intros e m Hin [room ->]. apply list_elem_of_singleton in Hin. discriminate.
    - intros row Hin. by apply elem_of_nil in Hin. }
  unfold message_send_after_write. cbn [error].
  destruct (Map_get (ms_convId p) (conversations (sessions st))) as [conv|];
    (eexists; split; [done|]); cbn; split.
  - intros e m Hin [room ->]. apply elem_of_cons in Hin as [Hin|Hin]; [by inversion Hin|].
    apply list_elem_of_singleton in Hin. discriminate.
  - intros row Hin. apply list_elem_of_singleton in Hin as ->. by eexists.
  - intros e m Hin [room ->]. apply list_elem_of_singleton in Hin. by inversion Hin.
  - intros row Hin. apply list_elem_of_singleton in Hin as ->. by eexists.
Qed.

(* ===================================================================== *)
(** ** Reading the log of a conversation *)
(* ===================================================================== *)

(** C8.  [getConversationMessages] throws exactly when the database call
    reports an error, and then throws that error.  When the call succeeds and
    the table holds no row for the conversation, the result is the empty log
    [{ messages: [] }], not an error. *)
Theorem getConversationMessages_empty_or_store_error :
  ∀ (convId : string) (tb : list Row) (fault : option Error),
    let result := getConversationMessages (run_query (Select convId) fault tb).2 in
    (∀ e, result = Throw e ↔ fault = Some e)
    ∧ (rows_of convId tb = [] → fault = None → result = Ok (json_obj (Some []))).
Proof.
  intros convId tb fault. cbv zeta. split.
  - intros e. destruct fault as [e'|].
    + rewrite getConversationMessages_fault. split; congruence.
    + rewrite getConversationMessages_read. split; discriminate.
  - intros Hrows ->. rewrite getConversationMessages_read.
    unfold read_log, stored_log, table_select. fold (rows_of convId tb). by rewrite Hrows.
Qed.

Lemma getConversationMessages_empty_or_store_error_witness :
  rows_of "c1" [] = []
  ∧ getConversationMessages (run_query (Select "c1") None []).2 = Ok (json_obj (Some [])).
Proof.
  split; [reflexivity|].
  exact (proj2 (getConversationMessages_empty_or_store_error "c1" [] None) eq_refl eq_refl).
Defined.

(* ===================================================================== *)
(** ** Registry cleanup on disconnect *)
(* ===================================================================== *)

(** C9.  After [disconnect] on a socket, the registry holds neither a customer
    nor an agent record for it, whichever of the two it held before.  If it
    held neither, the registry is exactly as it was.  The records of other
    sockets, the index, the table, the waiting handlers and the trace are
    never affected. *)
Theorem disconnect_removes_sessions :
  ∀ (sys : System) (socket : string) (now : Z),
    let sys' := step sys (Deliver socket disconnect_ev now) in
    lookup_sessions socket (state sys') = (None, None)
    ∧ (lookup_sessions socket (state sys) = (None, None) →
       sessions (state sys') = sessions (state sys))
    ∧ (∀ other, other ≠ socket →
                lookup_sessions other (state sys') = lookup_sessions other (state sys))
    ∧ index sys' = index sys
    ∧ table sys' = table sys
    ∧ pending sys' = pending sys
    ∧ trace sys' = trace sys.
Proof.
  intros [[[cs ags idx] rms] tb ps tr] socket now. cbv zeta.
  unfold lookup_sessions, index. cbn.
  rewrite !app_nil_r. repeat split.
  - destruct (cs !! socket) eqn:Ec, (ags !! socket) eqn:Ea;
      rewrite ?lookup_delete_eq, ?Ec, ?Ea; done.
  - intros [= -> ->]. done.
  - intros other Hne. destruct (cs !! socket), (ags !! socket);
      rewrite ?lookup_delete_ne by done; done.
Qed.

Lemma disconnect_removes_sessions_witness :
  (is_Some (lookup_sessions "s" (state both_roles)).1
   ∧ is_Some (lookup_sessions "s" (state both_roles)).2)
  ∧ lookup_sessions "s" (state (step both_roles (Deliver "s" disconnect_ev 30)))
    = (None, None)
  ∧ (lookup_sessions "s" (state (boot [])) = (None, None)
     ∧ sessions (state (step (boot []) (Deliver "s" disconnect_ev 30)))
       = sessions (state (boot []))).
Proof.
  split; [split; eexists; reflexivity|].
  split; [exact (proj1 (disconnect_removes_sessions both_roles "s" 30))|].
  split; [reflexivity|].
  exact (proj1 (proj2 (disconnect_removes_sessions (boot []) "s" 30)) eq_refl).
Defined.

(* ===================================================================== *)
(** ** Where index entries come from *)
(* ===================================================================== *)

Lemma handler_next_ok socket ev now st n :
  (handler socket ev now st).2 = Some n →
  pending_ok (suspend n) ∧ ∀ convId, ¬ about_to_insert convId (suspend n).
Proof.
  destruct ev as [p|c|p|]; cbn; intros [= <-]; (split; [done|]);
    intros convId; unfold about_to_insert; cbn; [|tauto..].
  by intros [_ [r [? _]]].
Qed.


Lemma resume_next_ok f r now st n :
  (resume f r now st).2 = Some n → pending_ok (suspend n).
Proof.
  destruct f as [s c cb u ce|s c cb ce|s c|s c cb u m|s c m]; cbn [resume].
  - unfold customer_join_after_read.
    destruct (getConversationMessages r) as [v|]; [|done].
    destruct (messages_length v) as [len|]; [|done].
    destruct (Nat.eqb len 0); cbn; [|done]. intros [= <-]. cbn. by eexists.
  - unfold customer_join_after_create. by destruct (error r).
  - unfold agent_join_after_read. by destruct (getConversationMessages r).
  - unfold message_send_after_read.
    destruct (getConversationMessages r) as [v|]; [|done].
    destruct (messages_or_empty v); [|done]. cbn. intros [= <-]. cbn. by do 3 eexists.
  - unfold message_send_after_write. destruct (error r); [done|].
    by destruct (Map_get c (conversations (sessions st))).
Qed.




Lemma step_pending_ok sys l :
  Forall pending_ok (pending sys) → Forall pending_ok (pending (step sys l)).
Proof.
  intros Hp. destruct l as [socket ev now|i fault|i now|now]; cbn [step].
  - pose proof (handler_next_ok socket ev now (leave_rooms socket ev (state sys))) as Hn.
    destruct (handler socket ev now _) as [[st out] next]. cbn [pending].
    apply Forall_app. split; [done|]. destruct next as [n|]; cbn; [|constructor].
    destruct (Hn n eq_refl) as [Hok _]. by repeat constructor.
  - destruct (pending sys !! i) as [[f q [r|]]|] eqn:Ei; try done.
    pose proof (Forall_lookup_1 _ _ _ _ Hp Ei) as Hok.
    destruct (run_query q fault (table sys)) as [tb' r]. cbn [pending].
    by apply Forall_insert.
  - destruct (pending sys !! i) as [[f q [r|]]|] eqn:Ei; try done.
    pose proof (resume_next_ok f r now (state sys)) as Hnok.
    destruct (resume f r now (state sys)) as [[st out] next]. cbn [pending].
    destruct next as [n|]; [apply Forall_insert; [done | by apply Hnok] | by apply Forall_delete].
  - by destruct (evict_inactive now (state sys)).
Qed.






(* ===================================================================== *)
(** ** How often a conversation is created *)
(* ===================================================================== *)

Lemma creates_emitted convId out : creates convId (emitted <$> out) = [].
Proof. unfold creates. by rewrite writes_emitted. Qed.

Lemma creates_snoc_performed convId tr q err :
  creates convId (tr ++ [performed q err])
  = creates convId tr
      ++ match q, err with
         | Upsert row, None => if is_create convId row then [row] else []
         | _, _ => []
         end.
Proof.
  rewrite creates_app. f_equal. unfold creates.
  destruct q as [c|row]; [by destruct err|]. destruct err; [done|].
  change (writes [performed (Upsert row) None]) with [row].
  rewrite filter_cons, filter_nil. by destruct (is_create convId row).
Qed.

Lemma sum_list_with_insert {A} (f : A → nat) (l : list A) (i : nat) (x y : A) :
  l !! i = Some x →
  (sum_list_with f (<[i:=y]> l) + f x = sum_list_with f l + f y)%nat.
Proof.
  revert i. induction l as [|a l IH]; intros [|i] Hl; try done.
  - simpl in Hl. inversion Hl; subst. simpl. lia.
  - simpl in Hl. simpl. specialize (IH i Hl). lia.
Qed.

Lemma sum_list_with_delete {A} (f : A → nat) (l : list A) (i : nat) (x : A) :
  l !! i = Some x →
  (sum_list_with f (delete i l) + f x = sum_list_with f l)%nat.
Proof.
  revert i. induction l as [|a l IH]; intros [|i] Hl; try done.
  - simpl in Hl. inversion Hl; subst. simpl. lia.
  - simpl in Hl. simpl. specialize (IH i Hl). lia.
Qed.

Lemma joins_delivered_snoc convId ls l :
  joins_delivered convId (ls ++ [l])
  = (joins_delivered convId ls + if delivers_join convId l then 1 else 0)%nat.
Proof.
  unfold joins_delivered. rewrite filter_app, length_app, filter_cons, filter_nil.
  by destruct (delivers_join convId l).
Qed.

(** A handler that starts waiting counts for [may_create] exactly when it is
    a [customer:join] for the conversation. *)
Lemma handler_may_create convId socket ev now st :
  sum_list_with (may_create convId) (option_list (suspend <$> (handler socket ev now st).2))
  = if delivers_join convId (Deliver socket ev now) then 1%nat else 0%nat.
Proof.
  destruct ev as [p|c|p|]; cbn; try done.
  unfold may_create. cbn. case_decide; case_bool_decide; try done; lia.
Qed.

(** Resuming a handler never raises its count. *)
Lemma resume_may_create convId f q r now st :
  (sum_list_with (may_create convId) (option_list (suspend <$> (resume f r now st).2))
   ≤ may_create convId {| frame := f; query := q; response := Some r |})%nat.
Proof.
  unfold may_create.
  destruct f as [s c cb u ce|s c cb ce|s c|s c cb u m|s c m]; cbn [resume frame response].
  - unfold customer_join_after_read.
    destruct (getConversationMessages r) as [v|]; [|cbn; lia].
    destruct (messages_length v) as [len|]; [|cbn; lia].
    destruct (Nat.eqb len 0); cbn; case_decide; lia.
  - unfold customer_join_after_create. destruct (error r); cbn; lia.
  - unfold agent_join_after_read. destruct (getConversationMessages r); cbn; lia.
  - unfold message_send_after_read.
    destruct (getConversationMessages r) as [v|]; [|cbn; lia].
    destruct (messages_or_empty v); cbn; lia.
  - unfold message_send_after_write. destruct (error r); [cbn; lia|].
    destruct (Map_get c (conversations (sessions st))); cbn; lia.
Qed.

(** Performing the request of a waiting handler adds a creating write for
    the conversation only by using up the count of that handler. *)
Lemma answer_may_create convId f q r fault tb :
  pending_ok {| frame := f; query := q; response := None |} →
  r = (run_query q fault tb).2 →
  (length (match q, error r with
           | Upsert row, None => if is_create convId row then [row] else []
           | _, _ => []
           end)
   + may_create convId {| frame := f; query := q; response := Some r |}
   ≤ may_create convId {| frame := f; query := q; response := None |})%nat.
Proof.
  unfold pending_ok, may_create. cbn [frame query response]. intros Hok ->.
  destruct f as [s c cb u ce|s c cb ce|s c|s c cb u m|s c m].
  - subst q. cbn. lia.
  - destruct Hok as [t ->]. destruct fault as [e|]; cbn [run_query snd error]; [cbn; lia|].
    unfold is_create. cbn [live_chat_id new_conversation_row].
    case_decide as Hc; case_bool_decide as Hi; cbn; try lia.
    destruct Hi as [Hi _]. done.
  - subst q. cbn. lia.
  - subst q. cbn. lia.
  - destruct Hok as (cb & u & cur & ->). destruct fault as [e|]; cbn [run_query snd error];
      [cbn; lia|].
    unfold is_create. cbn [created_at updated_row]. 
    case_bool_decide as H; [|cbn; lia]. by destruct H as (_ & _ & ?).
Qed.

Lemma step_creates_bounded convId ls sys l :
  creates_bounded convId ls sys → creates_bounded convId (ls ++ [l]) (step sys l).
Proof.
  intros [Hok Hle]. split; [by apply step_pending_ok|].
  rewrite joins_delivered_snoc.
  destruct l as [socket ev now|i fault|i now|now]; cbn [step].
  - pose proof (handler_may_create convId socket ev now (leave_rooms socket ev (state sys)))
      as Hnew.
    destruct (handler socket ev now _) as [[st out] next]. cbn [trace pending snd] in *.
    rewrite creates_app, creates_emitted, app_nil_r, sum_list_with_app, Hnew. lia.
  - cbn [delivers_join].
    destruct (pending sys !! i) as [[f q [r|]]|] eqn:Ei; try lia.
    pose proof (Forall_lookup_1 _ _ _ _ Hok Ei) as Hq.
    pose proof (answer_may_create convId f q (run_query q fault (table sys)).2 fault
                  (table sys) Hq eq_refl) as Hans.
    destruct (run_query q fault (table sys)) as [tb' r]. cbn [trace pending snd] in *.
    rewrite creates_snoc_performed, length_app.
    pose proof (sum_list_with_insert (may_create convId) (pending sys) i _
                  {| frame := f; query := q; response := Some r |} Ei) as Hsum.
    lia.
  - cbn [delivers_join].
    destruct (pending sys !! i) as [[f q [r|]]|] eqn:Ei; try lia.
    pose proof (resume_may_create convId f q r now (state sys)) as Hres.
    destruct (resume f r now (state sys)) as [[st out] next]. cbn [trace pending snd] in *.
    rewrite creates_app, creates_emitted, app_nil_r.
    destruct next as [n|]; cbn in Hres.
    + pose proof (sum_list_with_insert (may_create convId) (pending sys) i _ (suspend n) Ei)
        as Hsum. lia.
    + pose proof (sum_list_with_delete (may_create convId) (pending sys) i _ Ei) as Hsum. lia.
  - cbn [delivers_join].
    destruct (evict_inactive now (state sys)) as [st out]. cbn [trace pending].
    rewrite creates_app, creates_emitted, app_nil_r. lia.
Qed.

Lemma boot_creates_bounded convId tb0 ls : creates_bounded convId ls (exec (boot tb0) ls).
Proof.
  induction ls as [|l ls IH] using rev_ind.
  - split; [constructor | cbn; lia].
  - rewrite exec_app. cbn. by apply step_creates_bounded.
Qed.

(** A [customer:join] handled from start to finish performs the creating
    writes of [created_by_join] and leaves the log read for its conversation
    as it was. *)
Lemma run_customer_join_creates sys socket p now0 fault1 now1 fault2 now2 :
  let sys' :=
    exec sys (handle (length (pending sys)) socket (customer_join_ev p)
                now0 fault1 now1 fault2 now2) in
  creates (cj_convId p) (trace sys')
  = creates (cj_convId p) (trace sys) ++ created_by_join p fault1 now1 fault2 (table sys)
  ∧ read_log (cj_convId p) (table sys') = read_log (cj_convId p) (table sys)
  ∧ pending sys' = pending sys.
Proof.
  destruct sys as [st tb ps tr]. cbv zeta. cbn [pending table trace].
  rewrite run_customer_join. cbv zeta. unfold created_by_join.
  destruct fault1 as [e1|].
  { cbn [trace table pending]. rewrite creates_app. split; [by f_equal|done]. }
  destruct (messages_length (read_log (cj_convId p) tb)) as [len|err] eqn:Elen.
  2:{ cbn [trace table pending]. rewrite creates_app. split; [by f_equal|done]. }
  destruct len as [|len]; cbn [Nat.eqb].
  2:{ cbn [trace table pending]. rewrite !creates_app, creates_emitted.
      split; [by f_equal|done]. }
  destruct fault2 as [e2|].
  { cbn [trace table pending]. rewrite creates_app. split; [by f_equal|done]. }
  cbn [trace table pending]. split; [|split; [|done]].
  - rewrite !creates_app, creates_emitted. f_equal. unfold creates.
    replace (writes [performed (Select (cj_convId p)) None;
                     performed (Upsert (new_conversation_row (cj_convId p) (cj_customerEmail p)
                                          (cj_chatbotId p) now1)) None])
      with [new_conversation_row (cj_convId p) (cj_customerEmail p) (cj_chatbotId p) now1]
      by reflexivity.
    rewrite filter_cons_True by apply is_create_new_conversation_row. done.
  - assert (read_log (cj_convId p) tb = json_obj (Some [])) as ->.
    { destruct (read_log (cj_convId p) tb) as [|[[|m l]|]]; by inversion Elen. }
    unfold read_log.
    pose proof (stored_log_upsert_eq
                  (new_conversation_row (cj_convId p) (cj_customerEmail p) (cj_chatbotId p) now1)
                  tb) as H.
    cbn [live_chat_id new_conversation_row live_message] in H. by rewrite H.
Qed.

(** C3, as the code has it.  Start from a server whose table has one row per
    conversation at most and whose index is well formed.  (1) Whatever
    events arrive and however their handlers interleave, the table never
    holds two rows and the snapshot never holds two summaries for the same
    conversation.  (2) A [customer:join] handled from start to finish runs
    the creating [upsert] at most once, and only when its read succeeds and
    returns an empty log and the [upsert] itself succeeds
    ([created_by_join]); on a conversation that has messages, on an unusable
    log and after a failed read it performs no creating write.  It leaves
    the log read for its conversation as it was, so a second join of a
    conversation still without messages creates again and a join after the
    first stored message never does.  (3) On a running server, under every
    schedule, the creating writes performed for a conversation never
    outnumber the [customer:join] events delivered for it: at most two for
    two joins. *)
Theorem join_is_idempotent_on_records :
  ∀ (sys : System) (convId : string),
    table_unique (table sys) →
    index_ok (index sys) →
    (∀ ls,
       let sys' := exec sys ls in
       (length (rows_of convId (table sys')) ≤ 1)%nat
       ∧ (length (filter (λ conv, c_convId conv = convId) (snapshot (state sys'))) ≤ 1)%nat)
    ∧ (∀ socket p now0 fault1 now1 fault2 now2,
         cj_convId p = convId →
         let sys' :=
           exec sys (handle (length (pending sys)) socket (customer_join_ev p)
                       now0 fault1 now1 fault2 now2) in
         creates convId (trace sys')
         = creates convId (trace sys) ++ created_by_join p fault1 now1 fault2 (table sys)
         ∧ (length (created_by_join p fault1 now1 fault2 (table sys)) ≤ 1)%nat
         ∧ (created_by_join p fault1 now1 fault2 (table sys) ≠ [] →
            fault1 = None ∧ fault2 = None
            ∧ read_log convId (table sys) = json_obj (Some []))
         ∧ (fault1 = None → fault2 = None →
            read_log convId (table sys) = json_obj (Some []) →
            created_by_join p fault1 now1 fault2 (table sys)
            = [new_conversation_row convId (cj_customerEmail p) (cj_chatbotId p) now1])
         ∧ read_log convId (table sys') = read_log convId (table sys)
         ∧ pending sys' = pending sys)
    ∧ (∀ tb0 ls,
         (length (creates convId (trace (exec (boot tb0) ls))) ≤ joins_delivered convId ls)%nat).
Proof.
  intros sys convId Hu Hok. split; [|split].
  - intros ls. cbv zeta.
    assert (table_unique (table (exec sys ls)) ∧ index_ok (index (exec sys ls))) as [Hu' Hok'].
    { apply (exec_invariant (λ s, table_unique (table s) ∧ index_ok (index s))); [|done].
      intros s l [? ?]. split; [by apply step_table_unique | by apply step_index_ok]. }
    split; [by apply rows_of_unique | by apply index_ok_count].
  - intros socket p now0 fault1 now1 fault2 now2 <-. cbv zeta.
    destruct (run_customer_join_creates sys socket p now0 fault1 now1 fault2 now2)
      as (Hc & Hr & Hp).
    split; [exact Hc|]. split; [|split; [|split; [|by split]]].
    + unfold created_by_join.
      destruct (messages_length (read_log (cj_convId p) (table sys))) as [[|?]|];
        destruct fault1, fault2; cbn; lia.
    + unfold created_by_join.
      destruct (messages_length (read_log (cj_convId p) (table sys))) as [[|?]|] eqn:Elen;
        destruct fault1, fault2; try done.
      intros _. split; [done|]. split; [done|].
      destruct (read_log (cj_convId p) (table sys)) as [|[[|m l]|]]; by inversion Elen.
    + intros -> -> Hread. unfold created_by_join. by rewrite Hread.
  - intros tb0 ls. destruct (boot_creates_bounded convId tb0 ls) as [_ Hle]. lia.
Qed.

Lemma join_is_idempotent_on_records_witness :
  (table_unique (table (boot [])) ∧ index_ok (index (boot [])))
  ∧ (let sys' :=
       exec (boot [])
            (handle 0 "a" (customer_join_ev join_c1) 10 None 11 None 12
             ++ handle 0 "b" (customer_join_ev join_c1) 20 None 21 None 22) in
     (length (rows_of "c1" (table sys')) ≤ 1)%nat
     ∧ (length (filter (λ conv, c_convId conv = "c1") (snapshot (state sys'))) ≤ 1)%nat).
Proof.
  assert (table_unique (table (boot []))) as Hu by apply NoDup_nil_2.
  assert (index_ok (index (boot []))) as Hok.
  { split; [apply NoDup_nil_2|]. intros k conv Hin. by apply elem_of_nil in Hin. }
  split; [by split|].
  exact (proj1 (join_is_idempotent_on_records (boot []) "c1" Hu Hok) _).
Defined.

(* ===================================================================== *)
(** ** Whole handlings of the remaining events *)
(* ===================================================================== *)

(** An [agent:join] handled from start to finish. *)
Lemma run_agent_join st tb ps tr socket convId now0 fault1 now1 fault2 now2 :
  exec {| state := st; table := tb; pending := ps; trace := tr |}
       (handle (length ps) socket (agent_join_ev convId) now0 fault1 now1 fault2 now2)
  = match fault1 with
    | Some e1 =>
        {| state := st; table := tb; pending := ps;
           trace := tr ++ [performed (Select convId) (Some e1);
                           emitted (socket_emit socket
                                      (ev_error "Failed to join conversation"))] |}
    | None =>
        {| state := socket_join socket (conv_room convId)
                      (agents_set socket {| as_convId := convId |} st);
           table := tb; pending := ps;
           trace := tr ++ [performed (Select convId) None] |}
    end.
Proof.
  unfold exec, handle. cbn [foldl]. rewrite step_deliver.
  cbn -[step]. rewrite ?app_nil_r. rewrite step_answer_last, step_resume_last.
  cbn [resume]. unfold agent_join_after_read.
  destruct fault1 as [e1|].
  - rewrite getConversationMessages_fault. cbn -[step]. rewrite ?app_nil_r.
    rewrite step_answer_idle, step_resume_idle. by rewrite <- app_assoc.
  - rewrite getConversationMessages_read. cbn -[step]. rewrite ?app_nil_r.
    by rewrite step_answer_idle, step_resume_idle.
Qed.

(** A [disconnect] handled from start to finish: it never waits. *)
Lemma run_disconnect st tb ps tr socket now0 fault1 now1 fault2 now2 :
  exec {| state := st; table := tb; pending := ps; trace := tr |}
       (handle (length ps) socket disconnect_ev now0 fault1 now1 fault2 now2)
  = {| state := (disconnect socket (leave_rooms socket disconnect_ev st)).1.1;
       table := tb; pending := ps; trace := tr |}.
Proof.
  unfold exec, handle. cbn [foldl]. rewrite step_deliver.
  cbn -[step]. rewrite ?app_nil_r.
  by rewrite step_answer_idle, step_resume_idle, step_answer_idle, step_resume_idle.
Qed.

(* ===================================================================== *)
(** ** Outcomes of the join events *)
(* ===================================================================== *)

(** X1.  [agent:join] depends on the read call only, not on what it returns.
    When the read succeeds, whatever the table holds for the conversation (no
    row, a [null] log, any log), the agent session [{ convId }] is stored
    under the socket, the socket joins the room of the conversation, nothing
    is emitted and nothing is written.  When the read fails, the process state
    is unchanged and the socket gets [error "Failed to join conversation"].
    In both cases the table, the index and the customer sessions stay as
    they were. *)
Theorem agent_join_outcome :
  ∀ (sys : System) (socket convId : string)
    (now0 : Z) (fault1 : option Error) (now1 : Z) (fault2 : option Error) (now2 : Z),
    let sys' :=
      exec sys (handle (length (pending sys)) socket (agent_join_ev convId)
                  now0 fault1 now1 fault2 now2) in
    table sys' = table sys
    ∧ index sys' = index sys
    ∧ customers (sessions (state sys')) = customers (sessions (state sys))
    ∧ pending sys' = pending sys
    ∧ writes (trace sys') = writes (trace sys)
    ∧ match fault1 with
      | None =>
          lookup_sessions socket (state sys')
          = (customers (sessions (state sys)) !! socket, Some {| as_convId := convId |})
          ∧ subscribed (state sys') socket (conv_room convId)
          ∧ (∀ s room, subscribed (state sys) s room → subscribed (state sys') s room)
          ∧ emits (trace sys') = emits (trace sys)
      | Some _ =>
          state sys' = state sys
          ∧ emits (trace sys')
            = emits (trace sys)
                ++ [socket_emit socket (ev_error "Failed to join conversation")]
      end.
Proof.
  intros [st tb ps tr] socket convId now0 fault1 now1 fault2 now2. cbv zeta.
  cbn [pending]. rewrite run_agent_join. unfold index, lookup_sessions, subscribed.
  destruct fault1 as [e1|]; cbn [state table pending trace sessions customers agents
                                 socket_join agents_set rooms conversations].
  - repeat split; try done.
    + rewrite writes_app. cbn. by rewrite app_nil_r.
    + by rewrite emits_app.
  - repeat split; try done.
    + rewrite writes_app. cbn. by rewrite app_nil_r.
    + by rewrite lookup_insert_eq.
    + rewrite lookup_total_insert_eq. set_solver.
    + intros s room Hs. destruct (decide (socket = s)) as [->|Hne].
      * rewrite lookup_total_insert_eq. set_solver.
      * by rewrite lookup_total_insert_ne.
    + rewrite emits_app. cbn. by rewrite app_nil_r.
Qed.

(** X2.  A [customer:join] whose read finds no message for the conversation
    (no row, or an empty log) and whose [upsert] succeeds: the table gets the
    row of a new conversation with an empty log; the index entry of the
    conversation is set to [{ convId, chatbotId, customerEmail, timestamp,
    lastMessage: null }], replacing whatever entry it had while every other
    entry stays; the customer session is stored under the socket and the
    socket joins the room; then the snapshot goes to everybody and
    [chat:joined] to the socket, in that order. *)
Theorem customer_join_new_conversation :
  ∀ (sys : System) (socket : string) (p : CustomerJoin) (now0 now1 now2 : Z),
    read_log (cj_convId p) (table sys) = json_obj (Some []) →
    let convId := cj_convId p in
    let entry :=
      {| c_convId := convId; c_chatbotId := cj_chatbotId p;
         c_customerEmail := cj_customerEmail p; c_timestamp := now2;
         c_lastMessage := None |} in
    let sys' :=
      exec sys (handle (length (pending sys)) socket (customer_join_ev p)
                  now0 None now1 None now2) in
    table sys'
    = table_upsert (new_conversation_row convId (cj_customerEmail p) (cj_chatbotId p) now1)
        (table sys)
    ∧ index sys' = Map_set convId entry (index sys)
    ∧ Map_get convId (index sys') = Some entry
    ∧ (∀ other, other ≠ convId → Map_get other (index sys') = Map_get other (index sys))
    ∧ lookup_sessions socket (state sys')
      = (Some {| cs_convId := convId; cs_chatbotId := cj_chatbotId p;
                 cs_userId := cj_userId p; cs_customerEmail := cj_customerEmail p |},
         agents (sessions (state sys)) !! socket)
    ∧ subscribed (state sys') socket (conv_room convId)
    ∧ emits (trace sys')
      = emits (trace sys)
          ++ [io_emit (ev_chat_updated (snapshot (state sys')));
              socket_emit socket (ev_chat_joined convId (cj_customerEmail p))].
Proof.
  intros [st tb ps tr] socket p now0 now1 now2 Hread. cbv zeta.
  cbn [pending table] in *. rewrite run_customer_join. cbv zeta. rewrite Hread.
  cbn [messages_length length Nat.eqb]. unfold index, lookup_sessions, subscribed.
  cbn [state table trace customer_join_after_create error customer_join_finish fst snd
       socket_join with_conversations customers_set sessions customers agents rooms
       conversations].
  repeat split.
  - apply Map_get_set_eq.
  - intros other Hne. by apply Map_get_set_ne.
  - by rewrite lookup_insert_eq.
  - rewrite lookup_total_insert_eq. set_solver.
  - rewrite !emits_app, emits_emitted. cbn. done.
Qed.

Lemma customer_join_new_conversation_witness :
  read_log (cj_convId join_c1) (table (boot [])) = json_obj (Some [])
  ∧ table (exec (boot []) (handle 0 "a" (customer_join_ev join_c1) 10 None 11 None 12))
    = [new_conversation_row "c1" "e@x" "bot" 11].
Proof.
  split; [reflexivity|].
  exact (proj1 (customer_join_new_conversation (boot []) "a" join_c1 10 11 12 eq_refl)).
Defined.

(** X3.  A [customer:join] for a conversation that already has messages in
    the table: no [upsert] is sent, and the table and the index are left as
    they were, also when the index does not hold the conversation.  The
    customer session is stored, the socket joins the room, the unchanged
    snapshot goes to everybody and [chat:joined] to the socket.  The outcome
    does not depend on a failure of a second store call, there being none. *)
Theorem customer_join_existing_conversation :
  ∀ (sys : System) (socket : string) (p : CustomerJoin) (now0 now1 now2 : Z)
    (fault2 : option Error) (m : Message) (l : list Message),
    read_log (cj_convId p) (table sys) = json_obj (Some (m :: l)) →
    let convId := cj_convId p in
    let sys' :=
      exec sys (handle (length (pending sys)) socket (customer_join_ev p)
                  now0 None now1 fault2 now2) in
    table sys' = table sys
    ∧ writes (trace sys') = writes (trace sys)
    ∧ index sys' = index sys
    ∧ lookup_sessions socket (state sys')
      = (Some {| cs_convId := convId; cs_chatbotId := cj_chatbotId p;
                 cs_userId := cj_userId p; cs_customerEmail := cj_customerEmail p |},
         agents (sessions (state sys)) !! socket)
    ∧ subscribed (state sys') socket (conv_room convId)
    ∧ emits (trace sys')
      = emits (trace sys)
          ++ [io_emit (ev_chat_updated (snapshot (state sys)));
              socket_emit socket (ev_chat_joined convId (cj_customerEmail p))].
Proof.
  intros [st tb ps tr] socket p now0 now1 now2 fault2 m l Hread. cbv zeta.
  cbn [pending table] in *. rewrite run_customer_join. cbv zeta. rewrite Hread.
  cbn [messages_length length Nat.eqb]. unfold index, lookup_sessions, subscribed.
  cbn [state table trace customer_join_finish fst snd
       socket_join with_conversations customers_set sessions customers agents rooms
       conversations].
  repeat split.
  - rewrite !writes_app, writes_emitted. cbn. by rewrite !app_nil_r.
  - by rewrite lookup_insert_eq.
  - rewrite lookup_total_insert_eq. set_solver.
  - rewrite !emits_app, emits_emitted. cbn. done.
Qed.

Lemma customer_join_existing_conversation_witness :
  read_log (cj_convId join_c1) (table (boot table_with_history))
  = json_obj (Some [new_message hello 30])
  ∧ table (exec (boot table_with_history)
             (handle 0 "a" (customer_join_ev join_c1) 50 None 51 None 52))
    = table_with_history.
Proof.
  split; [reflexivity|].
  exact (proj1 (customer_join_existing_conversation (boot table_with_history) "a" join_c1
                  50 51 52 None (new_message hello 30) [] eq_refl)).
Defined.

(** X4.  The two handlers treat a stored log without a usable [messages]
    array differently.  On a row whose [live_message] has no [messages] key,
    [customer:join] fails ([messages.length] of undefined): it emits
    [error "Failed to join chat session"] and changes nothing, while
    [message:send] takes the log as empty ([messages || []]), writes the log
    holding the new message alone and sends it to the room.  On a row whose
    [live_message] is [null], both fail without changing anything. *)
Theorem log_without_messages_join_fails_send_succeeds :
  ∀ (sys : System) (socket : string) (j : CustomerJoin) (p : MessageSend)
    (now0 now1 now2 : Z) (fault2 : option Error),
    let joined :=
      exec sys (handle (length (pending sys)) socket (customer_join_ev j)
                  now0 None now1 fault2 now2) in
    let sent :=
      exec sys (handle (length (pending sys)) socket (message_send_ev p)
                  now0 None now1 None now2) in
    (stored_log (cj_convId j) (table sys) = Some (json_obj None)
     ∨ stored_log (cj_convId j) (table sys) = Some json_null →
     state joined = state sys ∧ table joined = table sys
     ∧ emits (trace joined)
       = emits (trace sys) ++ [socket_emit socket (ev_error "Failed to join chat session")])
    ∧ (stored_log (ms_convId p) (table sys) = Some (json_obj None) →
       stored_log (ms_convId p) (table sent) = Some (json_obj (Some [new_message p now0]))
       ∧ io_to_emit (conv_room (ms_convId p)) (ev_message_received (new_message p now0))
         ∈ emits (trace sent))
    ∧ (stored_log (ms_convId p) (table sys) = Some json_null →
       state sent = state sys ∧ table sent = table sys
       ∧ emits (trace sent)
         = emits (trace sys) ++ [socket_emit socket (ev_error "Failed to send message")]).
Proof.
  intros [st tb ps tr] socket j p now0 now1 now2 fault2. cbv zeta.
  cbn [pending table]. rewrite run_customer_join, run_message_send. cbv zeta.
  unfold read_log. split; [|split].
  - intros [-> | ->]; cbn [from_option id messages_length state table trace];
      by rewrite emits_app.
  - intros ->. cbn [from_option id messages_or_empty app].
    unfold message_send_after_write. cbn [error].
    split.
    + destruct (Map_get _ _); cbn [table];
        apply (stored_log_upsert_eq
                 (updated_row (ms_convId p) (ms_chatbotId p) (ms_userId p)
                    (json_obj (Some [new_message p now0])))).
    + destruct (Map_get _ _); cbn [trace]; rewrite !emits_app;
        apply elem_of_app; right; cbn; apply list_elem_of_here.
  - intros ->. cbn [from_option id messages_or_empty state table trace]. by rewrite emits_app.
Qed.

Lemma log_without_messages_join_fails_send_succeeds_witness :
  stored_log "c1" (table (boot table_without_messages)) = Some (json_obj None)
  ∧ emits (trace (exec (boot table_without_messages)
                    (handle 0 "a" (customer_join_ev join_c1) 10 None 11 None 12)))
    = [socket_emit "a" (ev_error "Failed to join chat session")]
  ∧ stored_log "c1" (table (exec (boot table_without_messages)
                              (handle 0 "a" (message_send_ev hello) 10 None 11 None 12)))
    = Some (json_obj (Some [new_message hello 10])).
Proof.
  pose proof (log_without_messages_join_fails_send_succeeds
                (boot table_without_messages) "a" join_c1 hello 10 11 12 None) as H.
  cbv zeta in H. destruct H as (Hj & Hs & _).
  split; [reflexivity|]. split.
  - exact (proj2 (proj2 (Hj (or_introl eq_refl)))).
  - exact (proj1 (Hs eq_refl)).
Defined.

(* ===================================================================== *)
(** ** The index against the table when events are handled in turn *)
(* ===================================================================== *)

Lemma last_agrees_create idx tb convId entry row :
  live_chat_id row = convId → c_lastMessage entry = None →
  last_agrees idx tb → last_agrees (Map_set convId entry idx) (table_upsert row tb).
Proof.
  intros Hrow Hnone Hla c conv m Hget Hlast.
  destruct (decide (convId = c)) as [->|Hne].
  - rewrite Map_get_set_eq in Hget. congruence.
  - rewrite Map_get_set_ne in Hget by done.
    rewrite stored_log_upsert_ne by congruence. by eapply Hla.
Qed.

Lemma last_agrees_touch idx tb convId chatbotId userId current message now conv0 :
  last_agrees idx tb →
  last_agrees (touch convId message now conv0 idx)
    (table_upsert (updated_row convId chatbotId userId
                     (json_obj (Some (current ++ [message])))) tb).
Proof.
  intros Hla c conv m Hget Hlast. unfold touch in Hget.
  destruct (decide (convId = c)) as [->|Hne].
  - rewrite Map_get_set_eq in Hget. inversion Hget; subst conv. cbn in Hlast.
    inversion Hlast; subst m. exists current.
    apply (stored_log_upsert_eq
             (updated_row c chatbotId userId (json_obj (Some (current ++ [message]))))).
  - rewrite Map_get_set_ne in Hget by done.
    rewrite stored_log_upsert_ne by done. by eapply Hla.
Qed.

Lemma last_agrees_unindexed idx tb row :
  Map_get (live_chat_id row) idx = None →
  last_agrees idx tb → last_agrees idx (table_upsert row tb).
Proof.
  intros Hnone Hla c conv m Hget Hlast.
  destruct (decide (live_chat_id row = c)) as [E|Hne]; [congruence|].
  rewrite stored_log_upsert_ne by done. by eapply Hla.
Qed.

Lemma last_agrees_filter (P : string * Conversation → Prop) `{!∀ e, Decision (P e)} idx tb :
  Map_wf idx → last_agrees idx tb → last_agrees (filter P idx) tb.
Proof.
  intros Hwf Hla c conv m Hget Hlast. apply (Hla c conv m); [|done].
  apply Map_get_elem in Hget. apply list_elem_of_filter in Hget as [_ Hin].
  by apply Map_elem_get.
Qed.

Lemma turn_keeps_last_agrees sys t :
  pending sys = [] → Map_wf (index sys) → last_agrees (index sys) (table sys) →
  let sys' := exec sys (turn_labels t) in
  pending sys' = [] ∧ last_agrees (index sys') (table sys').
Proof.
  destruct sys as [st tb ps tr]. unfold index. cbn [pending state table sessions].
  intros -> Hwf Hla. cbv zeta.
  destruct t as [socket ev now0 fault1 now1 fault2 now2|now]; cbn [turn_labels].
  - change 0%nat with (length (@nil Pending)).
    destruct ev as [p|c|p|].
    + rewrite run_customer_join. cbv zeta.
      destruct fault1 as [e1|]; [done|].
      destruct (messages_length _) as [len|]; [|done].
      destruct (Nat.eqb len 0); [|done].
      destruct fault2 as [e2|]; [done|].
      split; [done|]. cbn. by apply last_agrees_create.
    + rewrite run_agent_join. by destruct fault1.
    + rewrite run_message_send. cbv zeta.
      destruct fault1 as [e1|]; [done|].
      destruct (messages_or_empty _) as [current|]; [|done].
      destruct fault2 as [e2|]; [done|].
      unfold message_send_after_write. cbn [error].
      destruct (Map_get (ms_convId p) (conversations (sessions st))) as [conv0|] eqn:E.
      * split; [done|]. cbn. by apply last_agrees_touch.
      * split; [done|]. cbn. by apply last_agrees_unindexed.
    + rewrite run_disconnect. split; [done|]. cbn.
      by destruct (customers (sessions st) !! socket), (agents (sessions st) !! socket).
  - cbn. split; [done|]. rewrite evict_loop_self by done. by apply last_agrees_filter.
Qed.

(** X5.  On a server that handles its events one at a time (each event to
    its end before the next, sweeps in between), started on any table: after
    every such run no handler is left waiting, and an index entry whose
    [lastMessage] is set carries the last message of the log stored for its
    conversation.  Store failures at any point do not break this. *)
Theorem sequential_last_message_is_last_stored :
  ∀ (tb0 : list Row) (ts : list Turn),
    let sys := exec (boot tb0) (sequential ts) in
    pending sys = []
    ∧ ∀ (convId : string) (conv : Conversation) (m : Message),
        Map_get convId (index sys) = Some conv →
        c_lastMessage conv = Some m →
        ∃ current, stored_log convId (table sys) = Some (json_obj (Some (current ++ [m]))).
Proof.
  intros tb0 ts sys.
  assert (pending sys = [] ∧ last_agrees (index sys) (table sys)) as [Hp Hla].
  { unfold sys. clear sys.
    assert (pending (boot tb0) = [] ∧ last_agrees (index (boot tb0)) (table (boot tb0)))
      as Hinit by (split; [done | by intros c conv' m' Hget]).
    assert (index_ok (index (boot tb0))) as Hok0.
    { split; [apply NoDup_nil_2|]. intros k conv' Hin. by apply elem_of_nil in Hin. }
    revert Hinit Hok0. generalize (boot tb0).
    induction ts as [|t ts IH]; intros sys0 Hinit Hok0; [done|].
    unfold sequential. rewrite fmap_cons. cbn [concat]. rewrite exec_app.
    apply IH.
    - destruct Hinit as [Hp Hla]. apply turn_keeps_last_agrees; [done | apply Hok0 | done].
    - apply (exec_invariant (λ s, index_ok (index s))); [apply step_index_ok | done]. }
  split; [done|]. intros convId conv m Hget Hlast. by eapply Hla.
Qed.

Lemma sequential_last_message_is_last_stored_witness :
  let sys :=
    exec (boot []) (sequential [turn_event "a" (customer_join_ev join_c1) 10 None 11 None 12;
                                turn_event "a" (message_send_ev hello) 30 None 31 None 32]) in
  pending sys = []
  ∧ Map_get "c1" (index sys)
    = Some {| c_convId := "c1"; c_chatbotId := "bot"; c_customerEmail := "e@x";
              c_timestamp := 32; c_lastMessage := Some (new_message hello 30) |}
  ∧ ∃ current,
      stored_log "c1" (table sys) = Some (json_obj (Some (current ++ [new_message hello 30]))).
Proof.
  cbv zeta.
  pose proof (sequential_last_message_is_last_stored []
                [turn_event "a" (customer_join_ev join_c1) 10 None 11 None 12;
                 turn_event "a" (message_send_ev hello) 30 None 31 None 32]) as H.
  cbv zeta in H. destruct H as [Hp Hla].
  split; [exact Hp|]. split; [reflexivity|].
  exact (Hla "c1" _ (new_message hello 30) eq_refl eq_refl).
Defined.

(* ===================================================================== *)
(** ** Overlapping handlers on one conversation *)
(* ===================================================================== *)

Lemma emits_cons_performed q err tr : emits (performed q err :: tr) = emits tr.
Proof. reflexivity. Qed.

Lemma length_snoc {A} (l : list A) (x : A) : length (l ++ [x]) = S (length l).
Proof. rewrite length_app. cbn. lia. Qed.

(** A [message:send] from its delivery to the point where it waits for its
    write. *)
Lemma send_until_write st tb ps tr socket p t t' current :
  messages_or_empty (read_log (ms_convId p) tb) = Ok current →
  exec {| state := st; table := tb; pending := ps; trace := tr |}
       [Deliver socket (message_send_ev p) t; Answer (length ps) None; Resume (length ps) t']
  = {| state := st; table := tb;
       pending :=
         ps ++ [suspend (message_send_writing socket (ms_convId p) (new_message p t),
                         Upsert (updated_row (ms_convId p) (ms_chatbotId p) (ms_userId p)
                                   (json_obj (Some (current ++ [new_message p t])))))];
       trace := tr ++ [performed (Select (ms_convId p)) None] |}.
Proof.
  intros Hread. unfold exec. cbn [foldl]. rewrite step_deliver.
  cbn -[step]. rewrite ?app_nil_r. rewrite step_answer_last, step_resume_last.
  cbn [resume]. unfold message_send_after_read.
  rewrite getConversationMessages_read, Hread. cbn. by rewrite app_nil_r.
Qed.

(** The rest of a [message:send] whose write succeeds. *)
Lemma send_from_write st tb ps tr socket convId message row t :
  exec {| state := st; table := tb;
          pending := ps ++ [suspend (message_send_writing socket convId message, Upsert row)];
          trace := tr |}
       [Answer (length ps) None; Resume (length ps) t]
  = {| state := (message_send_after_write socket convId message
                   {| data := None; error := None |} t st).1.1;
       table := table_upsert row tb; pending := ps;
       trace := tr ++ [performed (Upsert row) None]
                   ++ (emitted <$> (message_send_after_write socket convId message
                                      {| data := None; error := None |} t st).1.2) |}.
Proof.
  unfold exec. cbn [foldl]. rewrite step_answer_last, step_resume_last.
  cbn [resume run_query fst snd]. unfold message_send_after_write. cbn [error].
  destruct (Map_get convId (conversations (sessions st))); cbn;
    by rewrite app_nil_r, <- app_assoc.
Qed.

(** A [customer:join] from its delivery to the point where it waits for the
    [upsert] of a new conversation. *)
Lemma join_until_create st tb ps tr socket p t t' :
  read_log (cj_convId p) tb = json_obj (Some []) →
  exec {| state := st; table := tb; pending := ps; trace := tr |}
       [Deliver socket (customer_join_ev p) t; Answer (length ps) None; Resume (length ps) t']
  = {| state := customers_set socket
                  {| cs_convId := cj_convId p; cs_chatbotId := cj_chatbotId p;
                     cs_userId := cj_userId p; cs_customerEmail := cj_customerEmail p |} st;
       table := tb;
       pending :=
         ps ++ [suspend (customer_join_creating socket (cj_convId p) (cj_chatbotId p)
                           (cj_customerEmail p),
                         Upsert (new_conversation_row (cj_convId p) (cj_customerEmail p)
                                   (cj_chatbotId p) t'))];
       trace := tr ++ [performed (Select (cj_convId p)) None] |}.
Proof.
  intros Hread. unfold exec. cbn [foldl]. rewrite step_deliver.
  cbn -[step]. rewrite ?app_nil_r. rewrite step_answer_last, step_resume_last.
  cbn [resume]. unfold customer_join_after_read.
  rewrite getConversationMessages_read, Hread. cbn. by rewrite app_nil_r.
Qed.

(** The rest of a [customer:join] whose [upsert] succeeds. *)
Lemma join_from_create st tb ps tr socket convId chatbotId customerEmail row t :
  exec {| state := st; table := tb;
          pending := ps ++ [suspend (customer_join_creating socket convId chatbotId
                                       customerEmail, Upsert row)];
          trace := tr |}
       [Answer (length ps) None; Resume (length ps) t]
  = {| state := (customer_join_after_create socket convId chatbotId customerEmail
                   {| data := None; error := None |} t st).1.1;
       table := table_upsert row tb; pending := ps;
       trace := tr ++ [performed (Upsert row) None]
                   ++ (emitted <$> (customer_join_after_create socket convId chatbotId
                                      customerEmail {| data := None; error := None |}
                                      t st).1.2) |}.
Proof.
  unfold exec. cbn [foldl]. rewrite step_answer_last, step_resume_last.
  cbn [resume run_query fst snd]. cbn. by rewrite app_nil_r, <- app_assoc.
Qed.

(** X6.  The read-modify-write of [message:send] loses a message when two
    sends to one conversation overlap.  If the first send has read the log
    [current] and the second is handled completely before the first one's
    write is performed, both writes succeed and both messages are sent to
    the room, but the log stored in the end is [current] followed by the
    first message only: the second message is overwritten. *)
Theorem overlapping_sends_lose_a_message :
  ∀ (sys : System) (socket1 socket2 convId : string) (p1 p2 : MessageSend)
    (t1 t1' t1'' t2 t2' t2'' : Z) (current : list Message),
    ms_convId p1 = convId → ms_convId p2 = convId →
    messages_or_empty (read_log convId (table sys)) = Ok current →
    let m1 := new_message p1 t1 in
    let m2 := new_message p2 t2 in
    let sys' :=
      exec sys (overlapping_sends (length (pending sys)) socket1 socket2 p1 p2
                  t1 t1' t1'' t2 t2' t2'') in
    messages_or_empty (read_log convId (table sys')) = Ok (current ++ [m1])
    ∧ writes (trace sys')
      = writes (trace sys)
          ++ [updated_row convId (ms_chatbotId p2) (ms_userId p2)
                (json_obj (Some (current ++ [m2])));
              updated_row convId (ms_chatbotId p1) (ms_userId p1)
                (json_obj (Some (current ++ [m1])))]
    ∧ io_to_emit (conv_room convId) (ev_message_received m2) ∈ emits (trace sys')
    ∧ io_to_emit (conv_room convId) (ev_message_received m1) ∈ emits (trace sys')
    ∧ pending sys' = pending sys.
Proof.
  intros [st tb ps tr] socket1 socket2 convId p1 p2 t1 t1' t1'' t2 t2' t2'' current
         Hp1 Hp2 Hread. cbv zeta. cbn [pending table] in *. subst convId.
  unfold overlapping_sends. rewrite !exec_app.
  rewrite (send_until_write st tb ps tr socket1 p1 t1 t1' current Hread).
  rewrite <- (length_snoc ps (suspend
     (message_send_writing socket1 (ms_convId p1) (new_message p1 t1),
      Upsert (updated_row (ms_convId p1) (ms_chatbotId p1) (ms_userId p1)
                (json_obj (Some (current ++ [new_message p1 t1]))))))).
  rewrite run_message_send. cbv zeta. rewrite Hp2, Hread.
  destruct (message_send_after_write socket2 _ _ _ _ _) as [[st2 out2] next2] eqn:E2.
  rewrite send_from_write.
  destruct (message_send_after_write socket1 _ _ _ _ _) as [[st1 out1] next1] eqn:E1.
  cbn [fst snd table trace pending].
  assert (io_to_emit (conv_room (ms_convId p1)) (ev_message_received (new_message p2 t2))
          ∈ out2) as Hin2.
  { unfold message_send_after_write in E2. cbn [error] in E2.
    destruct (Map_get _ _); inversion E2; subst; apply list_elem_of_here. }
  assert (io_to_emit (conv_room (ms_convId p1)) (ev_message_received (new_message p1 t1))
          ∈ out1) as Hin1.
  { unfold message_send_after_write in E1. cbn [error] in E1.
    destruct (Map_get _ _); inversion E1; subst; apply list_elem_of_here. }
  split; [apply read_log_after_send|]. split; [|split; [|split; [|done]]].
  - rewrite !writes_app, !writes_emitted. cbn. rewrite !app_nil_r.
    by rewrite <- app_assoc.
  - rewrite !emits_app, !emits_emitted. set_solver.
  - rewrite !emits_app, !emits_emitted. set_solver.
Qed.

Lemma overlapping_sends_lose_a_message_witness :
  (ms_convId hello = "c1" ∧ ms_convId hello_again = "c1"
   ∧ messages_or_empty (read_log "c1" (table (boot []))) = Ok [])
  ∧ messages_or_empty
      (read_log "c1"
         (table (exec (boot [])
                   (overlapping_sends 0 "a" "b" hello hello_again 30 31 32 40 41 42))))
    = Ok [new_message hello 30].
Proof.
  split; [by repeat split|].
  exact (proj1 (overlapping_sends_lose_a_message (boot []) "a" "b" "c1" hello hello_again
                  30 31 32 40 41 42 [] eq_refl eq_refl eq_refl)).
Defined.

(** X7.  A [customer:join] overlapping a [message:send] erases the message.
    If the join has read an empty log for the conversation and a send to the
    same conversation is handled completely before the join's [upsert] is
    performed, the message is written and sent to the room, and then the
    join's [upsert] puts the empty log back: the stored log is empty again
    and the index entry of the conversation has [lastMessage: null]. *)
Theorem join_overlapping_send_erases_the_message :
  ∀ (sys : System) (socketj sockets convId : string) (j : CustomerJoin) (p : MessageSend)
    (tj tj' tj'' ts ts' ts'' : Z),
    cj_convId j = convId → ms_convId p = convId →
    read_log convId (table sys) = json_obj (Some []) →
    let m := new_message p ts in
    let sys' :=
      exec sys (join_overlapping_send (length (pending sys)) socketj sockets j p
                  tj tj' tj'' ts ts' ts'') in
    read_log convId (table sys') = json_obj (Some [])
    ∧ writes (trace sys')
      = writes (trace sys)
          ++ [updated_row convId (ms_chatbotId p) (ms_userId p) (json_obj (Some [m]));
              new_conversation_row convId (cj_customerEmail j) (cj_chatbotId j) tj']
    ∧ io_to_emit (conv_room convId) (ev_message_received m) ∈ emits (trace sys')
    ∧ Map_get convId (index sys')
      = Some {| c_convId := convId; c_chatbotId := cj_chatbotId j;
                c_customerEmail := cj_customerEmail j; c_timestamp := tj'';
                c_lastMessage := None |}
    ∧ pending sys' = pending sys.
Proof.
  intros [st tb ps tr] socketj sockets convId j p tj tj' tj'' ts ts' ts'' Hj Hp Hread.
  cbv zeta. cbn [pending table] in *. subst convId.
  unfold join_overlapping_send. rewrite !exec_app.
  rewrite (join_until_create st tb ps tr socketj j tj tj' Hread).
  rewrite <- (length_snoc ps (suspend
     (customer_join_creating socketj (cj_convId j) (cj_chatbotId j) (cj_customerEmail j),
      Upsert (new_conversation_row (cj_convId j) (cj_customerEmail j) (cj_chatbotId j) tj')))).
  rewrite run_message_send. cbv zeta. rewrite Hp, Hread.
  cbn [messages_or_empty app].
  destruct (message_send_after_write sockets _ _ _ _ _) as [[st2 out2] next2] eqn:E2.
  rewrite join_from_create. unfold index.
  cbn [fst snd table trace pending state customer_join_after_create error
       customer_join_finish socket_join with_conversations sessions conversations].
  assert (io_to_emit (conv_room (cj_convId j)) (ev_message_received (new_message p ts))
          ∈ out2) as Hin2.
  { unfold message_send_after_write in E2. cbn [error] in E2.
    destruct (Map_get _ _); inversion E2; subst; apply list_elem_of_here. }
  split; [|split; [|split; [|split; [|done]]]].
  - unfold read_log.
    pose proof (stored_log_upsert_eq
                  (new_conversation_row (cj_convId j) (cj_customerEmail j) (cj_chatbotId j) tj'))
      as H.
    cbn [live_chat_id new_conversation_row live_message] in H. by rewrite H.
  - rewrite !writes_app, !writes_emitted. cbn.
    change (omap _ (emitted <$> out2)) with (writes (emitted <$> out2)).
    rewrite writes_emitted, !app_nil_r. by rewrite <- app_assoc.
  - rewrite !emits_app, !emits_cons_performed, !emits_emitted. set_solver.
  - apply Map_get_set_eq.
Qed.

Lemma join_overlapping_send_erases_the_message_witness :
  (cj_convId join_c1 = "c1" ∧ ms_convId hello = "c1"
   ∧ read_log "c1" (table (boot [])) = json_obj (Some []))
  ∧ read_log "c1"
      (table (exec (boot [])
                (join_overlapping_send 0 "a" "b" join_c1 hello 10 11 12 30 31 32)))
    = json_obj (Some []).
Proof.
  split; [by repeat split|].
  exact (proj1 (join_overlapping_send_erases_the_message (boot []) "a" "b" "c1" join_c1 hello
                  10 11 12 30 31 32 eq_refl eq_refl eq_refl)).
Defined.

(* ===================================================================== *)
(** ** Sessions and rooms across several events *)
(* ===================================================================== *)

(** A [customer:join] whose store calls succeed on a usable log. *)
Lemma customer_join_success sys socket p now0 now1 now2 len :
  messages_length (read_log (cj_convId p) (table sys)) = Ok len →
  let sys' :=
    exec sys (handle (length (pending sys)) socket (customer_join_ev p)
                now0 None now1 None now2) in
  customers (sessions (state sys')) = <[socket := session_of p]> (customers (sessions (state sys)))
  ∧ agents (sessions (state sys')) = agents (sessions (state sys))
  ∧ rooms (state sys')
    = <[socket := {[conv_room (cj_convId p)]} ∪ (rooms (state sys) !!! socket)]>
        (rooms (state sys))
  ∧ pending sys' = pending sys
  ∧ (table sys' = table sys
     ∨ table sys'
       = table_upsert (new_conversation_row (cj_convId p) (cj_customerEmail p)
                         (cj_chatbotId p) now1) (table sys)).
Proof.
  destruct sys as [st tb ps tr]. cbn [pending table state]. intros Hlen. cbv zeta.
  rewrite run_customer_join. cbv zeta. rewrite Hlen.
  destruct (Nat.eqb len 0); cbn; repeat split; auto.
Qed.

Lemma messages_length_after_create convId row tb len :
  live_message row = json_obj (Some []) →
  messages_length (read_log convId tb) = Ok len →
  ∃ len', messages_length (read_log convId (table_upsert row tb)) = Ok len'.
Proof.
  intros Hrow Hlen. unfold read_log.
  destruct (decide (live_chat_id row = convId)) as [<-|Hne].
  - rewrite stored_log_upsert_eq, Hrow. by eexists.
  - rewrite stored_log_upsert_ne by done. by eexists.
Qed.

(** X8.  The registry keeps one customer session per socket, the rooms add
    up.  When one socket sends [customer:join] twice, for two conversations,
    and both joins succeed, the session stored afterwards is that of the
    second join alone, while the socket is subscribed to the rooms of both
    conversations, and so still gets what is sent to the room of the first. *)
Theorem rejoin_overwrites_session_and_keeps_rooms :
  ∀ (sys : System) (socket : string) (p1 p2 : CustomerJoin)
    (t0 t1 t2 u0 u1 u2 : Z) (len1 len2 : nat),
    messages_length (read_log (cj_convId p1) (table sys)) = Ok len1 →
    messages_length (read_log (cj_convId p2) (table sys)) = Ok len2 →
    let sys1 :=
      exec sys (handle (length (pending sys)) socket (customer_join_ev p1)
                  t0 None t1 None t2) in
    let sys2 :=
      exec sys1 (handle (length (pending sys1)) socket (customer_join_ev p2)
                   u0 None u1 None u2) in
    (lookup_sessions socket (state sys2)).1 = Some (session_of p2)
    ∧ subscribed (state sys2) socket (conv_room (cj_convId p1))
    ∧ subscribed (state sys2) socket (conv_room (cj_convId p2))
    ∧ ∀ e, receives (state sys2) socket (io_to_emit (conv_room (cj_convId p1)) e).
Proof.
  intros sys socket p1 p2 t0 t1 t2 u0 u1 u2 len1 len2 H1 H2 sys1 sys2.
  destruct (customer_join_success sys socket p1 t0 t1 t2 len1 H1)
    as (Hc1 & _ & Hr1 & Hp1 & Ht1). fold sys1 in Hc1, Hr1, Hp1, Ht1.
  assert (∃ len2', messages_length (read_log (cj_convId p2) (table sys1)) = Ok len2')
    as [len2' H2'].
  { destruct Ht1 as [Ht1 | Ht1]; rewrite Ht1.
    - exists len2. exact H2.
    - apply (messages_length_after_create _ _ _ len2); [reflexivity | exact H2]. }
  destruct (customer_join_success sys1 socket p2 u0 u1 u2 len2' H2')
    as (Hc2 & _ & Hr2 & _ & _). fold sys2 in Hc2, Hr2.
  assert (subscribed (state sys2) socket (conv_room (cj_convId p1))) as Hs1.
  { unfold subscribed. rewrite Hr2, lookup_total_insert_eq, Hr1, lookup_total_insert_eq.
    apply elem_of_union. right. apply elem_of_union. left. by apply elem_of_singleton. }
  split; [|split; [done|split; [|by intros e]]].
  - unfold lookup_sessions. cbn [fst]. by rewrite Hc2, lookup_insert_eq.
  - unfold subscribed. rewrite Hr2, lookup_total_insert_eq.
    apply elem_of_union. left. by apply elem_of_singleton.
Qed.

Lemma rejoin_overwrites_session_and_keeps_rooms_witness :
  (messages_length (read_log "c1" (table (boot []))) = Ok 0%nat
   ∧ messages_length (read_log "c2" (table (boot []))) = Ok 0%nat)
  ∧ (lookup_sessions "a"
       (state (exec (boot [])
                 (handle 0 "a" (customer_join_ev join_c1) 10 None 11 None 12
                  ++ handle 0 "a" (customer_join_ev join_c2) 20 None 21 None 22)))).1
    = Some (session_of join_c2).
Proof.
  split; [by split|]. rewrite exec_app.
  exact (proj1 (rejoin_overwrites_session_and_keeps_rooms (boot []) "a" join_c1 join_c2
                  10 11 12 20 21 22 0 0 eq_refl eq_refl)).
Defined.

(** X9.  A [disconnect] does not cancel a handler that is waiting.  If a
    socket disconnects while its [customer:join] waits for the read and the
    read then succeeds on a usable log, the handler runs on and stores the
    customer session of the socket, after the [disconnect] has removed the
    socket's records: the registry holds a session for a closed socket. *)
Theorem join_resumed_after_disconnect_registers_session :
  ∀ (sys : System) (socket : string) (p : CustomerJoin) (t td t' : Z) (len : nat),
    messages_length (read_log (cj_convId p) (table sys)) = Ok len →
    let closed :=
      exec sys [Deliver socket (customer_join_ev p) t; Deliver socket disconnect_ev td] in
    let sys' :=
      exec sys (join_across_disconnect (length (pending sys)) socket p t td t') in
    lookup_sessions socket (state closed) = (None, None)
    ∧ lookup_sessions socket (state sys') = (Some (session_of p), None).
Proof.
  intros [st tb ps tr] socket p t td t' len Hlen. cbv zeta. cbn [pending table] in *.
  unfold join_across_disconnect, exec. cbn [foldl]. rewrite step_deliver.
  cbn -[step]. rewrite ?app_nil_r.
  set (sys1 := {| state := st; table := tb; pending := ps ++ [_]; trace := tr |}).
  assert (step sys1 (Deliver socket disconnect_ev td)
          = {| state := (disconnect socket (leave_rooms socket disconnect_ev st)).1.1;
               table := tb; pending := pending sys1; trace := tr |}) as ->.
  { unfold sys1. cbn. by rewrite !app_nil_r. }
  assert (lookup_sessions socket (disconnect socket (leave_rooms socket disconnect_ev st)).1.1
          = (None, None)) as Hclosed.
  { unfold lookup_sessions. cbn.
    destruct (customers (sessions st) !! socket) eqn:Ec,
             (agents (sessions st) !! socket) eqn:Ea;
      rewrite ?lookup_delete_eq, ?Ec, ?Ea; done. }
  remember (disconnect socket (leave_rooms socket disconnect_ev st)).1.1 as st1 eqn:Est1.
  clear Est1. split; [done|].
  unfold sys1. cbn [pending]. rewrite step_answer_last, step_resume_last.
  cbn [resume]. unfold customer_join_after_read.
  rewrite getConversationMessages_read, Hlen.
  unfold lookup_sessions in *. injection Hclosed as Hc Ha.
  destruct (Nat.eqb len 0); cbn [state customer_join_finish fst snd sessions customers agents
                                 customers_set socket_join];
    by rewrite lookup_insert_eq, Ha.
Qed.

Lemma join_resumed_after_disconnect_registers_session_witness :
  messages_length (read_log "c1" (table (boot table_with_history))) = Ok 1%nat
  ∧ lookup_sessions "a"
      (state (exec (boot table_with_history) (join_across_disconnect 0 "a" join_c1 10 11 12)))
    = (Some (session_of join_c1), None).
Proof.
  split; [reflexivity|].
  exact (proj2 (join_resumed_after_disconnect_registers_session (boot table_with_history)
                  "a" join_c1 10 11 12 1 eq_refl)).
Defined.

(* ===================================================================== *)
(** ** Sweeps *)
(* ===================================================================== *)

(** X10.  Two sweeps in a row act as one sweep at the later of the two clock
    readings: the index keeps exactly the entries not older than one hour at
    that reading.  In particular a sweep repeated at the same reading
    removes nothing more.  The second broadcast carries that index. *)
Theorem sweeps_compose :
  ∀ (sys : System) (t1 t2 : Z),
    Map_wf (index sys) →
    let sys' := exec sys [Sweep t1; Sweep t2] in
    index sys' = filter (λ e, Z.max t1 t2 - 3600000 ≤ c_timestamp e.2) (index sys)
    ∧ (t1 ≤ t2 → index sys' = index (step sys (Sweep t2)))
    ∧ index (exec sys [Sweep t1; Sweep t1]) = index (step sys (Sweep t1))
    ∧ trace sys'
      = trace sys ++ [emitted (io_emit (ev_chat_updated (snapshot (state (step sys (Sweep t1))))));
                      emitted (io_emit (ev_chat_updated (snapshot (state sys'))))].
Proof.
  intros sys t1 t2 Hwf. cbv zeta.
  assert (∀ s t, Map_wf (index s) →
                 index (step s (Sweep t))
                 = filter (λ e, t - 3600000 ≤ c_timestamp e.2) (index s)) as Hsweep.
  { intros s t Hs. unfold index in *. cbn. by rewrite evict_loop_self. }
  assert (∀ a b, index (exec sys [Sweep a; Sweep b])
                 = filter (λ e, Z.max a b - 3600000 ≤ c_timestamp e.2) (index sys)) as Htwo.
  { intros a b. unfold exec. cbn [foldl]. rewrite Hsweep.
    - rewrite Hsweep by done. rewrite list_filter_filter. apply list_filter_iff.
      intros e. lia.
    - rewrite Hsweep by done. by apply Map_filter_wf. }
  split; [apply Htwo|]. split; [|split].
  - intros Hle. rewrite Htwo, Hsweep by done. apply list_filter_iff. intros e. lia.
  - rewrite Htwo, Hsweep by done. apply list_filter_iff. intros e. lia.
  - unfold exec. cbn [foldl]. cbn. by rewrite <- app_assoc.
Qed.

Lemma sweeps_compose_witness :
  Map_wf (index stale_and_fresh)
  ∧ Map_keys (index (exec stale_and_fresh [Sweep 10000000; Sweep 12000000])) = [].
Proof.
  assert (Map_wf (index stale_and_fresh)) as Hwf.
  { unfold Map_wf. cbn. apply (bool_decide_unpack _). reflexivity. }
  split; [exact Hwf|].
  rewrite (proj1 (sweeps_compose stale_and_fresh 10000000 12000000 Hwf)). reflexivity.
Defined.

(* ===================================================================== *)
(** ** What the server never does, under any schedule *)
(* ===================================================================== *)

Lemma writes_snoc_performed tr q err :
  writes (tr ++ [performed q err])
  = writes tr ++ match q, err with Upsert row, None => [row] | _, _ => [] end.
Proof. rewrite writes_app. by destruct q, err. Qed.

Lemma step_writes_grow sys l row :
  row ∈ writes (trace sys) → row ∈ writes (trace (step sys l)).
Proof.
  intros Hin. destruct l as [socket ev now|i fault|i now|now]; cbn [step].
  - destruct (handler socket ev now _) as [[st out] next]. cbn [trace].
    rewrite writes_app. apply elem_of_app. by left.
  - destruct (pending sys !! i) as [[f q [r|]]|]; try done.
    destruct (run_query q fault (table sys)) as [tb' r]. cbn [trace].
    rewrite writes_app. apply elem_of_app. by left.
  - destruct (pending sys !! i) as [[f q [r|]]|]; try done.
    destruct (resume f r now (state sys)) as [[st out] next]. cbn [trace].
    rewrite writes_app. apply elem_of_app. by left.
  - destruct (evict_inactive now (state sys)) as [st out]. cbn [trace].
    rewrite writes_app. apply elem_of_app. by left.
Qed.

Lemma step_answered_writes_logged sys l :
  answered_writes_logged sys → answered_writes_logged (step sys l).
Proof.
  intros Hlog p r row Hin Hr He Hq.
  assert (∀ p', p' ∈ pending sys → response p' = Some r → query p' = Upsert row →
                row ∈ writes (trace (step sys l))) as Hold.
  { intros p' Hin' Hr' Hq'. apply step_writes_grow. by eapply Hlog. }
  destruct l as [socket ev now|i fault|i now|now]; cbn [step] in *.
  - destruct (handler socket ev now _) as [[st out] next] eqn:Eh. cbn [pending trace] in *.
    apply elem_of_app in Hin as [Hin|Hin]; [by eapply (Hold p)|].
    destruct next as [n|]; cbn in Hin; [|by apply elem_of_nil in Hin].
    apply list_elem_of_singleton in Hin as ->. by cbn in Hr.
  - destruct (pending sys !! i) as [[f q [r0|]]|] eqn:Ei; try by eapply (Hold p).
    destruct (run_query q fault (table sys)) as [tb' r1] eqn:Eq. cbn [pending trace] in *.
    apply list_elem_of_lookup in Hin as [k Hk].
    destruct (decide (k = i)) as [->|Hne].
    + rewrite list_lookup_insert_eq in Hk by (by eapply lookup_lt_Some).
      inversion Hk; subst p. cbn in Hr, Hq. inversion Hr; subst r1. subst q.
      rewrite writes_snoc_performed. apply elem_of_app. right.
      destruct fault as [e|]; cbn in Eq; inversion Eq; subst; [done|].
      cbn. apply list_elem_of_here.
    + rewrite list_lookup_insert_ne in Hk by done.
      rewrite writes_app. apply elem_of_app. left.
      eapply Hlog; [by eapply list_elem_of_lookup_2 | done..].
  - destruct (pending sys !! i) as [[f q [r0|]]|] eqn:Ei; try by eapply (Hold p).
    destruct (resume f r0 now (state sys)) as [[st out] next]. cbn [pending trace] in *.
    rewrite writes_app. apply elem_of_app. left.
    destruct next as [n|].
    + apply list_elem_of_lookup in Hin as [k Hk].
      destruct (decide (k = i)) as [->|Hne].
      * rewrite list_lookup_insert_eq in Hk by (by eapply lookup_lt_Some).
        inversion Hk; subst p. by cbn in Hr.
      * rewrite list_lookup_insert_ne in Hk by done.
        eapply Hlog; [by eapply list_elem_of_lookup_2 | done..].
    + eapply Hlog; [|done..]. apply list_elem_of_lookup in Hin as [k Hk].
      destruct (decide (k < i)%nat).
      * rewrite list_lookup_delete_lt in Hk by done. by eapply list_elem_of_lookup_2.
      * rewrite list_lookup_delete_ge in Hk by lia. by eapply list_elem_of_lookup_2.
  - destruct (evict_inactive now (state sys)) as [st out]. by eapply (Hold p).
Qed.

Lemma handler_emits_nothing socket ev now st : (handler socket ev now st).1.2 = [].
Proof. by destruct ev. Qed.

Lemma handler_next_message_ok socket ev now st n :
  (handler socket ev now st).2 = Some n → frame_message_ok (suspend n).
Proof. destruct ev; cbn; intros [= <-]; done. Qed.

Lemma resume_next_message_ok f q r0 r now st n :
  frame_message_ok {| frame := f; query := q; response := r0 |} →
  (resume f r now st).2 = Some n → frame_message_ok (suspend n).
Proof.
  unfold frame_message_ok. cbn [frame].
  destruct f as [s c cb u ce|s c cb ce|s c|s c cb u m|s c m]; cbn [resume]; intros Hok.
  - unfold customer_join_after_read.
    destruct (getConversationMessages r) as [v|]; [|done].
    destruct (messages_length v) as [len|]; [|done].
    destruct (Nat.eqb len 0); cbn; [|done]. by intros [= <-].
  - unfold customer_join_after_create. by destruct (error r).
  - unfold agent_join_after_read. by destruct (getConversationMessages r).
  - unfold message_send_after_read.
    destruct (getConversationMessages r) as [v|]; [|done].
    destruct (messages_or_empty v); [|done]. cbn. by intros [= <-].
  - unfold message_send_after_write. destruct (error r); [done|].
    by destruct (Map_get c (conversations (sessions st))).
Qed.

Lemma step_frame_message_ok sys l :
  Forall frame_message_ok (pending sys) → Forall frame_message_ok (pending (step sys l)).
Proof.
  intros Hp. destruct l as [socket ev now|i fault|i now|now]; cbn [step].
  - pose proof (handler_next_message_ok socket ev now (leave_rooms socket ev (state sys)))
      as Hn.
    destruct (handler socket ev now _) as [[st out] next]. cbn [pending].
    apply Forall_app. split; [done|]. destruct next as [n|]; cbn; [|constructor].
    repeat constructor. by apply Hn.
  - destruct (pending sys !! i) as [[f q [r|]]|] eqn:Ei; try done.
    pose proof (Forall_lookup_1 _ _ _ _ Hp Ei) as Hok.
    destruct (run_query q fault (table sys)) as [tb' r]. cbn [pending].
    by apply Forall_insert.
  - destruct (pending sys !! i) as [[f q [r|]]|] eqn:Ei; try done.
    pose proof (Forall_lookup_1 _ _ _ _ Hp Ei) as Hok.
    pose proof (resume_next_message_ok f q (Some r) r now (state sys)) as Hn.
    destruct (resume f r now (state sys)) as [[st out] next]. cbn [pending].
    destruct next as [n|]; [apply Forall_insert; [done | by apply Hn] | by apply Forall_delete].
  - by destruct (evict_inactive now (state sys)).
Qed.

(** Only the continuation of a successful write emits [message:received],
    and it emits it to the room of the frame's conversation. *)
Lemma resume_received f r now st e message :
  e ∈ (resume f r now st).1.2 →
  (e = io_emit (ev_message_received message)
   ∨ (∃ room, e = io_to_emit room (ev_message_received message))
   ∨ (∃ s, e = socket_emit s (ev_message_received message))) →
  ∃ socket convId,
    f = message_send_writing socket convId message ∧ error r = None
    ∧ e = io_to_emit (conv_room convId) (ev_message_received message).
Proof.
  intros Hin Hkind.
  assert (∀ s reason, e = socket_emit s (ev_error reason) → False) as Herr.
  { intros s reason ->. destruct Hkind as [?|[[? ?]|[? ?]]]; discriminate. }
  assert (∀ l, e = io_emit (ev_chat_updated l) → False) as Hupd.
  { intros l ->. destruct Hkind as [?|[[? ?]|[? ?]]]; discriminate. }
  assert (∀ s c ce, e = socket_emit s (ev_chat_joined c ce) → False) as Hjoined.
  { intros s c ce ->. destruct Hkind as [?|[[? ?]|[? ?]]]; discriminate. }
  destruct f as [s c cb u ce|s c cb ce|s c|s c cb u m|s c m]; cbn [resume] in Hin.
  - unfold customer_join_after_read, customer_join_catch, customer_join_finish in Hin.
    destruct (getConversationMessages r) as [v|]; cbn in Hin;
      [|apply list_elem_of_singleton in Hin; by eapply Herr in Hin].
    destruct (messages_length v) as [len|]; cbn in Hin;
      [|apply list_elem_of_singleton in Hin; by eapply Herr in Hin].
    destruct (Nat.eqb len 0); cbn in Hin; [by apply elem_of_nil in Hin|].
    apply elem_of_cons in Hin as [Hin|Hin]; [by eapply Hupd in Hin|].
    apply list_elem_of_singleton in Hin. by eapply Hjoined in Hin.
  - unfold customer_join_after_create, customer_join_catch, customer_join_finish in Hin.
    destruct (error r); cbn in Hin;
      [apply list_elem_of_singleton in Hin; by eapply Herr in Hin|].
    apply elem_of_cons in Hin as [Hin|Hin]; [by eapply Hupd in Hin|].
    apply list_elem_of_singleton in Hin. by eapply Hjoined in Hin.
  - unfold agent_join_after_read in Hin.
    destruct (getConversationMessages r); cbn in Hin; [by apply elem_of_nil in Hin|].
    apply list_elem_of_singleton in Hin. by eapply Herr in Hin.
  - unfold message_send_after_read, message_send_catch in Hin.
    destruct (getConversationMessages r) as [v|]; cbn in Hin;
      [|apply list_elem_of_singleton in Hin; by eapply Herr in Hin].
    destruct (messages_or_empty v); cbn in Hin; [by apply elem_of_nil in Hin|].
    apply list_elem_of_singleton in Hin. by eapply Herr in Hin.
  - unfold message_send_after_write, message_send_catch in Hin.
    destruct (error r) eqn:Er; cbn in Hin;
      [apply list_elem_of_singleton in Hin; by eapply Herr in Hin|].
    assert (e = io_to_emit (conv_room c) (ev_message_received m)) as He.
    { destruct (Map_get c (conversations (sessions st))); cbn in Hin.
      - apply elem_of_cons in Hin as [Hin|Hin]; [done|].
        apply list_elem_of_singleton in Hin. by eapply Hupd in Hin.
      - by apply list_elem_of_singleton in Hin. }
    subst e. assert (m = message) as ->.
    { destruct Hkind as [?|[[? ?]|[? ?]]]; congruence. }
    by exists s, c.
Qed.

Lemma received_after_write_grow tr extra :
  emits extra = [] → received_after_write tr → received_after_write (tr ++ extra).
Proof.
  intros Hex Hrw e message Hin Hkind. rewrite emits_app, Hex, app_nil_r in Hin.
  destruct (Hrw e message Hin Hkind) as (He & row & current & Hrow & Hid & Hlog).
  split; [done|]. exists row, current. split; [|done].
  rewrite writes_app. apply elem_of_app. by left.
Qed.

Lemma step_logged sys l : logged sys → logged (step sys l).
Proof.
  intros (Hok & Hmsg & Hlog & Hrw).
  split; [by apply step_pending_ok|]. split; [by apply step_frame_message_ok|].
  split; [by apply step_answered_writes_logged|].
  destruct l as [socket ev now|i fault|i now|now]; cbn [step].
  - pose proof (handler_emits_nothing socket ev now (leave_rooms socket ev (state sys))) as Hn.
    destruct (handler socket ev now _) as [[st out] next]. cbn in Hn. subst out.
    cbn [trace]. by apply received_after_write_grow.
  - destruct (pending sys !! i) as [[f q [r|]]|]; try done.
    destruct (run_query q fault (table sys)) as [tb' r]. cbn [trace].
    by apply received_after_write_grow.
  - destruct (pending sys !! i) as [[f q [r|]]|] eqn:Ei; try done.
    pose proof (resume_received f r now (state sys)) as Hrec.
    destruct (resume f r now (state sys)) as [[st out] next]. cbn [trace fst snd] in *.
    intros e message Hin Hkind. rewrite emits_app, emits_emitted in Hin.
    apply elem_of_app in Hin as [Hin|Hin].
    + destruct (Hrw e message Hin Hkind) as (He & row & current & Hrow & Hid & Hl).
      split; [done|]. exists row, current. split; [|done].
      rewrite writes_app. apply elem_of_app. by left.
    + destruct (Hrec e message Hin Hkind) as (s & c & -> & Her & ->).
      pose proof (Forall_lookup_1 _ _ _ _ Hok Ei) as Hq.
      pose proof (Forall_lookup_1 _ _ _ _ Hmsg Ei) as Hm.
      unfold pending_ok in Hq. unfold frame_message_ok in Hm. cbn in Hq, Hm.
      destruct Hq as (cb & u & current & Hq). subst c.
      split; [done|].
      exists (updated_row (msg_convId message) cb u (json_obj (Some (current ++ [message])))),
             current.
      split; [|done]. rewrite writes_app. apply elem_of_app. left.
      eapply (Hlog _ r); [by eapply list_elem_of_lookup_2 | done | done | done].
  - destruct (evict_inactive now (state sys)) as [st out] eqn:Ev. cbn in Ev.
    inversion Ev; subst. cbn [trace]. 
    intros e message Hin Hkind. rewrite emits_app in Hin.
    apply elem_of_app in Hin as [Hin|Hin].
    + destruct (Hrw e message Hin Hkind) as (He & row & current & Hrow & Hid & Hl).
      split; [done|]. exists row, current. split; [|done].
      rewrite writes_app. apply elem_of_app. by left.
    + cbn in Hin. apply list_elem_of_singleton in Hin. subst e.
      destruct Hkind as [?|[[? ?]|[? ?]]]; discriminate.
Qed.

Lemma boot_logged tb0 ls : logged (exec (boot tb0) ls).
Proof.
  apply (exec_invariant logged); [apply step_logged|].
  split; [constructor|]. split; [constructor|]. split.
  - intros p r row Hin. by apply elem_of_nil in Hin.
  - intros e message Hin. by apply elem_of_nil in Hin.
Qed.

(** X11.  No [message:received] without a stored message, under every
    schedule.  On a server started on any table, whatever events arrive and
    however handlers, database answers and sweeps interleave, every
    [message:received] in the trace was emitted to the room of its message's
    conversation, never to a single socket or to everybody, and the database
    had before performed a successful [upsert] for that conversation whose
    log ends with that message. *)
Theorem every_received_message_was_written :
  ∀ (tb0 : list Row) (ls : list Label) (e : Emit) (message : Message),
    let sys := exec (boot tb0) ls in
    e ∈ emits (trace sys) →
    (e = io_emit (ev_message_received message)
     ∨ (∃ room, e = io_to_emit room (ev_message_received message))
     ∨ (∃ s, e = socket_emit s (ev_message_received message))) →
    e = io_to_emit (conv_room (msg_convId message)) (ev_message_received message)
    ∧ ∃ row current,
        row ∈ writes (trace sys)
        ∧ live_chat_id row = msg_convId message
        ∧ live_message row = json_obj (Some (current ++ [message])).
Proof.
  intros tb0 ls e message sys. destruct (boot_logged tb0 ls) as (_ & _ & _ & Hrw).
  apply Hrw.
Qed.

Lemma every_received_message_was_written_witness :
  let sys := exec (boot []) (handle 0 "a" (message_send_ev hello) 30 None 31 None 32) in
  io_to_emit "conv-c1" (ev_message_received (new_message hello 30)) ∈ emits (trace sys)
  ∧ ∃ row current,
      row ∈ writes (trace sys)
      ∧ live_chat_id row = "c1"
      ∧ live_message row = json_obj (Some (current ++ [new_message hello 30])).
Proof.
  cbv zeta.
  assert (io_to_emit "conv-c1" (ev_message_received (new_message hello 30))
          ∈ emits (trace (exec (boot [])
                            (handle 0 "a" (message_send_ev hello) 30 None 31 None 32))))
    as Hin by apply list_elem_of_here.
  split; [exact Hin|].
  exact (proj2 (every_received_message_was_written []
                  (handle 0 "a" (message_send_ev hello) 30 None 31 None 32)
                  _ (new_message hello 30) Hin (or_intror (or_introl (ex_intro _ _ eq_refl))))).
Defined.

(** X12.  Every conversation in the index was created through the database.
    On a server started on any table, under every schedule, each key of the
    index has in the trace a successful [upsert] of the new-conversation row
    for that conversation (empty log, [created_at] set).  A join whose
    creating [upsert] failed never leaves an index entry behind. *)
Theorem index_entries_were_created :
  ∀ (tb0 : list Row) (ls : list Label) (convId : string),
    let sys := exec (boot tb0) ls in
    convId ∈ Map_keys (index sys) →
    ∃ row, row ∈ writes (trace sys) ∧ is_create convId row = true.
Proof.
  intros tb0 ls convId. cbv zeta.
  assert (logged (exec (boot tb0) ls)
          ∧ (convId ∈ Map_keys (index (exec (boot tb0) ls)) →
             ∃ row, row ∈ writes (trace (exec (boot tb0) ls)) ∧ is_create convId row = true))
    as [_ H]; [|exact H].
  apply (exec_invariant
           (λ s, logged s
                 ∧ (convId ∈ Map_keys (index s) →
                    ∃ row, row ∈ writes (trace s) ∧ is_create convId row = true))).
  2:{ split; [apply (boot_logged tb0 [])|]. intros Hin. by apply elem_of_nil in Hin. }
  intros sys l [Hlogged Hkeys]. split; [by apply step_logged|].
  destruct Hlogged as (Hok & _ & Hlog & _).
  assert (convId ∈ Map_keys (index sys) →
          ∃ row, row ∈ writes (trace (step sys l)) ∧ is_create convId row = true) as Hold.
  { intros Hin. destruct (Hkeys Hin) as (row & Hrow & Hc). exists row.
    split; [by apply step_writes_grow | done]. }
  intros Hin. destruct l as [socket ev now|i fault|i now|now]; cbn [step] in *.
  - pose proof (handler_conversations socket ev now (state sys)) as Hc.
    destruct (handler socket ev now _) as [[st out] next].
    apply Hold. unfold index in *. cbn in *. by rewrite <- Hc.
  - destruct (pending sys !! i) as [[f q [r|]]|]; try by apply Hold.
    destruct (run_query q fault (table sys)). by apply Hold.
  - destruct (pending sys !! i) as [[f q [r|]]|] eqn:Ei; try by apply Hold.
    pose proof (resume_keys f r now (state sys) convId) as Hk.
    destruct (resume f r now (state sys)) as [[st out] next]. cbn [trace] in *.
    unfold index in Hin. cbn in Hin, Hk.
    destruct (Hk Hin) as [Hin'|(s & cb & ce & -> & Her)].
    + destruct (Hkeys Hin') as (row & Hrow & Hc). exists row. split; [|done].
      rewrite writes_app. apply elem_of_app. by left.
    + pose proof (Forall_lookup_1 _ _ _ _ Hok Ei) as Hq. unfold pending_ok in Hq.
      cbn in Hq. destruct Hq as [t Hq].
      exists (new_conversation_row convId ce cb t). split.
      * rewrite writes_app. apply elem_of_app. left.
        eapply (Hlog _ r); [by eapply list_elem_of_lookup_2 | done | done | done].
      * apply is_create_new_conversation_row.
  - apply Hold. unfold index in *. cbn in Hin.
    rewrite evict_loop_filter in Hin. by apply Map_keys_filter_sub in Hin.
Qed.

Lemma index_entries_were_created_witness :
  let sys := exec (boot []) (handle 0 "a" (customer_join_ev join_c1) 10 None 11 None 12) in
  "c1" ∈ Map_keys (index sys)
  ∧ ∃ row, row ∈ writes (trace sys) ∧ is_create "c1" row = true.
Proof.
  cbv zeta.
  assert ("c1" ∈ Map_keys (index (exec (boot [])
                                    (handle 0 "a" (customer_join_ev join_c1) 10 None 11 None 12))))
    as Hin by apply list_elem_of_here.
  split; [exact Hin|].
  exact (index_entries_were_created []
           (handle 0 "a" (customer_join_ev join_c1) 10 None 11 None 12) "c1" Hin).
Defined.

(* ===================================================================== *)
(** ** Rows of other conversations *)
(* ===================================================================== *)

Lemma handler_keeps_off convId socket ev now st n :
  ¬ writes_to convId (Deliver socket ev now) →
  (handler socket ev now st).2 = Some n → keeps_off convId (suspend n).
Proof.
  unfold keeps_off. destruct ev as [p|c|p|]; cbn; intros Hno [= <-]; cbn; by split.
Qed.

Lemma resume_keeps_off convId f q r0 r now st n :
  keeps_off convId {| frame := f; query := q; response := r0 |} →
  (resume f r now st).2 = Some n → keeps_off convId (suspend n).
Proof.
  unfold keeps_off. cbn [frame query]. intros [Hf _].
  destruct f as [s c cb u ce|s c cb ce|s c|s c cb u m|s c m]; cbn [resume].
  - unfold customer_join_after_read.
    destruct (getConversationMessages r) as [v|]; [|done].
    destruct (messages_length v) as [len|]; [|done].
    destruct (Nat.eqb len 0); cbn; [|done]. intros [= <-]. cbn. split; [done|].
    by intros row [= <-].
  - unfold customer_join_after_create. by destruct (error r).
  - unfold agent_join_after_read. by destruct (getConversationMessages r).
  - unfold message_send_after_read.
    destruct (getConversationMessages r) as [v|]; [|done].
    destruct (messages_or_empty v); [|done]. cbn. intros [= <-]. cbn. split; [done|].
    by intros row [= <-].
  - unfold message_send_after_write. destruct (error r); [done|].
    by destruct (Map_get c (conversations (sessions st))).
Qed.

Lemma step_keeps_off convId sys l :
  ¬ writes_to convId l →
  Forall (keeps_off convId) (pending sys) →
  Forall (keeps_off convId) (pending (step sys l))
  ∧ rows_of convId (table (step sys l)) = rows_of convId (table sys).
Proof.
  intros Hno Hp. destruct l as [socket ev now|i fault|i now|now]; cbn [step].
  - pose proof (handler_keeps_off convId socket ev now (leave_rooms socket ev (state sys)))
      as Hn.
    destruct (handler socket ev now _) as [[st out] next]. cbn [pending table snd] in *.
    split; [|done]. apply Forall_app. split; [done|].
    destruct next as [n|]; cbn; [|constructor]. constructor; [by apply Hn | constructor].
  - destruct (pending sys !! i) as [[f q [r|]]|] eqn:Ei; try (by split).
    pose proof (Forall_lookup_1 _ _ _ _ Hp Ei) as Hk.
    destruct (run_query q fault (table sys)) as [tb' r] eqn:Eq. cbn [pending table].
    split; [by apply Forall_insert|].
    destruct fault as [e|]; cbn in Eq; [by inversion Eq|].
    destruct q as [c|row]; inversion Eq; subst; [done|].
    apply rows_of_upsert_ne. destruct Hk as [_ Hq]. by apply Hq.
  - destruct (pending sys !! i) as [[f q [r|]]|] eqn:Ei; try (by split).
    pose proof (Forall_lookup_1 _ _ _ _ Hp Ei) as Hk.
    pose proof (resume_keeps_off convId f q (Some r) r now (state sys)) as Hn.
    destruct (resume f r now (state sys)) as [[st out] next]. cbn [pending table snd] in *.
    split; [|done].
    destruct next as [n|]; [apply Forall_insert; [done | by apply Hn] | by apply Forall_delete].
  - destruct (evict_inactive now (state sys)). by split.
Qed.

Lemma exec_keeps_off convId ls sys :
  Forall (λ l, ¬ writes_to convId l) ls →
  Forall (keeps_off convId) (pending sys) →
  rows_of convId (table (exec sys ls)) = rows_of convId (table sys).
Proof.
  revert sys. induction ls as [|l ls IH]; intros sys Hls Hp; [done|].
  apply Forall_cons in Hls as [Hl Hls]. cbn.
  destruct (step_keeps_off convId sys l Hl Hp) as [Hp' Hrows].
  rewrite IH by done. exact Hrows.
Qed.

(** X13.  Events leave the rows of other conversations alone.  On a server
    started on any table, under every schedule in which no [customer:join]
    and no [message:send] carrying the id of a conversation is delivered,
    the rows stored for that conversation are exactly those the server
    started with: events for other conversations, [agent:join] for any
    conversation, [disconnect] and sweeps never change or remove them. *)
Theorem rows_change_only_by_own_events :
  ∀ (tb0 : list Row) (ls : list Label) (convId : string),
    Forall (λ l, ¬ writes_to convId l) ls →
    rows_of convId (table (exec (boot tb0) ls)) = rows_of convId tb0.
Proof.
  intros tb0 ls convId Hls. by apply (exec_keeps_off convId ls (boot tb0)).
Qed.

Lemma rows_change_only_by_own_events_witness :
  let ls :=
    handle 0 "a" (customer_join_ev join_c2) 50 None 51 None 52
    ++ handle 0 "a" (message_send_ev
                       {| ms_convId := "c2"; ms_chatbotId := "bot"; ms_userId := "u1";
                          ms_text := "hi"; ms_sender := "customer"; ms_timestamp := None |})
         60 None 61 None 62
    ++ handle 0 "b" (agent_join_ev "c1") 70 None 71 None 72
    ++ [Sweep 80] in
  Forall (λ l, ¬ writes_to "c1" l) ls
  ∧ rows_of "c1" (table (exec (boot table_with_history) ls)) = table_with_history.
Proof.
  cbv zeta.
  match goal with |- Forall _ ?ls ∧ _ =>
    assert (Forall (λ l, ¬ writes_to "c1" l) ls) as Hls
  end.
  { repeat constructor; cbn; try tauto; discriminate. }
  split; [exact Hls|].
  exact (rows_change_only_by_own_events table_with_history _ "c1" Hls).
Defined.

(* ===================================================================== *)
(** ** Who is in the room of a conversation *)
(* ===================================================================== *)

Lemma conv_room_inj c c' : conv_room c = conv_room c' → c = c'.
Proof. unfold conv_room. cbn. intros H. by inversion H. Qed.

Lemma joined_snoc socket convId ls l : joined socket convId ls → joined socket convId (ls ++ [l]).
Proof. intros H. apply Exists_app. by left. Qed.

Lemma frame_joined_snoc ls l p : frame_joined ls p → frame_joined (ls ++ [l]) p.
Proof. unfold frame_joined. destruct (frame p); try done; apply joined_snoc. Qed.

Lemma subscribed_socket_join socket room st s r :
  subscribed (socket_join socket room st) s r →
  subscribed st s r ∨ (s = socket ∧ r = room).
Proof.
  unfold subscribed, socket_join. cbn [rooms].
  destruct (decide (socket = s)) as [->|Hne].
  - rewrite lookup_total_insert_eq. intros Hin.
    apply elem_of_union in Hin as [Hin|Hin]; [|by left].
    right. split; [done | by apply elem_of_singleton in Hin].
  - rewrite lookup_total_insert_ne by done. by left.
Qed.

(** A resumed handler adds at most the room of its own join. *)
Lemma resume_subscribed f r now st s room :
  subscribed (resume f r now st).1.1 s room →
  subscribed st s room
  ∨ ∃ c, room = conv_room c
         ∧ ((∃ cb u ce, f = customer_join_reading s c cb u ce)
            ∨ (∃ cb ce, f = customer_join_creating s c cb ce)
            ∨ f = agent_join_reading s c).
Proof.
  destruct f as [s0 c cb u ce|s0 c cb ce|s0 c|s0 c cb u m|s0 c m]; cbn [resume].
  - unfold customer_join_after_read.
    destruct (getConversationMessages r) as [v|]; [|by left].
    destruct (messages_length v) as [len|]; [|by left].
    destruct (Nat.eqb len 0); cbn [fst]; [by left|].
    unfold customer_join_finish. cbn [fst]. intros H.
    apply subscribed_socket_join in H as [H|[-> ->]]; [by left|].
    right. exists c. split; [done|]. left. by exists cb, u, ce.
  - unfold customer_join_after_create. destruct (error r); [by left|].
    unfold customer_join_finish. cbn [fst]. intros H.
    apply subscribed_socket_join in H as [H|[-> ->]]; [by left|].
    right. exists c. split; [done|]. right. left. by exists cb, ce.
  - unfold agent_join_after_read. destruct (getConversationMessages r); [|by left].
    cbn [fst]. intros H.
    apply subscribed_socket_join in H as [H|[-> ->]]; [by left|].
    right. exists c. split; [done|]. by right; right.
  - unfold message_send_after_read.
    destruct (getConversationMessages r) as [v|]; [|by left].
    destruct (messages_or_empty v); by left.
  - unfold message_send_after_write. destruct (error r); [by left|].
    destruct (Map_get c (conversations (sessions st))); by left.
Qed.

Lemma resume_next_joined ls f q r0 r now st n :
  frame_joined ls {| frame := f; query := q; response := r0 |} →
  (resume f r now st).2 = Some n → frame_joined ls (suspend n).
Proof.
  unfold frame_joined. cbn [frame].
  destruct f as [s c cb u ce|s c cb ce|s c|s c cb u m|s c m]; cbn [resume]; intros Hok.
  - unfold customer_join_after_read.
    destruct (getConversationMessages r) as [v|]; [|done].
    destruct (messages_length v) as [len|]; [|done].
    destruct (Nat.eqb len 0); cbn; [|done]. by intros [= <-].
  - unfold customer_join_after_create. by destruct (error r).
  - unfold agent_join_after_read. by destruct (getConversationMessages r).
  - unfold message_send_after_read.
    destruct (getConversationMessages r) as [v|]; [|done].
    destruct (messages_or_empty v); [|done]. cbn. by intros [= <-].
  - unfold message_send_after_write. destruct (error r); [done|].
    by destruct (Map_get c (conversations (sessions st))).
Qed.

Lemma step_rooms_from_joins ls sys l :
  rooms_from_joins ls sys → rooms_from_joins (ls ++ [l]) (step sys l).
Proof.
  intros [Hrooms Hp].
  assert (∀ s room, subscribed (state sys) s room →
                    ∃ c, room = conv_room c ∧ joined s c (ls ++ [l])) as Hrooms'.
  { intros s room Hs. destruct (Hrooms s room Hs) as (c & -> & Hj).
    exists c. split; [done | by apply joined_snoc]. }
  assert (Forall (frame_joined (ls ++ [l])) (pending sys)) as Hp'.
  { eapply Forall_impl; [exact Hp|]. intros p. apply frame_joined_snoc. }
  destruct l as [socket ev now|i fault|i now|now]; cbn [step].
  - assert (∀ s room, subscribed (handler socket ev now
                                    (leave_rooms socket ev (state sys))).1.1 s room →
                      subscribed (state sys) s room) as Hsub.
    { intros s room. unfold subscribed. destruct ev; cbn; try done.
      destruct (decide (socket = s)) as [->|Hne].
      - rewrite lookup_total_delete_eq. set_solver.
      - by rewrite lookup_total_delete_ne. }
    assert (∀ n, (handler socket ev now (leave_rooms socket ev (state sys))).2 = Some n →
                 frame_joined (ls ++ [Deliver socket ev now]) (suspend n)) as Hnew.
    { intros n. destruct ev as [p|c|p|]; cbn; intros [= <-]; unfold frame_joined; cbn;
        try done; apply Exists_app; right; apply Exists_cons_hd; by cbn. }
    destruct (handler socket ev now _) as [[st out] next]. cbn [fst snd] in *.
    split; cbn [state pending].
    + intros s room Hs. by apply Hrooms', Hsub.
    + apply Forall_app. split; [done|]. destruct next as [n|]; cbn; [|constructor].
      repeat constructor. by apply Hnew.
  - destruct (pending sys !! i) as [[f q [r|]]|] eqn:Ei; try done.
    pose proof (Forall_lookup_1 _ _ _ _ Hp' Ei) as Hf.
    destruct (run_query q fault (table sys)) as [tb' r]. split; [done|].
    cbn [pending]. by apply Forall_insert.
  - destruct (pending sys !! i) as [[f q [r|]]|] eqn:Ei; try done.
    pose proof (Forall_lookup_1 _ _ _ _ Hp' Ei) as Hf.
    pose proof (resume_subscribed f r now (state sys)) as Hsub.
    pose proof (resume_next_joined (ls ++ [Resume i now]) f q (Some r) r now (state sys)) as Hn.
    destruct (resume f r now (state sys)) as [[st out] next]. cbn [fst snd] in *.
    split; cbn [state pending].
    + intros s room Hs. destruct (Hsub s room Hs) as [Hold|(c & -> & Hframe)];
        [by apply Hrooms'|].
      exists c. split; [done|]. unfold frame_joined in Hf. cbn in Hf.
      destruct Hframe as [(cb & u & ce & ->)|[(cb & ce & ->)| ->]]; exact Hf.
    + destruct next as [n|]; [apply Forall_insert; [done | by apply Hn] | by apply Forall_delete].
  - destruct (evict_inactive now (state sys)) as [st out] eqn:Ev. cbn in Ev.
    inversion Ev; subst. by split.
Qed.

Lemma boot_rooms_from_joins tb0 ls : rooms_from_joins ls (exec (boot tb0) ls).
Proof.
  induction ls as [|l ls IH] using rev_ind.
  - split; [|constructor]. intros s room Hs. unfold subscribed in Hs. cbn in Hs.
    rewrite lookup_total_empty in Hs. set_solver.
  - rewrite exec_app. cbn. by apply step_rooms_from_joins.
Qed.

(** X14.  Conversations are kept apart.  The room name determines the
    conversation, and on a server started on any table, under every
    schedule, a socket is in the room of a conversation only if it has sent
    a [customer:join] or an [agent:join] for that conversation.  So what is
    emitted to the room of a conversation reaches only sockets that asked to
    join it. *)
Theorem room_members_asked_to_join :
  ∀ (tb0 : list Row) (ls : list Label) (socket convId : string) (e : Event),
    let sys := exec (boot tb0) ls in
    (∀ c', conv_room convId = conv_room c' → convId = c')
    ∧ (subscribed (state sys) socket (conv_room convId) → joined socket convId ls)
    ∧ (receives (state sys) socket (io_to_emit (conv_room convId) e) →
       joined socket convId ls).
Proof.
  intros tb0 ls socket convId e sys.
  assert (subscribed (state sys) socket (conv_room convId) → joined socket convId ls) as H.
  { intros Hs. destruct (boot_rooms_from_joins tb0 ls) as [Hrooms _].
    destruct (Hrooms socket _ Hs) as (c & Hc & Hj). apply conv_room_inj in Hc. by subst c. }
  split; [apply conv_room_inj|]. by split.
Qed.

Lemma room_members_asked_to_join_witness :
  let ls := handle 0 "b" (agent_join_ev "c1") 20 None 21 None 22 in
  subscribed (state (exec (boot []) ls)) "b" (conv_room "c1")
  ∧ joined "b" "c1" ls.
Proof.
  cbv zeta.
  assert (subscribed (state (exec (boot []) (handle 0 "b" (agent_join_ev "c1") 20 None 21 None 22)))
            "b" (conv_room "c1")) as Hs.
  { unfold subscribed. vm_compute. apply (bool_decide_unpack _). reflexivity. }
  split; [exact Hs|].
  exact (proj1 (proj2 (room_members_asked_to_join []
                         (handle 0 "b" (agent_join_ev "c1") 20 None 21 None 22)
                         "b" "c1" (ev_error ""))) Hs).
Defined.

(* ===================================================================== *)
(** ** Sending without a session *)
(* ===================================================================== *)

(** X15.  [message:send] neither reads nor writes the session registry and
    the rooms.  Handling a send leaves the customer sessions, the agent
    sessions and the room memberships as they were, whatever the outcome;
    and with any other sessions and rooms in place of the present ones, the
    same send produces the same table, the same index, the same writes and
    the same events.  A socket that never joined can send to any
    conversation. *)
Theorem message_send_ignores_registry :
  ∀ (sys : System) (cs : gmap string CustomerSession) (ags : gmap string AgentSession)
    (rms : gmap string (gset string)) (socket : string) (p : MessageSend)
    (now0 : Z) (fault1 : option Error) (now1 : Z) (fault2 : option Error) (now2 : Z),
    let labels :=
      handle (length (pending sys)) socket (message_send_ev p) now0 fault1 now1 fault2 now2 in
    let a := exec sys labels in
    let b := exec (with_registry cs ags rms sys) labels in
    customers (sessions (state a)) = customers (sessions (state sys))
    ∧ agents (sessions (state a)) = agents (sessions (state sys))
    ∧ rooms (state a) = rooms (state sys)
    ∧ table b = table a
    ∧ index b = index a
    ∧ trace b = trace a.
Proof.
  intros [st tb ps tr] cs ags rms socket p now0 fault1 now1 fault2 now2. cbv zeta.
  unfold with_registry. cbn [pending state table trace].
  rewrite !run_message_send. cbv zeta. unfold index.
  destruct fault1 as [e1|]; [done|].
  destruct (messages_or_empty (read_log (ms_convId p) tb)) as [current|]; [|done].
  destruct fault2 as [e2|]; [done|].
  unfold message_send_after_write. cbn [error sessions conversations].
  by destruct (Map_get (ms_convId p) (conversations (sessions st))).
Qed.

(* ===================================================================== *)
(** ** Loading conversations from the table *)
(* ===================================================================== *)

(** X16.  [loadActiveConversations] on the reply of its query.  With an
    [error], or with [data] being [null], the [Map] is left as it was.
    Otherwise every row of [data] gets an entry under its [live_chat_id],
    the last row of an id winning; the entry's [lastMessage] is the last
    message of the row's log, and [null] when the log is empty, has no
    [messages] or is [null]; entries of other ids stay, and no key comes to
    occur twice. *)
Theorem loadActiveConversations_entries :
  ∀ (r : RowsResponse) (m : list (string * LoadedConversation)),
    (rows_error r ≠ None ∨ rows_data r = None → loadActiveConversations r m = m)
    ∧ (∀ rows,
         rows_error r = None → rows_data r = Some rows →
         (∀ convId,
            Map_get convId (loadActiveConversations r m)
            = match last (filter (λ row, live_chat_id row = convId) rows) with
              | Some row => Some (loaded_of_row row)
              | None => Map_get convId m
              end)
         ∧ (Map_wf m → Map_wf (loadActiveConversations r m)))
    ∧ (∀ row, lc_lastMessage (loaded_of_row row)
              = match live_message row with
                | json_obj (Some l) => last l
                | _ => None
                end).
Proof.
  intros r m. split; [|split].
  - unfold loadActiveConversations. intros [Herr|Hdata].
    + by destruct (rows_error r).
    + rewrite Hdata. by destruct (rows_error r).
  - intros rows Herr Hdata. unfold loadActiveConversations. rewrite Herr, Hdata.
    clear Herr Hdata. induction rows as [|row rows IH] using rev_ind.
    + split; [done|done].
    + destruct IH as [IHget IHwf]. rewrite foldl_app. cbn [foldl]. split.
      * intros convId. rewrite filter_app, filter_cons, filter_nil.
        destruct (decide (live_chat_id row = convId)) as [<-|Hne].
        -- rewrite Map_get_set_eq. by rewrite last_snoc.
        -- rewrite Map_get_set_ne by done. rewrite app_nil_r. apply IHget.
      * intros Hwf. apply Map_set_wf. by apply IHwf.
  - done.
Qed.

Lemma loadActiveConversations_entries_witness :
  Map_keys (loadActiveConversations {| rows_data := Some two_rows; rows_error := None |} [])
  = ["c1"; "c2"]
  ∧ lc_lastMessage <$>
      Map_get "c1"
        (loadActiveConversations {| rows_data := Some two_rows; rows_error := None |} [])
    = Some (Some (new_message hello 30))
  ∧ loadActiveConversations {| rows_data := None; rows_error := Some (StoreError "down") |} []
    = [].
Proof.
  split; [reflexivity|]. split.
  - rewrite (proj1 (proj1 (proj2 (loadActiveConversations_entries
                                    {| rows_data := Some two_rows; rows_error := None |} []))
                      two_rows eq_refl eq_refl) "c1").
    reflexivity.
  - apply (proj1 (loadActiveConversations_entries
                    {| rows_data := None; rows_error := Some (StoreError "down") |} [])).
    by left.
Defined.

(* ===================================================================== *)
(** ** Activity window and event surface *)
(* ===================================================================== *)

(** X17.  The inactivity window slides with the messages.  After a
    [message:send] for an indexed conversation has been stored, with its
    last stretch at clock reading [now2], a sweep at reading [now] keeps the
    conversation, with the message as [lastMessage], when [now2] is not
    before [now - 1h], and removes it from the index otherwise, whoever is
    still joined. *)
Theorem message_keeps_conversation_for_an_hour :
  ∀ (sys : System) (socket : string) (p : MessageSend) (now0 now1 now2 now : Z)
    (current : list Message) (conversation : Conversation),
    Map_wf (index sys) →
    messages_or_empty (read_log (ms_convId p) (table sys)) = Ok current →
    Map_get (ms_convId p) (index sys) = Some conversation →
    let touched :=
      {| c_convId := c_convId conversation; c_chatbotId := c_chatbotId conversation;
         c_customerEmail := c_customerEmail conversation; c_timestamp := now2;
         c_lastMessage := Some (new_message p now0) |} in
    let sys' :=
      exec sys (handle (length (pending sys)) socket (message_send_ev p)
                  now0 None now1 None now2 ++ [Sweep now]) in
    Map_get (ms_convId p) (index sys')
    = if decide (now - 3600000 ≤ now2) then Some touched else None.
Proof.
  intros [st tb ps tr] socket p now0 now1 now2 now current conversation Hwf Hread Hget.
  cbv zeta. unfold index in *. cbn [pending state table sessions] in *.
  rewrite exec_app, run_message_send. cbv zeta. rewrite Hread.
  unfold message_send_after_write. cbn [error]. rewrite Hget.
  unfold exec. cbn [foldl step]. cbn [evict_inactive state sessions conversations
                                       with_conversations fst snd].
  assert (Map_wf (touch (ms_convId p) (new_message p now0) now2 conversation
                    (conversations (sessions st)))) as Hwf'.
  { unfold touch. by apply Map_set_wf. }
  rewrite evict_loop_self by done.
  set (touched := {| c_convId := c_convId conversation; c_timestamp := now2 |}).
  assert (Map_get (ms_convId p)
            (touch (ms_convId p) (new_message p now0) now2 conversation
               (conversations (sessions st))) = Some touched) as Ht
    by apply Map_get_set_eq.
  case_decide as Hage.
  - apply Map_elem_get; [by apply Map_filter_wf|].
    apply list_elem_of_filter. split; [cbn; lia | by apply Map_get_elem].
  - destruct (Map_get (ms_convId p) (filter _ _)) as [conv|] eqn:E; [|done].
    apply Map_get_elem in E. apply list_elem_of_filter in E as [Hts Hin].
    apply Map_elem_get in Hin; [|done]. rewrite Ht in Hin. inversion Hin; subst conv.
    cbn in Hts. lia.
Qed.

Lemma message_keeps_conversation_for_an_hour_witness :
  let sys := exec (boot []) (handle 0 "a" (customer_join_ev join_c1) 10 None 11 None 12) in
  (Map_wf (index sys)
   ∧ messages_or_empty (read_log (ms_convId hello) (table sys)) = Ok []
   ∧ is_Some (Map_get (ms_convId hello) (index sys)))
  ∧ Map_get "c1" (index (exec sys (handle 0 "a" (message_send_ev hello) 30 None 31 None 32
                                   ++ [Sweep 4000000])))
    = None.
Proof.
  cbv zeta.
  assert (Map_wf (index (exec (boot [])
                           (handle 0 "a" (customer_join_ev join_c1) 10 None 11 None 12))))
    as Hwf.
  { unfold Map_wf. cbn. apply (bool_decide_unpack _). reflexivity. }
  split; [split; [exact Hwf | split; [reflexivity | eexists; reflexivity]]|].
  exact (message_keeps_conversation_for_an_hour
           (exec (boot []) (handle 0 "a" (customer_join_ev join_c1) 10 None 11 None 12))
           "a" hello 30 31 32 4000000 [] _ Hwf eq_refl eq_refl).
Defined.

Lemma resume_well_addressed f r now st :
  Forall well_addressed (resume f r now st).1.2.
Proof.
  destruct f as [s c cb u ce|s c cb ce|s c|s c cb u m|s c m]; cbn [resume].
  - unfold customer_join_after_read, customer_join_catch, customer_join_finish.
    destruct (getConversationMessages r) as [v|]; [|repeat constructor; cbn; tauto].
    destruct (messages_length v) as [len|]; [|repeat constructor; cbn; tauto].
    destruct (Nat.eqb len 0); repeat constructor.
  - unfold customer_join_after_create, customer_join_catch, customer_join_finish.
    destruct (error r); repeat constructor; cbn; tauto.
  - unfold agent_join_after_read.
    destruct (getConversationMessages r); repeat constructor; cbn; tauto.
  - unfold message_send_after_read, message_send_catch.
    destruct (getConversationMessages r) as [v|]; [|repeat constructor; cbn; tauto].
    destruct (messages_or_empty v); repeat constructor; cbn; tauto.
  - unfold message_send_after_write, message_send_catch.
    destruct (error r); [repeat constructor; cbn; tauto|].
    destruct (Map_get c (conversations (sessions st))); repeat constructor; cbn; by eexists.
Qed.

(** X18.  The event surface.  Under every schedule, from any state, the
    events the server adds to its trace are of four kinds only:
    [chat:updated] to everybody, [chat:joined] to one socket,
    [message:received] to the room of a conversation, and [error] to one
    socket with one of the three fixed reasons.  An error or a join
    acknowledgement is never broadcast, and a message never goes to
    everybody or to a single socket. *)
Theorem events_are_well_addressed :
  ∀ (sys : System) (ls : list Label),
    Forall well_addressed (emits (trace sys)) →
    Forall well_addressed (emits (trace (exec sys ls))).
Proof.
  intros sys ls. revert sys.
  apply (exec_invariant (λ s, Forall well_addressed (emits (trace s)))).
  intros sys l Hall. destruct l as [socket ev now|i fault|i now|now]; cbn [step].
  - pose proof (handler_emits_nothing socket ev now (leave_rooms socket ev (state sys))) as Hn.
    destruct (handler socket ev now _) as [[st out] next]. cbn in Hn. subst out.
    cbn [trace]. by rewrite emits_app, app_nil_r.
  - destruct (pending sys !! i) as [[f q [r|]]|]; try done.
    destruct (run_query q fault (table sys)) as [tb' r]. cbn [trace].
    by rewrite emits_app, app_nil_r.
  - destruct (pending sys !! i) as [[f q [r|]]|]; try done.
    pose proof (resume_well_addressed f r now (state sys)) as Hout.
    destruct (resume f r now (state sys)) as [[st out] next]. cbn [trace fst snd] in *.
    rewrite emits_app, emits_emitted. by apply Forall_app.
  - destruct (evict_inactive now (state sys)) as [st out] eqn:Ev. cbn in Ev.
    inversion Ev; subst. cbn [trace]. rewrite emits_app. apply Forall_app.
    split; [done|]. by repeat constructor.
Qed.

Lemma events_are_well_addressed_witness :
  Forall well_addressed (emits (trace (boot [])))
  ∧ Forall well_addressed
      (emits (trace (exec (boot [])
                       (handle 0 "a" (customer_join_ev join_c1) 10 None 11 None 12
                        ++ handle 0 "a" (message_send_ev hello) 30 None 31 (Some (StoreError "x")) 32)))).
Proof.
  assert (Forall well_addressed (emits (trace (boot [])))) as H0 by constructor.
  split; [exact H0|].
  exact (events_are_well_addressed (boot []) _ H0).
Defined.

(* ===================================================================== *)
(** ** Where session records come from *)
(* ===================================================================== *)

Lemma sent_customer_join_snoc s sess ls l :
  sent_customer_join s sess ls → sent_customer_join s sess (ls ++ [l]).
Proof.
  intros (p & now & Hin & ->). exists p, now. split; [|done]. apply elem_of_app. by left.
Qed.

Lemma sent_agent_join_snoc s c ls l : sent_agent_join s c ls → sent_agent_join s c (ls ++ [l]).
Proof. intros (now & Hin). exists now. apply elem_of_app. by left. Qed.

Lemma frame_sent_snoc ls l p : frame_sent ls p → frame_sent (ls ++ [l]) p.
Proof.
  unfold frame_sent. destruct (frame p); try done.
  - apply sent_customer_join_snoc.
  - apply sent_agent_join_snoc.
Qed.

Lemma resume_customers f r now st s sess :
  customers (sessions (resume f r now st).1.1) !! s = Some sess →
  customers (sessions st) !! s = Some sess
  ∨ ∃ c cb u ce,
      f = customer_join_reading s c cb u ce
      ∧ sess = {| cs_convId := c; cs_chatbotId := cb; cs_userId := u; cs_customerEmail := ce |}.
Proof.
  destruct f as [s0 c cb u ce|s0 c cb ce|s0 c|s0 c cb u m|s0 c m]; cbn [resume].
  - unfold customer_join_after_read.
    destruct (getConversationMessages r) as [v|]; [|by left].
    destruct (messages_length v) as [len|]; [|by left].
    assert (customers (sessions (customers_set s0
              {| cs_convId := c; cs_chatbotId := cb; cs_userId := u; cs_customerEmail := ce |}
              st)) !! s = Some sess →
            customers (sessions st) !! s = Some sess
            ∨ ∃ c' cb' u' ce',
                customer_join_reading s0 c cb u ce = customer_join_reading s c' cb' u' ce'
                ∧ sess = {| cs_convId := c'; cs_chatbotId := cb'; cs_userId := u';
                            cs_customerEmail := ce' |}) as Hset.
    { cbn. destruct (decide (s0 = s)) as [->|Hne].
      - rewrite lookup_insert_eq. intros [= <-]. right. by exists c, cb, u, ce.
      - rewrite lookup_insert_ne by done. by left. }
    destruct (Nat.eqb len 0); exact Hset.
  - unfold customer_join_after_create. destruct (error r); by left.
  - unfold agent_join_after_read. destruct (getConversationMessages r); by left.
  - unfold message_send_after_read.
    destruct (getConversationMessages r) as [v|]; [|by left].
    destruct (messages_or_empty v); by left.
  - unfold message_send_after_write. destruct (error r); [by left|].
    destruct (Map_get c (conversations (sessions st))); by left.
Qed.

Lemma resume_agents f r now st s a :
  agents (sessions (resume f r now st).1.1) !! s = Some a →
  agents (sessions st) !! s = Some a
  ∨ (f = agent_join_reading s (as_convId a)).
Proof.
  destruct f as [s0 c cb u ce|s0 c cb ce|s0 c|s0 c cb u m|s0 c m]; cbn [resume].
  - unfold customer_join_after_read.
    destruct (getConversationMessages r) as [v|]; [|by left].
    destruct (messages_length v) as [len|]; [|by left].
    destruct (Nat.eqb len 0); by left.
  - unfold customer_join_after_create. destruct (error r); by left.
  - unfold agent_join_after_read. destruct (getConversationMessages r); [|by left].
    cbn. destruct (decide (s0 = s)) as [->|Hne].
    + rewrite lookup_insert_eq. intros [= <-]. by right.
    + rewrite lookup_insert_ne by done. by left.
  - unfold message_send_after_read.
    destruct (getConversationMessages r) as [v|]; [|by left].
    destruct (messages_or_empty v); by left.
  - unfold message_send_after_write. destruct (error r); [by left|].
    destruct (Map_get c (conversations (sessions st))); by left.
Qed.

Lemma resume_next_sent ls f q r0 r now st n :
  frame_sent ls {| frame := f; query := q; response := r0 |} →
  (resume f r now st).2 = Some n → frame_sent ls (suspend n).
Proof.
  unfold frame_sent. cbn [frame].
  destruct f as [s c cb u ce|s c cb ce|s c|s c cb u m|s c m]; cbn [resume]; intros Hok.
  - unfold customer_join_after_read.
    destruct (getConversationMessages r) as [v|]; [|done].
    destruct (messages_length v) as [len|]; [|done].
    destruct (Nat.eqb len 0); cbn; [|done]. by intros [= <-].
  - unfold customer_join_after_create. by destruct (error r).
  - unfold agent_join_after_read. by destruct (getConversationMessages r).
  - unfold message_send_after_read.
    destruct (getConversationMessages r) as [v|]; [|done].
    destruct (messages_or_empty v); [|done]. cbn. by intros [= <-].
  - unfold message_send_after_write. destruct (error r); [done|].
    by destruct (Map_get c (conversations (sessions st))).
Qed.

Lemma step_registry_from_joins ls sys l :
  registry_from_joins ls sys → registry_from_joins (ls ++ [l]) (step sys l).
Proof.
  intros (Hcs & Hags & Hp).
  assert (∀ s sess, customers (sessions (state sys)) !! s = Some sess →
                    sent_customer_join s sess (ls ++ [l])) as Hcs'.
  { intros s sess H. by apply sent_customer_join_snoc, Hcs. }
  assert (∀ s a, agents (sessions (state sys)) !! s = Some a →
                 sent_agent_join s (as_convId a) (ls ++ [l])) as Hags'.
  { intros s a H. by apply sent_agent_join_snoc, Hags. }
  assert (Forall (frame_sent (ls ++ [l])) (pending sys)) as Hp'.
  { eapply Forall_impl; [exact Hp|]. intros p. apply frame_sent_snoc. }
  destruct l as [socket ev now|i fault|i now|now]; cbn [step].
  - assert (∀ s sess,
              customers (sessions (handler socket ev now
                                     (leave_rooms socket ev (state sys))).1.1) !! s = Some sess →
              customers (sessions (state sys)) !! s = Some sess) as Hc.
    { intros s sess. destruct ev; cbn; try done.
      destruct (customers (sessions (state sys)) !! socket) eqn:E; [|done].
      destruct (decide (socket = s)) as [->|Hne].
      - by rewrite lookup_delete_eq.
      - by rewrite lookup_delete_ne. }
    assert (∀ s a,
              agents (sessions (handler socket ev now
                                  (leave_rooms socket ev (state sys))).1.1) !! s = Some a →
              agents (sessions (state sys)) !! s = Some a) as Ha.
    { intros s a. destruct ev; cbn; try done.
      destruct (agents (sessions (state sys)) !! socket) eqn:E; [|done].
      destruct (decide (socket = s)) as [->|Hne].
      - by rewrite lookup_delete_eq.
      - by rewrite lookup_delete_ne. }
    assert (∀ n, (handler socket ev now (leave_rooms socket ev (state sys))).2 = Some n →
                 frame_sent (ls ++ [Deliver socket ev now]) (suspend n)) as Hnew.
    { intros n. destruct ev as [p|c|p|]; cbn; intros [= <-]; unfold frame_sent; cbn;
        try done.
      - exists p, now. split; [|done]. apply elem_of_app. right. apply list_elem_of_here.
      - exists now. apply elem_of_app. right. apply list_elem_of_here. }
    destruct (handler socket ev now _) as [[st out] next]. cbn [fst snd] in *.
    split; [|split]; cbn [state pending].
    + intros s sess H. by apply Hcs', Hc.
    + intros s a H. by apply Hags', Ha.
    + apply Forall_app. split; [done|]. destruct next as [n|]; cbn; [|constructor].
      repeat constructor. by apply Hnew.
  - destruct (pending sys !! i) as [[f q [r|]]|] eqn:Ei; try done.
    pose proof (Forall_lookup_1 _ _ _ _ Hp' Ei) as Hf.
    destruct (run_query q fault (table sys)) as [tb' r]. split; [done|]. split; [done|].
    cbn [pending]. by apply Forall_insert.
  - destruct (pending sys !! i) as [[f q [r|]]|] eqn:Ei; try done.
    pose proof (Forall_lookup_1 _ _ _ _ Hp' Ei) as Hf.
    pose proof (resume_customers f r now (state sys)) as Hc.
    pose proof (resume_agents f r now (state sys)) as Ha.
    pose proof (resume_next_sent (ls ++ [Resume i now]) f q (Some r) r now (state sys)) as Hn.
    destruct (resume f r now (state sys)) as [[st out] next]. cbn [fst snd] in *.
    unfold frame_sent in Hf. cbn [frame] in Hf.
    split; [|split]; cbn [state pending].
    + intros s sess H. destruct (Hc s sess H) as [Hold|(c & cb & u & ce & -> & ->)];
        [by apply Hcs' | exact Hf].
    + intros s a H. destruct (Ha s a H) as [Hold| ->]; [by apply Hags' | exact Hf].
    + destruct next as [n|]; [apply Forall_insert; [done | by apply Hn] | by apply Forall_delete].
  - destruct (evict_inactive now (state sys)) as [st out] eqn:Ev. cbn in Ev.
    inversion Ev; subst. by repeat split.
Qed.

Lemma boot_registry_from_joins tb0 ls : registry_from_joins ls (exec (boot tb0) ls).
Proof.
  induction ls as [|l ls IH] using rev_ind.
  - split; [|split; [|constructor]]; intros s x H; cbn in H; by rewrite lookup_empty in H.
  - rewrite exec_app. cbn. by apply step_registry_from_joins.
Qed.

(** X19.  Session records are what the sockets sent.  On a server started on
    any table, under every schedule, a customer session stored under a
    socket is the payload of a [customer:join] that this socket sent, and an
    agent session stored under a socket names a conversation for which this
    socket sent [agent:join].  No event of one socket puts a record under
    another. *)
Theorem sessions_come_from_own_joins :
  ∀ (tb0 : list Row) (ls : list Label) (socket : string),
    let sys := exec (boot tb0) ls in
    (∀ sess, (lookup_sessions socket (state sys)).1 = Some sess →
             sent_customer_join socket sess ls)
    ∧ (∀ a, (lookup_sessions socket (state sys)).2 = Some a →
            sent_agent_join socket (as_convId a) ls).
Proof.
  intros tb0 ls socket sys. destruct (boot_registry_from_joins tb0 ls) as (Hcs & Hags & _).
  split; [apply Hcs | apply Hags].
Qed.

Lemma sessions_come_from_own_joins_witness :
  let ls := handle 0 "a" (customer_join_ev join_c1) 10 None 11 None 12 in
  (lookup_sessions "a" (state (exec (boot []) ls))).1 = Some (session_of join_c1)
  ∧ sent_customer_join "a" (session_of join_c1) ls.
Proof.
  cbv zeta.
  assert ((lookup_sessions "a"
             (state (exec (boot [])
                       (handle 0 "a" (customer_join_ev join_c1) 10 None 11 None 12)))).1
          = Some (session_of join_c1)) as H by reflexivity.
  split; [exact H|].
  exact (proj1 (sessions_come_from_own_joins []
                  (handle 0 "a" (customer_join_ev join_c1) 10 None 11 None 12) "a") _ H).
Defined.

